(** * Equitable colouring: a shallow embedding of [equitable_coloring/core.py]

    The development follows the Python module function by function:
    [is_coloring], [is_equitable], [change_color] and [equitable_color].
    Python dictionaries are finite maps, Python lists are lists, Python
    integers are [Z], and a raised exception is an explicit [Raise] result.
    Code that mutates its arguments before it raises is written in a
    state-and-error monad, so that the partial mutation stays visible. *)

From Stdlib Require Import ZArith String Lia DecimalString.
From stdpp Require Import base option list gmap strings fin_maps fin_sets.

Local Open Scope Z_scope.
#[local] Set Warnings "-clear-no-such-hyp".

(** ** Exceptions and results *)

Inductive exn : Type :=
| KeyError
| ValueError
| TypeError
| IndexError
| NameError (name : string)
| OverflowError
| ZeroDivisionError
| NetworkXError
| NetworkXAlgorithmError (msg : string).

Inductive result (A : Type) : Type :=
| Ok (a : A)
| Raise (e : exn).
Arguments Ok {A} a.
Arguments Raise {A} e.

Definition result_bind {A B} (m : result A) (k : A → result B) : result B :=
  match m with
  | Ok a => k a
  | Raise e => Raise e
  end.

(** Computations over a mutable state [S] that may raise.  The state that
    comes back with [Raise] is the state at the moment of the raise. *)
Definition M (S A : Type) : Type := S → result A * S.

Definition ret {S A} (a : A) : M S A := λ s, (Ok a, s).
Definition raise {S A} (e : exn) : M S A := λ s, (Raise e, s).
Definition bind {S A B} (m : M S A) (k : A → M S B) : M S B :=
  λ s, match m s with
       | (Ok a, s') => k a s'
       | (Raise e, s') => (Raise e, s')
       end.
Definition modify {S} (f : S → S) : M S unit := λ s, (Ok tt, f s).
Definition lift {S A} (r : result A) : M S A := λ s, (r, s).

Declare Scope py_scope.
Delimit Scope py_scope with py.
Notation "x <- c1 ;; c2" := (bind c1 (λ x, c2))
  (at level 100, c1 at next level, right associativity) : py_scope.
Notation "c1 ;; c2" := (bind c1 (λ _, c2))
  (at level 100, right associativity) : py_scope.
Local Open Scope py_scope.

(** [for x in l: body x]. *)
Fixpoint for_each {S A} (l : list A) (body : A → M S unit) : M S unit :=
  match l with
  | [] => ret tt
  | x :: l' => body x ;; for_each l' body
  end.

(** ** The graph collaborator (networkx)

    networkx is an external library; the operations the module calls are
    modelled by their documented behaviour.  A [Graph] keeps its nodes in
    insertion order, each with its adjacency in insertion order.
    Nodes are natural numbers: whatever the caller uses as nodes, the
    module relabels them to integers before anything else. *)

Abbreviation graph := (list (nat * list nat)).

Definition nodes (g : graph) : list nat := g.*1.

(** [G.neighbors(u)]; networkx raises [NetworkXError] for an unknown node. *)
Definition adj (g : graph) (u : nat) : option (list nat) :=
  (λ p, p.2.2) <$> list_find (λ e : nat * list nat, e.1 = u) g.

Definition neighbors (g : graph) (u : nat) : result (list nat) :=
  match adj g u with
  | Some l => Ok l
  | None => Raise NetworkXError
  end.

(** [G.degree(node)]: a self-loop counts twice. *)
Definition degree_of (e : nat * list nat) : Z :=
  Z.of_nat (length e.2) + (if bool_decide (e.1 ∈ e.2) then 1 else 0).

(** [max([G.degree(node) for node in G.nodes], default=0)]. *)
Definition max_degree (g : graph) : Z :=
  match degree_of <$> g with
  | [] => 0
  | d :: ds => foldl Z.max d ds
  end.

(** [G.edges]: every undirected edge once, from the endpoint met first. *)
Fixpoint edges_from (seen : list nat) (g : graph) : list (nat * nat) :=
  match g with
  | [] => []
  | (n, nbrs) :: g' =>
      (pair n <$> filter (λ v, v ∉ seen) nbrs) ++ edges_from (n :: seen) g'
  end.

Definition edges (g : graph) : list (nat * nat) := edges_from [] g.

Definition add_node (g : graph) (u : nat) : graph :=
  if bool_decide (u ∈ nodes g) then g else g ++ [(u, [])].

Definition add_nbr (u v : nat) (e : nat * list nat) : nat * list nat :=
  if bool_decide (e.1 = u)
  then (e.1, if bool_decide (v ∈ e.2) then e.2 else e.2 ++ [v])
  else e.

(** [G.add_edge(u, v)]. *)
Definition add_edge (g : graph) (e : nat * nat) : graph :=
  add_nbr e.2 e.1 <$> (add_nbr e.1 e.2 <$> add_node (add_node g e.1) e.2).

(** [G.add_edges_from(es)]. *)
Definition add_edges_from (g : graph) (es : list (nat * nat)) : graph :=
  foldl add_edge g es.

(** [nx.complete_graph(p)]: nodes [0 .. p-1], every pair joined. *)
Definition complete_graph (p : nat) : graph :=
  (λ i : nat, (i, filter (λ j, j ≠ i) (seq 0 p))) <$> seq 0 p.

(** [G.add_nodes_from(ns)] *)
Definition add_nodes_from (g : graph) (ns : list nat) : graph :=
  foldl add_node g ns.

(** [nx.relabel_nodes(G, mapping, copy=True)]: a new graph, the old one is
    left alone.  networkx adds the nodes of [G] under their new labels, in
    the order of [G], and then the edges of [G.edges] under their new
    labels, in that order: the adjacency lists of the copy are rebuilt and
    follow the order of the edges, not the order they had in [G].  Labels
    missing from the mapping are kept. *)
Definition relabel_nodes (g : graph) (mapping : gmap nat nat) : graph :=
  let f := λ n, default n (mapping !! n) in
  add_edges_from (add_nodes_from [] (f <$> nodes g))
                 ((λ e : nat * nat, (f e.1, f e.2)) <$> edges g).

(** Structural well-formedness of a simple undirected graph: no node and
    no neighbour listed twice, no self-loop, and every adjacency mirrored
    at the other endpoint. *)
Definition simple (g : graph) : Prop :=
  NoDup (nodes g) ∧
  Forall (λ e : nat * list nat,
            NoDup e.2 ∧ (e.1 ∉ e.2) ∧
            Forall (λ v, Exists (λ e' : nat * list nat, e'.1 = v ∧ e.1 ∈ e'.2) g) e.2) g.

#[global] Instance simple_dec (g : graph) : Decision (simple g).
Proof. unfold simple. apply _. Defined.

(** ** [is_coloring] *)

Definition py_lookup `{Countable K} {V} (d : gmap K V) (k : K) : result V :=
  match d !! k with
  | Some v => Ok v
  | None => Raise KeyError
  end.

Fixpoint is_coloring_loop (es : list (nat * nat)) (col : gmap nat Z) : result bool :=
  match es with
  | [] => Ok true
  | (s, d) :: es' =>
      result_bind (py_lookup col s) (λ cs,
      result_bind (py_lookup col d) (λ cd,
      if bool_decide (cs = cd) then Ok false else is_coloring_loop es' col))
  end.

Definition is_coloring (g : graph) (col : gmap nat Z) : result bool :=
  is_coloring_loop (edges g) col.

(** ** [is_equitable] *)

(** [color_set_size[color] += 1] on a [defaultdict(int)]. *)
Definition count_color (m : gmap Z Z) (c : Z) : gmap Z Z :=
  <[c := default 0 (m !! c) + 1]> m.

Definition color_set_size (col : gmap nat Z) : gmap Z Z :=
  foldl count_color ∅ (snd <$> map_to_list col).

Definition all_set_sizes (col : gmap nat Z) : gset Z :=
  list_to_set (snd <$> map_to_list (color_set_size col)).

Definition is_equitable (g : graph) (col : gmap nat Z) : result bool :=
  result_bind (is_coloring g col) (λ ok,
  if negb ok then Ok false
  else
    let sizes := all_set_sizes col in
    if bool_decide (2 < size sizes)%nat then Ok false
    else
      (* [a, b = list(all_set_sizes)] *)
      match elements sizes with
      | [a; b] => Ok (bool_decide (Z.abs (a - b) ≤ 1))
      | _ => Raise ValueError
      end).

(** ** The shared tables of a colouring session *)

Record tables : Type := Tables {
  tN : gmap (nat * Z) Z;       (* N[(node, color)] *)
  tH : gmap (Z * Z) Z;         (* H[(colorX, colorY)] *)
  tF : gmap nat Z;             (* F[node] *)
  tC : gmap Z (list nat)       (* C[color], a defaultdict of lists *)
}.

Definition set_N (f : gmap (nat * Z) Z → gmap (nat * Z) Z) (t : tables) : tables :=
  Tables (f (tN t)) (tH t) (tF t) (tC t).
Definition set_H (f : gmap (Z * Z) Z → gmap (Z * Z) Z) (t : tables) : tables :=
  Tables (tN t) (f (tH t)) (tF t) (tC t).
Definition set_F (f : gmap nat Z → gmap nat Z) (t : tables) : tables :=
  Tables (tN t) (tH t) (f (tF t)) (tC t).
Definition set_C (f : gmap Z (list nat) → gmap Z (list nat)) (t : tables) : tables :=
  Tables (tN t) (tH t) (tF t) (f (tC t)).

(** [F[v]] *)
Definition F_get (v : nat) : M tables Z := λ t, (py_lookup (tF t) v, t).
(** [F[u] = c] *)
Definition F_set (u : nat) (c : Z) : M tables unit := modify (set_F <[u := c]>).
(** [N[key]] *)
Definition N_get (key : nat * Z) : M tables Z := λ t, (py_lookup (tN t) key, t).
(** [N[key] += d]; [N] is a plain dict, a missing key raises. *)
Definition N_add (key : nat * Z) (d : Z) : M tables unit :=
  x <- N_get key ;; modify (set_N <[key := x + d]>).
(** [H[key]] *)
Definition H_get (key : Z * Z) : M tables Z := λ t, (py_lookup (tH t) key, t).
(** [H[key] += d] *)
Definition H_add (key : Z * Z) (d : Z) : M tables unit :=
  x <- H_get key ;; modify (set_H <[key := x + d]>).

(** [l.remove(u)]: drops the first occurrence, [ValueError] when absent. *)
Fixpoint list_remove (u : nat) (l : list nat) : option (list nat) :=
  match l with
  | [] => None
  | x :: l' => if bool_decide (x = u) then Some l' else cons x <$> list_remove u l'
  end.

(** [C[X].remove(u)]; reading [C[X]] on the defaultdict creates the key. *)
Definition C_remove (X : Z) (u : nat) : M tables unit := λ t,
  let l := default [] (tC t !! X) in
  match list_remove u l with
  | Some l' => (Ok tt, set_C <[X := l']> t)
  | None => (Raise ValueError, set_C <[X := l]> t)
  end.

(** [C[Y].append(u)] *)
Definition C_append (Y : Z) (u : nat) : M tables unit :=
  modify (set_C (λ C, <[Y := default [] (C !! Y) ++ [u]]> C)).

(** ** [change_color]

    The body reads the name [G], which is neither a parameter nor a local of
    [change_color]: Python resolves it in the module's global namespace when
    the [for] statement is reached.  [globals] is that namespace, restricted
    to the names bound to a graph. *)

Definition lookup_global {S} (globals : gmap string graph) (name : string)
  : M S graph :=
  match globals !! name with
  | Some g => ret g
  | None => raise (NameError name)
  end.

(** The module binds [nx], [np], [defaultdict] and its four functions at top
    level, and no graph. *)
Definition module_globals : gmap string graph := ∅.

Definition change_color (globals : gmap string graph)
    (u : nat) (X Y : Z) : M tables unit :=
  F_set u Y ;;
  H_add (X, Y) (-1) ;;
  H_add (Y, X) 1 ;;
  G <- lookup_global globals "G" ;;
  nbrs <- lift (neighbors G u) ;;
  for_each nbrs (λ v,
    N_add (v, X) (-1) ;;
    N_add (v, Y) 1 ;;
    nx <- N_get (v, X) ;;
    (if bool_decide (nx = 0) then fv <- F_get v ;; H_add (fv, X) 1 else ret tt) ;;
    ny <- N_get (v, Y) ;;
    (if bool_decide (ny = 1) then fv <- F_get v ;; H_add (fv, Y) (-1) else ret tt)) ;;
  C_remove X u ;;
  C_append Y u.

(** ** [equitable_color] *)

(** What a call hands back: the function has no [return] statement, so a run
    that reaches its end yields [None]. *)
Inductive retval : Type :=
| PyNone
| PyDict (d : gmap nat Z).

(** [range(n)] *)
Definition range (n : Z) : list Z := Z.of_nat <$> seq 0 (Z.to_nat n).

(** [sys.maxsize], the largest length a container can have, of a 64-bit
    CPython.  Memory is taken to be unbounded: this limit of the index type
    is the only limit on sizes in the model. *)
Definition maxsize : Z := 2 ^ 63 - 1.

(** [list(range(n))]: the length of the range has to fit the index type. *)
Definition list_range (n : Z) : result (list Z) :=
  if bool_decide (maxsize < n) then Raise OverflowError else Ok (range n).

(** [a // b] on integers; [Z.div] rounds down, as Python does. *)
Definition floordiv (a b : Z) : result Z :=
  if bool_decide (b = 0) then Raise ZeroDivisionError else Ok (a `div` b).

(** [nx.complete_graph(n)] called with an integer: networkx first makes
    the list [list(range(n))] of the nodes and then refuses a negative
    [n]. *)
Definition nx_complete_graph (n : Z) : result graph :=
  if bool_decide (maxsize < n) then Raise OverflowError
  else if bool_decide (n < 0) then Raise NetworkXError
  else Ok (complete_graph (Z.to_nat n)).

(** ['{}'.format(n)] for an integer. *)
Definition str_of_int (n : Z) : string := NilZero.string_of_int (Z.to_int n).

Definition degree_message (r_ num_colors : Z) : string :=
  ("Graph has maximum degree " ++ str_of_int r_ ++ ", needs " ++
   str_of_int (r_ + 1) ++ " (> " ++ str_of_int num_colors ++
   ") colors for guaranteed coloring.")%string.

(** Graph objects live in a store and are named by references, so that a
    mutation of the caller's graph would show.  A reference that names no
    object reads as the graph without nodes. *)
Definition deref (G : nat) : M (gmap nat graph) graph := λ σ,
  (Ok (default [] (σ !! G)), σ).
Definition alloc (g : graph) : M (gmap nat graph) nat := λ σ,
  let G := fresh (dom σ) in (Ok G, <[G := g]> σ).
Definition update (G : nat) (f : graph → graph) : M (gmap nat graph) unit :=
  modify (λ σ, <[G := f (default [] (σ !! G))]> σ).

(** What iterating a dictionary yields: [for k in d] yields the keys, here
    integers; [for k, v in d.items()] would yield pairs. *)
Inductive pyitem : Type :=
| PyInt (n : Z)
| PyPair (a b : Z).

(** [a, b = x] *)
Definition unpack2 (x : pyitem) : result (Z * Z) :=
  match x with
  | PyPair a b => Ok (a, b)
  | PyInt _ => Raise TypeError
  end.

(** Lines 142-144: [for node, color in F: C[color].append(node)].  The
    keys of [F] come in insertion order, which is the node order. *)
Definition build_C (ns : list nat) : M tables unit :=
  for_each ns (λ key,
    nc <- lift (unpack2 (PyInt (Z.of_nat key))) ;;
    C_append nc.2 (Z.to_nat nc.1)).

(** Line 140: [F = {node: idx % num_colors for idx, node in enumerate(G.nodes)}] *)
Definition initial_F (ns : list nat) (num_colors : Z) : gmap nat Z :=
  foldl (λ F p, <[p.2 := Z.of_nat p.1 `mod` num_colors]> F) ∅
        (zip (seq 0 (length ns)) ns).

(** Line 147: [H = {(c1, c2): s for c1 in range(k) for c2 in range(k)}] *)
Definition initial_H (num_colors s : Z) : gmap (Z * Z) Z :=
  foldl (λ H key, <[key := s]> H) ∅
        (c1 ← range num_colors; c2 ← range num_colors; [(c1, c2)]).

(** Line 150: [N = {(node, color): 0 for node in G.nodes for color in range(k)}] *)
Definition initial_N (ns : list nat) (num_colors : Z) : gmap (nat * Z) Z :=
  foldl (λ N key, <[key := 0]> N) ∅
        (node ← ns; color ← range num_colors; [(node, color)]).

(** Lines 155-163, the body of [for v in G.neighbors(u)].  [L_] is written
    but never read and is left out. *)
Definition scan_edge (u v : nat) : M tables unit :=
  fv <- F_get v ;;
  N_add (u, fv) 1 ;;
  fu <- F_get u ;;
  N_add (v, fu) 1 ;;
  if bool_decide (fu ≠ fv) then
    H_add (fv, fu) (-1) ;;
    H_add (fu, fv) (-1)
  else ret tt.

(** A list comprehension [[k for k in l if test k]] whose test may raise. *)
Fixpoint filter_m {S A} (test : A → M S bool) (l : list A) : M S (list A) :=
  match l with
  | [] => ret []
  | x :: l' =>
      b <- test x ;;
      rest <- filter_m test l' ;;
      ret (if b : bool then x :: rest else rest)
  end.

(** [l[0]] *)
Definition first {S A} (l : list A) : M S A :=
  match l with
  | [] => raise IndexError
  | x :: _ => ret x
  end.

(** *** Procedure P: the search for the colours reachable from [V_minus] *)

Record search : Type := Search {
  A_cal : gset Z;
  T_cal : gmap Z (list Z);     (* a defaultdict of lists *)
  R_cal : list Z;
  reachable : list Z;
  idx : nat
}.

(** [[k for k in colors if H[(c, k)] > 0]] *)
Definition witnessed_from (c : Z) (colors : list Z) : M tables (list Z) :=
  filter_m (λ k, h <- H_get (c, k) ;; ret (bool_decide (0 < h))) colors.

(** [T_cal[dst].append(pop)] for every [dst] of the layer. *)
Definition record_layer (pop : Z) (layer : list Z) (T : gmap Z (list Z))
  : gmap Z (list Z) :=
  foldl (λ T dst, <[dst := default [] (T !! dst) ++ [pop]]> T) T layer.

(** Lines 183-195, [while idx < len(reachable)].  One unit of [fuel] per
    iteration; a run that uses all of it hands back the unfinished state. *)
Fixpoint search_loop (fuel : nat) (colors : list Z) (V_minus : Z) (st : search)
  : M tables search :=
  match fuel with
  | O => ret st
  | S fuel' =>
      match reachable st !! idx st with
      | None => ret st
      | Some pop =>
          let A := A_cal st ∪ {[pop]} in
          let R := R_cal st ++ [pop] in
          next_layer <- witnessed_from V_minus colors ;;
          let T := record_layer pop next_layer (T_cal st) in
          let reach := reachable st ++ filter (λ x, x ∉ A) next_layer in
          search_loop fuel' colors V_minus (Search A T R reach (S (idx st)))
      end
  end.

Definition finished (st : search) : Prop := reachable st !! idx st = None.

Definition search_fuel (colors : list Z) : nat :=
  S (S (length colors) * S (length colors)).

Definition search_start (V_minus : Z) : search :=
  Search ∅ ∅ [] [V_minus] 0.

Inductive branch : Type := EasyCase | RoughCase.

(** Lines 173-204.  Both branches of the final test are [pass]; the branch
    taken is handed back so that it can be talked about. *)
Definition procedure_P (colors : list Z) (X Y : Z) : M tables (search * branch) :=
  let V_minus := X in
  let V_plus := Y in
  st <- search_loop (search_fuel colors) colors V_minus (search_start V_minus) ;;
  ret (st, if bool_decide (V_plus ∈ A_cal st) then EasyCase else RoughCase).

(** *** The driver loop *)

(** [[k for k in colors if N[(u, k)] == 0]] *)
Definition free_colors (u : nat) (colors : list Z) : M tables (list Z) :=
  filter_m (λ k, n <- N_get (u, k) ;; ret (bool_decide (n = 0))) colors.

(** Lines 154-204, the body of [for u in G.nodes]. *)
Definition process_node (globals : gmap string graph) (g : graph)
    (colors : list Z) (u : nat) : M tables unit :=
  nbrs <- lift (neighbors g u) ;;
  for_each nbrs (scan_edge u) ;;
  fu <- F_get u ;;
  n <- N_get (u, fu) ;;
  if bool_decide (n ≠ 0) then
    cands <- free_colors u colors ;;
    Y <- first cands ;;
    X <- F_get u ;;
    change_color globals u X Y ;;
    procedure_P colors X Y ;;
    ret tt
  else ret tt.

Definition driver (globals : gmap string graph) (g : graph) (colors : list Z)
  : M tables unit :=
  for_each (nodes g) (process_node globals g colors).

(** Lines 142-204 on the padded graph [g]: the tables are locals of
    [equitable_color], created here and dropped when it ends. *)
Definition session (globals : gmap string graph) (g : graph)
    (colors : list Z) (num_colors s : Z) : M tables unit :=
  build_C (nodes g) ;;
  modify (set_H (λ _, initial_H num_colors s)) ;;
  modify (set_N (λ _, initial_N (nodes g) num_colors)) ;;
  driver globals g colors.

(** [{node: idx for idx, node in enumerate(G.nodes)}] *)
Definition enumerate_nodes (g : graph) : gmap nat nat :=
  foldl (λ m p, <[p.2 := p.1]> m) ∅ (zip (seq 0 (length g)) (nodes g)).

(** [{idx: idx + n_ for idx in range(p)}] *)
Definition shift_by (n_ p : nat) : gmap nat nat :=
  foldl (λ m i, <[i := (i + n_)%nat]> m) ∅ (seq 0 p).

(** Lines 119-130: pad the working graph [G] and give the class size.
    The graph is changed by the last statement only, so a run that raises
    leaves it as it found it. *)
Definition pad (G : nat) (num_colors : Z) : M (gmap nat graph) Z :=
  g <- deref G ;;
  let n_ := Z.of_nat (length g) in
  let r := num_colors - 1 in
  s <- lift (floordiv n_ (r + 1)) ;;
  if bool_decide (n_ ≠ s * (r + 1)) then
    let p := (r + 1) - n_ `mod` (r + 1) in
    K0 <- lift (nx_complete_graph p) ;;
    let K := relabel_nodes K0 (shift_by (length g) (Z.to_nat p)) in
    update G (λ g, add_edges_from g (edges K)) ;;
    ret (s + 1)
  else ret s.

(** Lines 97-204.  [G] names the caller's graph and, from line 105 on, the
    relabelled copy.  [int_to_nodes], [n], [L] and [L_] are bound but never
    read and are left out. *)
Definition equitable_color (globals : gmap string graph) (G : nat)
    (num_colors : Z) : M (gmap nat graph) retval :=
  g0 <- deref G ;;
  G <- alloc (relabel_nodes g0 (enumerate_nodes g0)) ;;
  g <- deref G ;;
  let r_ := max_degree g in
  if bool_decide (num_colors ≤ r_) then
    raise (NetworkXAlgorithmError (degree_message r_ num_colors))
  else
    s <- pad G num_colors ;;
    g <- deref G ;;
    colors <- lift (list_range num_colors) ;;
    let F := initial_F (nodes g) num_colors in
    lift (session globals g colors num_colors s (Tables ∅ ∅ F ∅)).1 ;;
    ret PyNone.

(** ** Graphs and tables used as examples *)

Definition path2 : graph := [(0%nat, [1%nat]); (1%nat, [0%nat])].
Definition cycle4 : graph :=
  [(0%nat, [1%nat; 3%nat]); (1%nat, [0%nat; 2%nat]);
   (2%nat, [1%nat; 3%nat]); (3%nat, [2%nat; 0%nat])].

Definition two_edges : graph :=
  [(0%nat, [1%nat]); (1%nat, [0%nat]); (2%nat, [3%nat]); (3%nat, [2%nat])].
Definition path3 : graph :=
  [(0%nat, [1%nat]); (1%nat, [0%nat; 2%nat]); (2%nat, [1%nat])].

(** ** Auxiliary definitions for the statements *)

(** The label a node gets from [nodes_to_int]. *)
Definition to_int (g : graph) (n : nat) : nat := default n (enumerate_nodes g !! n).

(** The tables as line 153 finds them, for a class table [C]. *)
Definition tables_at_driver (g : graph) (num_colors s : Z)
    (C : gmap Z (list nat)) : tables :=
  Tables (initial_N (nodes g) num_colors) (initial_H num_colors s)
         (initial_F (nodes g) num_colors) C.

(** [u] has a neighbour of its own colour under [F]. *)
Definition clashes (g : graph) (F : gmap nat Z) (u : nat) : Prop :=
  ∃ l v, (u, l) ∈ g ∧ v ∈ l ∧ F !! v = F !! u.

(** [c] is the colour under [F] of some neighbour of [u]. *)
Definition neighbor_color (g : graph) (F : gmap nat Z) (u : nat) (c : Z) : Prop :=
  ∃ l v, (u, l) ∈ g ∧ v ∈ l ∧ F !! v = Some c.

(** [Y] is the least colour of the palette [0 .. k-1] that no neighbour of
    [u] has under [F]. *)
Definition least_free (g : graph) (F : gmap nat Z) (k : Z) (u : nat) (Y : Z) : Prop :=
  0 ≤ Y < k ∧ ¬ neighbor_color g F u Y ∧
  ∀ c, 0 ≤ c < Y → neighbor_color g F u c.

(** ** What the tables are meant to hold *)

(** The number of neighbours of [u] whose colour under [F] is [c]. *)
Definition colored_neighbors (g : graph) (F : gmap nat Z) (u : nat) (c : Z) : Z :=
  Z.of_nat (length (filter (λ v, F !! v = Some c) (default [] (adj g u)))).

(** The number of nodes of class [C[X]] with [N[(u, Y)] == 0]. *)
Definition witnesses (t : tables) (X Y : Z) : Z :=
  Z.of_nat (length (filter (λ u, tN t !! (u, Y) = Some 0) (default [] (tC t !! X)))).

(** The relation [{(c1, c2) : H[(c1, c2)] > 0}] and what it reaches. *)
Definition witness_edge (H : gmap (Z * Z) Z) (c1 c2 : Z) : Prop :=
  ∃ h, H !! (c1, c2) = Some h ∧ 0 < h.

Definition reaches (H : gmap (Z * Z) Z) (c1 c2 : Z) : Prop :=
  rtc (witness_edge H) c1 c2.

Definition far_pair : graph :=
  [(10%nat, [40%nat]); (20%nat, []); (30%nat, []); (40%nat, [10%nat])].

Definition chain_H : gmap (Z * Z) Z :=
  <[(0, 1) := 1]> (<[(1, 2) := 1]> (initial_H 3 0)).

(** What holds of the tables of a run on [g] with [k] colours as long as no
    node has been recoloured: [F] is the initial assignment, [N] and [H]
    have all their keys, and a counter of [N] that is not zero has a
    neighbour to show for it. *)
Record scan_inv (g : graph) (k : Z) (t : tables) : Prop := ScanInv {
  inv_F : tF t = initial_F (nodes g) k;
  inv_N : ∀ n c, n ∈ nodes g → 0 ≤ c < k → is_Some (tN t !! (n, c));
  inv_H : ∀ c1 c2, 0 ≤ c1 < k → 0 ≤ c2 < k → is_Some (tH t !! (c1, c2));
  inv_nz : ∀ w c m, tN t !! (w, c) = Some m → m ≠ 0 →
             ∃ l v, (w, l) ∈ g ∧ v ∈ l ∧ initial_F (nodes g) k !! v = Some c
}.

(** The graph the tables are built from: the relabelled copy of the
    caller's graph, after [pad] went over it. *)
Definition working_graph (g0 : graph) (num_colors : Z) : graph :=
  default []
    ((pad 0%nat num_colors
        {[ 0%nat := relabel_nodes g0 (enumerate_nodes g0) ]}).2 !! 0%nat).

(** The single edge 0-1 with three colours, node 0 in class 0 and node 1 in
    class 1, and tables that hold the exact counts. *)
Definition edge_tables : tables :=
  Tables (<[(0%nat, 1) := 1]> (<[(1%nat, 0) := 1]> (initial_N [0%nat; 1%nat] 3)))
         (<[(0, 0) := 1]> (<[(0, 2) := 1]> (<[(1, 1) := 1]> (<[(1, 2) := 1]>
            (initial_H 3 0)))))
         (initial_F [0%nat; 1%nat] 3)
         {[ 0 := [0%nat]; 1 := [1%nat] ]}.

(** ** Auxiliary definitions for the further properties *)

(** The number of nodes to which [col] gives the colour [c]. *)
Definition class_size (col : gmap nat Z) (c : Z) : Z :=
  Z.of_nat (length (filter (λ x, x = c) (snd <$> map_to_list col))).

(** Lines 99-103, the second dictionary of the loop:
    [int_to_nodes[idx] = node]. *)
Definition int_to_nodes (g : graph) : gmap nat nat :=
  foldl (λ m p, <[p.1 := p.2]> m) ∅ (zip (seq 0 (length g)) (nodes g)).

(** What the loop of Procedure P keeps true of its two logs: [R_cal] is the
    part of the queue dequeued so far, and the entry of [T_cal] for a colour
    the start colour has a witness for has the same elements in the same
    order; the other colours have no entry. *)
Definition search_logs (colors : list Z) (V_minus : Z) (t : tables)
    (st : search) : Prop :=
  reachable st ≠ [] ∧
  R_cal st = take (idx st) (reachable st) ∧
  ∀ dst, T_cal st !! dst =
    if decide (dst ∈ filter (λ c, 0 < default 0 (tH t !! (V_minus, c))) colors
               ∧ R_cal st ≠ [])
    then Some (R_cal st) else None.

(** The outcome of a call on a simple graph that passes the degree check:
    [OverflowError] from [nx.complete_graph] when more than [maxsize]
    phantoms are called for, [OverflowError] from [list(range(num_colors))]
    when the palette is larger than [maxsize], and else [None] for the
    graph without nodes and the [TypeError] of line 143 for any other. *)
Definition outcome_past_check (g0 : graph) (k : Z) : result retval :=
  let n_ := Z.of_nat (length g0) in
  if bool_decide (n_ `mod` k ≠ 0 ∧ maxsize < k - n_ `mod` k) then Raise OverflowError
  else if bool_decide (maxsize < k) then Raise OverflowError
  else match g0 with [] => Ok PyNone | _ => Raise TypeError end.

(** * General results *)

(** ** The checkers *)

Section Checkers.
Implicit Types (g : graph) (col : gmap nat Z).

Lemma is_coloring_loop_true es col :
  is_coloring_loop es col = Ok true ↔
  ∀ s d, (s, d) ∈ es → ∃ cs cd, col !! s = Some cs ∧ col !! d = Some cd ∧ cs ≠ cd.
Proof.
  induction es as [|[s d] es IH]; simpl.
  - split; [intros _ ? ? Hin; inversion Hin | done].
  - unfold py_lookup. split.
    + intros Hrun s' d' Hin.
      destruct (col !! s) as [cs|] eqn:Hs; simpl in Hrun; [|done].
      destruct (col !! d) as [cd|] eqn:Hd; simpl in Hrun; [|done].
      case_bool_decide; [done|].
      apply elem_of_cons in Hin as [[= -> ->]|Hin]; [eauto|].
      by apply IH.
    + intros Hall.
      destruct (Hall s d) as (cs & cd & -> & -> & Hne); [left|]. simpl.
      rewrite bool_decide_eq_false_2 by done.
      apply IH. intros s' d' Hin. apply Hall. by right.
Qed.

(** [is_coloring] answers [True] exactly on the proper colourings that
    colour both endpoints of every edge. *)
Lemma is_coloring_true g col :
  is_coloring g col = Ok true ↔
  ∀ s d, (s, d) ∈ edges g → ∃ cs cd, col !! s = Some cs ∧ col !! d = Some cd ∧ cs ≠ cd.
Proof. apply is_coloring_loop_true. Qed.

(** What [is_equitable] does on a proper colouring, by the number of
    distinct class sizes. *)
Lemma is_equitable_proper g col :
  is_coloring g col = Ok true →
  is_equitable g col =
    match elements (all_set_sizes col) with
    | [] | [_] => Raise ValueError
    | [a; b] => Ok (bool_decide (Z.abs (a - b) ≤ 1))
    | _ => Ok false
    end.
Proof.
  intros Hc. unfold is_equitable. rewrite Hc. simpl.
  unfold size, set_size. simpl.
  by destruct (elements (all_set_sizes col)) as [|a [|b [|c l]]].
Qed.

Lemma is_equitable_improper g col :
  is_coloring g col = Ok false → is_equitable g col = Ok false.
Proof. intros Hc. unfold is_equitable. by rewrite Hc. Qed.

Lemma is_equitable_one_size_raises g col :
  is_coloring g col = Ok true →
  (size (all_set_sizes col) ≤ 1)%nat →
  is_equitable g col = Raise ValueError.
Proof.
  intros Hc Hs. rewrite (is_equitable_proper _ _ Hc).
  unfold size, set_size in Hs. simpl in Hs.
  destruct (elements (all_set_sizes col)) as [|a [|b l]]; simpl in *; try done; lia.
Qed.

End Checkers.

(** ** [change_color] *)

(** The run of [change_color] in the module's own namespace. *)
Lemma change_color_unbound_G (u : nat) (X Y : Z) (t : tables) :
  ∃ t', change_color module_globals u X Y t =
          (Raise (match tH t !! (X, Y), tH t !! (Y, X) with
                  | Some _, Some _ => NameError "G"
                  | _, _ => KeyError
                  end), t') ∧
        tF t' = <[u := Y]> (tF t) ∧ tN t' = tN t ∧ tC t' = tC t.
Proof.
  unfold change_color, F_set, H_add, H_get, lookup_global, py_lookup,
    bind, modify, raise. simpl.
  destruct (tH t !! (X, Y)) as [h1|] eqn:H1; simpl; [|eauto].
  destruct (decide ((X, Y) = (Y, X))) as [Heq|Hne].
  - assert (X = Y) as -> by congruence.
    rewrite H1, lookup_insert_eq. simpl. eauto.
  - rewrite lookup_insert_ne by done.
    destruct (tH t !! (Y, X)) as [h2|] eqn:H2; simpl; eauto.
Qed.

(** ** [equitable_color] *)

Section Session.
Variable globals : gmap string graph.

Lemma build_C_nonempty n ns t :
  build_C (n :: ns) t = (Raise TypeError, t).
Proof. reflexivity. Qed.

(** Once the palette is built the run has two outcomes only: on a graph
    with no node every loop is empty, on any other graph line 143 raises. *)
Lemma session_outcome g cs k s t :
  (session globals g cs k s t).1 =
    match g with [] => Ok tt | _ => Raise TypeError end.
Proof. by destruct g as [|[n l] g]. Qed.

(** A padding that raises has changed nothing, and what it raises comes
    from the division or from [nx.complete_graph]. *)
Lemma pad_raises G k σ e σ' :
  pad G k σ = (Raise e, σ') →
  σ' = σ ∧ (e = ZeroDivisionError ∨ e = OverflowError ∨ e = NetworkXError).
Proof.
  unfold pad, bind, deref, update, modify, ret, lift, floordiv, nx_complete_graph.
  simpl. case_bool_decide; [intros [= <- <-]; eauto|].
  case_bool_decide; [|done].
  case_bool_decide; [intros [= <- <-]; eauto|].
  case_bool_decide; [intros [= <- <-]; eauto|done].
Qed.

(** No call hands back a colouring. *)
Lemma equitable_color_no_dict G k σ d :
  (equitable_color globals G k σ).1 ≠ Ok (PyDict d).
Proof.
  unfold equitable_color, bind, deref, alloc, raise, lift, ret. simpl.
  case_bool_decide; [done|].
  destruct (pad _ _ _) as [[s|e] σ']; [|done].
  destruct (list_range k) as [cs|e]; [|done].
  by destruct (session _ _ _ _ _ _).1.
Qed.

End Session.

(** ** Graphs *)

Section Graphs.
Implicit Types (g : graph) (u v : nat) (l : list nat).

Lemma simple_elim g u l :
  simple g → (u, l) ∈ g →
  NoDup l ∧ (u ∉ l) ∧ ∀ v, v ∈ l → ∃ l', (v, l') ∈ g ∧ u ∈ l'.
Proof.
  intros [_ Hall] Hin. rewrite Forall_forall in Hall.
  destruct (Hall _ Hin) as (Hnd & Hself & Hsym). simpl in *.
  split; [done|]. split; [done|]. intros v Hv.
  rewrite Forall_forall in Hsym. specialize (Hsym v Hv).
  apply Exists_exists in Hsym as ([v' l'] & Hin' & Hv' & Hu). simpl in *.
  subst v'. eauto.
Qed.

Lemma adj_Some g u l : adj g u = Some l → (u, l) ∈ g.
Proof.
  unfold adj. intros Hadj.
  destruct (list_find _ g) as [[i [u' l']]|] eqn:Hfind; simplify_eq/=.
  apply list_find_Some in Hfind as (Hi & Hu & _). simpl in Hu. subst u'.
  eapply list_elem_of_lookup_2; eauto.
Qed.

Lemma adj_of_node g u l : NoDup (nodes g) → (u, l) ∈ g → adj g u = Some l.
Proof.
  intros Hnd Hin. unfold adj.
  destruct (list_find (λ e : nat * list nat, e.1 = u) g) as [[i [u' l']]|] eqn:Hfind.
  - apply list_find_Some in Hfind as (Hi & Hu & _). simpl in *. subst u'.
    apply list_elem_of_lookup_1 in Hin as [j Hj].
    assert (i = j) as ->.
    { eapply NoDup_lookup; [exact Hnd| |].
      - unfold nodes. rewrite list_lookup_fmap, Hi. done.
      - unfold nodes. rewrite list_lookup_fmap, Hj. done. }
    by simplify_eq.
  - apply list_find_None in Hfind. rewrite Forall_forall in Hfind.
    by destruct (Hfind _ Hin).
Qed.

Lemma neighbors_of_node g u l :
  NoDup (nodes g) → (u, l) ∈ g → neighbors g u = Ok l.
Proof. intros ? ?. unfold neighbors. by erewrite adj_of_node. Qed.

Lemma node_has_entry g u : u ∈ nodes g → ∃ l, (u, l) ∈ g.
Proof.
  unfold nodes. intros ([u' l] & -> & Hin)%list_elem_of_fmap. eauto.
Qed.

Lemma entry_is_node g u l : (u, l) ∈ g → u ∈ nodes g.
Proof. intros Hin. unfold nodes. apply list_elem_of_fmap. by exists (u, l). Qed.

(** In a simple graph the degree of a node is the length of its adjacency. *)
Lemma degree_of_simple g u l :
  simple g → (u, l) ∈ g → degree_of (u, l) = Z.of_nat (length l).
Proof.
  intros Hs Hin. destruct (simple_elim _ _ _ Hs Hin) as (_ & Hself & _).
  unfold degree_of. simpl. rewrite bool_decide_eq_false_2 by done. lia.
Qed.

Lemma foldl_max_le (d : Z) (ds : list Z) :
  d ≤ foldl Z.max d ds ∧ ∀ x, x ∈ ds → x ≤ foldl Z.max d ds.
Proof.
  revert d. induction ds as [|y ds IH]; intros d; simpl.
  - split; [lia|]. intros x Hx. inversion Hx.
  - destruct (IH (Z.max d y)) as [H1 H2]. split; [lia|].
    intros x [->|Hx]%elem_of_cons; [lia | by apply H2].
Qed.

Lemma foldl_max_elem (d : Z) (ds : list Z) : foldl Z.max d ds ∈ d :: ds.
Proof.
  revert d. induction ds as [|y ds IH]; intros d; simpl; [left|].
  specialize (IH (Z.max d y)).
  apply elem_of_cons in IH as [->|IH].
  - destruct (Z.max_spec d y) as [[_ ->]|[_ ->]]; [right; left | left].
  - right. by right.
Qed.

Lemma max_degree_bound g e : e ∈ g → degree_of e ≤ max_degree g.
Proof.
  intros Hin. unfold max_degree.
  assert (degree_of e ∈ degree_of <$> g) as Hd by (by apply list_elem_of_fmap_2).
  destruct (degree_of <$> g) as [|d ds]; [inversion Hd|].
  destruct (foldl_max_le d ds) as [H1 H2].
  apply elem_of_cons in Hd as [->|Hd]; [done | by apply H2].
Qed.

Lemma max_degree_nonneg g : 0 ≤ max_degree g.
Proof.
  unfold max_degree. destruct g as [|e g]; simpl; [lia|].
  destruct (foldl_max_le (degree_of e) (degree_of <$> g)) as [H _].
  assert (0 ≤ degree_of e) by (unfold degree_of; case_bool_decide; lia).
  etrans; [eassumption | exact H].
Qed.

(** The maximum degree bounds the length of every adjacency list. *)
Lemma max_degree_length g u l :
  (u, l) ∈ g → Z.of_nat (length l) ≤ max_degree g.
Proof.
  intros Hin. pose proof (max_degree_bound _ _ Hin) as Hb.
  unfold degree_of in Hb. simpl in Hb. case_bool_decide; lia.
Qed.

Lemma entry_functional g u l l' :
  NoDup (nodes g) → (u, l) ∈ g → (u, l') ∈ g → l = l'.
Proof.
  intros Hnd H1 H2.
  apply (adj_of_node _ _ _ Hnd) in H1. apply (adj_of_node _ _ _ Hnd) in H2.
  congruence.
Qed.

Lemma neighbor_is_node g u l v : simple g → (u, l) ∈ g → v ∈ l → v ∈ nodes g.
Proof.
  intros Hs Hul Hv. destruct (simple_elim _ _ _ Hs Hul) as (_ & _ & Hsym).
  destruct (Hsym v Hv) as (l' & Hvl' & _). by eapply entry_is_node.
Qed.

(** The maximum degree is the degree of some node, unless there is none. *)
Lemma max_degree_attained g : g ≠ [] → ∃ e, e ∈ g ∧ max_degree g = degree_of e.
Proof.
  intros Hne. unfold max_degree.
  destruct (degree_of <$> g) as [|d ds] eqn:Hd; [by destruct g|].
  pose proof (foldl_max_elem d ds) as Hin. rewrite <- Hd in Hin.
  apply list_elem_of_fmap in Hin as (e & He & Hin). eauto.
Qed.

(** Two graphs whose nodes have the same degrees, each way, have the same
    maximum degree. *)
Lemma max_degree_same g g' :
  (∀ e, e ∈ g → ∃ e', e' ∈ g' ∧ degree_of e = degree_of e') →
  (∀ e', e' ∈ g' → ∃ e, e ∈ g ∧ degree_of e' = degree_of e) →
  max_degree g = max_degree g'.
Proof.
  intros H1 H2. destruct g as [|e0 g].
  { destruct g' as [|e' g']; [done|].
    destruct (H2 e') as (e & He%elem_of_nil & _); [left | done]. }
  destruct g' as [|e0' g'].
  { destruct (H1 e0) as (e & He%elem_of_nil & _); [left | done]. }
  destruct (max_degree_attained (e0 :: g)) as (e & He & Hm); [done|].
  destruct (max_degree_attained (e0' :: g')) as (e' & He' & Hm'); [done|].
  destruct (H1 e He) as (e1 & He1 & Hd1). destruct (H2 e' He') as (e2 & He2 & Hd2).
  pose proof (max_degree_bound _ _ He1). pose proof (max_degree_bound _ _ He2).
  lia.
Qed.

End Graphs.

(** ** Dictionaries built by a loop over [enumerate] *)

Section Enumerate.
Context {V : Type} (h : nat → V).

Local Abbreviation step := (λ (m : gmap nat V) (p : nat * nat), <[p.2 := h p.1]> m).

Lemma foldl_enumerate_notin (ns : list nat) (a : nat) (m : gmap nat V) (n : nat) :
  n ∉ ns →
  foldl step m (zip (seq a (length ns)) ns) !! n = m !! n.
Proof.
  revert a m. induction ns as [|x ns IH]; intros a m Hn; simpl; [done|].
  apply not_elem_of_cons in Hn as [Hne Hn].
  rewrite IH by done. simpl. by rewrite lookup_insert_ne.
Qed.

Lemma foldl_enumerate_lookup (ns : list nat) (a : nat) (m : gmap nat V) (i n : nat) :
  NoDup ns → ns !! i = Some n →
  foldl step m (zip (seq a (length ns)) ns) !! n = Some (h (a + i)%nat).
Proof.
  revert a m i. induction ns as [|x ns IH]; intros a m i Hnd Hi; [done|].
  apply NoDup_cons in Hnd as [Hx Hnd]. simpl.
  destruct i as [|i]; simpl in Hi.
  - simplify_eq. rewrite foldl_enumerate_notin by done.
    simpl. rewrite lookup_insert_eq. do 2 f_equal. lia.
  - rewrite (IH _ _ i) by done. do 2 f_equal. lia.
Qed.

Lemma foldl_enumerate_dom (ns : list nat) (a : nat) (m : gmap nat V) (n : nat) (x : V) :
  foldl step m (zip (seq a (length ns)) ns) !! n = Some x →
  n ∈ ns ∨ m !! n = Some x.
Proof.
  revert a m. induction ns as [|y ns IH]; intros a m Hl; simpl in *; [by right|].
  apply IH in Hl as [Hin|Hl]; [left; by right|].
  simpl in Hl.
  destruct (decide (y = n)) as [->|Hne]; [left; left|].
  rewrite lookup_insert_ne in Hl by done. by right.
Qed.

End Enumerate.

(** ** Running monadic code *)

Section MonadRun.
Context {S A B : Type}.
Implicit Types (m : M S A) (k : A → M S B).

Lemma bind_Ok m k s a s' : m s = (Ok a, s') → bind m k s = k a s'.
Proof. intros Hm. unfold bind. by rewrite Hm. Qed.

Lemma bind_Raise m k s e s' : m s = (Raise e, s') → bind m k s = (Raise e, s').
Proof. intros Hm. unfold bind. by rewrite Hm. Qed.

Lemma bind_Ok_inv m k s b s' :
  bind m k s = (Ok b, s') → ∃ a s1, m s = (Ok a, s1) ∧ k a s1 = (Ok b, s').
Proof. unfold bind. destruct (m s) as [[a|e] s1]; [eauto | done]. Qed.
End MonadRun.

Lemma F_get_run v c t : tF t !! v = Some c → F_get v t = (Ok c, t).
Proof. intros Hv. unfold F_get, py_lookup. by rewrite Hv. Qed.

Lemma N_get_run key x t : tN t !! key = Some x → N_get key t = (Ok x, t).
Proof. intros Hv. unfold N_get, py_lookup. by rewrite Hv. Qed.

Lemma F_get_state v t r s : F_get v t = (r, s) → s = t.
Proof. unfold F_get. congruence. Qed.

Lemma N_get_state key t r s : N_get key t = (r, s) → s = t.
Proof. unfold N_get. congruence. Qed.

Lemma N_add_run key d x t :
  tN t !! key = Some x → N_add key d t = (Ok tt, set_N <[key := x + d]> t).
Proof. intros Hv. unfold N_add. by rewrite (bind_Ok _ _ _ _ _ (N_get_run _ _ _ Hv)). Qed.

Lemma H_add_run key d x t :
  tH t !! key = Some x → H_add key d t = (Ok tt, set_H <[key := x + d]> t).
Proof.
  intros Hv. unfold H_add, H_get, bind, modify, py_lookup. by rewrite Hv.
Qed.

(** ** [range] and the tables built from it *)

Lemma elem_of_range k c : c ∈ range k ↔ 0 ≤ c < k.
Proof.
  unfold range. rewrite list_elem_of_fmap. split.
  - intros (i & -> & Hi%elem_of_seq). lia.
  - intros Hc. exists (Z.to_nat c). split; [lia|]. apply elem_of_seq. lia.
Qed.

Lemma NoDup_range k : NoDup (range k).
Proof. unfold range. apply NoDup_fmap_2; [apply _ | apply NoDup_seq]. Qed.

Lemma length_range k : 0 ≤ k → Z.of_nat (length (range k)) = k.
Proof. intros Hk. unfold range. rewrite length_fmap, length_seq. lia. Qed.

(** The head of a comprehension over an increasing range is the least
    element that passes the test. *)
Lemma filter_seq_head (P : Z → Prop) `{!∀ c, Decision (P c)} a n Y rest :
  filter P (Z.of_nat <$> seq a n) = Y :: rest →
  P Y ∧ Z.of_nat a ≤ Y < Z.of_nat (a + n) ∧ ∀ c, Z.of_nat a ≤ c < Y → ¬ P c.
Proof.
  revert a. induction n as [|n IH]; intros a; simpl; [done|].
  rewrite filter_cons. destruct (decide (P (Z.of_nat a))) as [HP|HP].
  - intros [= <- <-]. split; [done|]. split; lia.
  - intros Hf. destruct (IH (Datatypes.S a) Hf) as (HY & Hr & Hl).
    split; [done|]. split; [lia|]. intros c Hc.
    destruct (decide (c = Z.of_nat a)) as [->|Hne]; [done|]. apply Hl. lia.
Qed.

Lemma foldl_insert_key `{Countable K} {V} (h : K → V) (keys : list K)
    (m : gmap K V) (key : K) :
  foldl (λ m key, <[key := h key]> m) m keys !! key =
    if decide (key ∈ keys) then Some (h key) else m !! key.
Proof.
  revert m. induction keys as [|x keys IH]; intros m.
  - destruct (decide (key ∈ [])) as [Hin|_]; [by apply elem_of_nil in Hin | done].
  - change (foldl (λ m key, <[key := h key]> m) (<[x := h x]> m) keys !! key =
            if decide (key ∈ x :: keys) then Some (h key) else m !! key).
    rewrite IH. destruct (decide (key ∈ keys)) as [Hin|Hnin].
    + case_decide as Hc; [done|]. destruct Hc. by right.
    + destruct (decide (x = key)) as [->|Hne].
      * rewrite lookup_insert_eq. case_decide as Hc; [done|]. destruct Hc. left.
      * rewrite lookup_insert_ne by done.
        case_decide as Hc; [|done]. by apply elem_of_cons in Hc as [?|?].
Qed.

Lemma initial_N_lookup ns k n c :
  n ∈ ns → 0 ≤ c < k → initial_N ns k !! (n, c) = Some 0.
Proof.
  intros Hn Hc. unfold initial_N. rewrite (foldl_insert_key (λ _, 0)).
  rewrite decide_True; [done|].
  apply list_elem_of_bind. exists n. split; [|done].
  apply list_elem_of_bind. exists c. split; [left | by apply elem_of_range].
Qed.

Lemma initial_N_zero ns k key x : initial_N ns k !! key = Some x → x = 0.
Proof.
  unfold initial_N. rewrite (foldl_insert_key (λ _, 0)).
  case_decide; [congruence | done].
Qed.

Lemma initial_H_lookup k s c1 c2 :
  0 ≤ c1 < k → 0 ≤ c2 < k → initial_H k s !! (c1, c2) = Some s.
Proof.
  intros H1 H2. unfold initial_H. rewrite (foldl_insert_key (λ _, s)).
  rewrite decide_True; [done|].
  apply list_elem_of_bind. exists c1. split; [|by apply elem_of_range].
  apply list_elem_of_bind. exists c2. split; [left | by apply elem_of_range].
Qed.

Lemma initial_F_lookup ns k i n :
  NoDup ns → ns !! i = Some n → initial_F ns k !! n = Some (Z.of_nat i `mod` k).
Proof.
  intros Hnd Hi. unfold initial_F.
  exact (foldl_enumerate_lookup (λ j, Z.of_nat j `mod` k) ns 0 ∅ i n Hnd Hi).
Qed.

(** ** Adding edges *)

Section AddEdge.
Implicit Types (g : graph) (a b u v x : nat) (l : list nat) (e : nat * list nat).

Lemma add_nbr_fst u v e : (add_nbr u v e).1 = e.1.
Proof. unfold add_nbr. by case_bool_decide. Qed.

Lemma elem_of_add_nbr u v e x :
  x ∈ (add_nbr u v e).2 ↔ x ∈ e.2 ∨ (e.1 = u ∧ x = v).
Proof.
  unfold add_nbr. case_bool_decide as Hu; simpl; [|naive_solver].
  case_bool_decide as Hv; [naive_solver|].
  rewrite elem_of_app, list_elem_of_singleton. naive_solver.
Qed.

Lemma NoDup_add_nbr u v e : NoDup e.2 → NoDup (add_nbr u v e).2.
Proof.
  intros Hnd. unfold add_nbr. case_bool_decide; simpl; [|done].
  case_bool_decide as Hv; [done|].
  apply NoDup_app. split; [done|]. split; [|apply NoDup_singleton].
  by intros x Hx ->%list_elem_of_singleton.
Qed.

Lemma add_node_entry g a e :
  e ∈ add_node g a ↔ e ∈ g ∨ (e = (a, []) ∧ a ∉ nodes g).
Proof.
  unfold add_node. case_bool_decide; [naive_solver|].
  rewrite elem_of_app, list_elem_of_singleton. naive_solver.
Qed.

Lemma nodes_add_node g a x : x ∈ nodes (add_node g a) ↔ x ∈ nodes g ∨ x = a.
Proof.
  unfold add_node. case_bool_decide; [naive_solver|].
  unfold nodes. rewrite fmap_app, elem_of_app. simpl.
  rewrite list_elem_of_singleton. naive_solver.
Qed.

Lemma NoDup_add_node g a : NoDup (nodes g) → NoDup (nodes (add_node g a)).
Proof.
  intros Hnd. unfold add_node. case_bool_decide as Ha; [done|].
  unfold nodes. rewrite fmap_app. apply NoDup_app. split; [done|].
  split; [|apply NoDup_singleton].
  intros x Hx ->%list_elem_of_singleton. by apply Ha.
Qed.

Lemma nodes_add_edge g a b :
  nodes (add_edge g (a, b)) = nodes (add_node (add_node g a) b).
Proof.
  unfold add_edge, nodes. simpl. rewrite <- !list_fmap_compose.
  apply list_fmap_ext. intros i e _. simpl. by rewrite !add_nbr_fst.
Qed.

Lemma elem_of_nodes_add_edge g a b x :
  x ∈ nodes (add_edge g (a, b)) ↔ x ∈ nodes g ∨ x = a ∨ x = b.
Proof. rewrite nodes_add_edge, !nodes_add_node. naive_solver. Qed.

(** Where an entry of the graph after [add_edge] comes from. *)
Lemma add_edge_entry g a b u l2 :
  (u, l2) ∈ add_edge g (a, b) →
  ∃ l, ((u, l) ∈ g ∨ (l = [] ∧ (u = a ∨ u = b) ∧ u ∉ nodes g)) ∧
       (NoDup l → NoDup l2) ∧ (u ≠ a → u ≠ b → l2 = l) ∧
       ∀ x, x ∈ l2 ↔ x ∈ l ∨ (u = a ∧ x = b) ∨ (u = b ∧ x = a).
Proof.
  unfold add_edge. simpl.
  intros (e1 & Heq & (e0 & -> & He0)%list_elem_of_fmap)%list_elem_of_fmap.
  destruct e0 as [u0 l].
  pose proof (f_equal fst Heq) as Hu. rewrite !add_nbr_fst in Hu. simpl in Hu.
  pose proof (f_equal snd Heq) as Hl2. simpl in Hl2. subst u0 l2. clear Heq.
  exists l. split; [|split; [|split]].
  - apply add_node_entry in He0 as [He0|[[= -> ->] Hb]].
    + apply add_node_entry in He0 as [He0|[[= -> ->] Ha]]; [by left|].
      right. eauto.
    + right. split; [done|]. split; [by right|].
      intros Hin. apply Hb. apply nodes_add_node. by left.
  - intros Hnd. by apply NoDup_add_nbr, NoDup_add_nbr.
  - intros Ha Hb. unfold add_nbr. simpl.
    rewrite (bool_decide_eq_false_2 (u = a)) by done. simpl.
    by rewrite (bool_decide_eq_false_2 (u = b)) by done.
  - intros x. rewrite !elem_of_add_nbr, add_nbr_fst. simpl. naive_solver.
Qed.

(** Every entry before the call has its counterpart after it. *)
Lemma add_edge_keeps g a b u l :
  (u, l) ∈ g →
  ∃ l2, (u, l2) ∈ add_edge g (a, b) ∧
        ∀ x, x ∈ l2 ↔ x ∈ l ∨ (u = a ∧ x = b) ∨ (u = b ∧ x = a).
Proof.
  intros Hul. exists (add_nbr b a (add_nbr a b (u, l))).2. split.
  - unfold add_edge. simpl. apply list_elem_of_fmap.
    exists (add_nbr a b (u, l)). split.
    + apply injective_projections; simpl; [by rewrite !add_nbr_fst | done].
    + apply list_elem_of_fmap_2. apply add_node_entry. left.
      apply add_node_entry. by left.
  - intros x. rewrite !elem_of_add_nbr, add_nbr_fst. simpl. naive_solver.
Qed.

Lemma add_edge_endpoint g a b u :
  u = a ∨ u = b →
  ∃ l2, (u, l2) ∈ add_edge g (a, b) ∧ (u = a → b ∈ l2) ∧ (u = b → a ∈ l2).
Proof.
  intros Hu.
  assert (u ∈ nodes (add_edge g (a, b))) as [l2 Hl2]%node_has_entry.
  { apply elem_of_nodes_add_edge. naive_solver. }
  exists l2. split; [done|].
  destruct (add_edge_entry _ _ _ _ _ Hl2) as (l & _ & _ & _ & Hx).
  split; intros ->; apply Hx; naive_solver.
Qed.

(** [add_edge] keeps a simple graph simple when the endpoints differ. *)
Lemma simple_add_edge g a b : simple g → a ≠ b → simple (add_edge g (a, b)).
Proof.
  intros Hs Hab. split.
  - rewrite nodes_add_edge. apply NoDup_add_node, NoDup_add_node, Hs.
  - apply Forall_forall. intros [u l2] Hul2. simpl.
    destruct (add_edge_entry _ _ _ _ _ Hul2) as (l & Hl & Hnd & _ & Hx).
    assert (NoDup l ∧ (u ∉ l) ∧
            ∀ v, v ∈ l → ∃ l', (v, l') ∈ g ∧ u ∈ l') as (Hndl & Hself & Hsym).
    { destruct Hl as [Hl|(-> & _)]; [by apply simple_elim|].
      split; [constructor|]. split; [by intros ?%elem_of_nil|].
      by intros v ?%elem_of_nil. }
    split; [by apply Hnd|]. split.
    + rewrite Hx. naive_solver.
    + apply Forall_forall. intros v Hv. apply Exists_exists.
      apply Hx in Hv as [Hv|[[-> ->]|[-> ->]]].
      * destruct (Hsym v Hv) as (l' & Hvl' & Hu).
        destruct (add_edge_keeps g a b v l' Hvl') as (l3 & Hl3 & Hx3).
        exists (v, l3). split; [done|]. split; [done|]. apply Hx3. by left.
      * destruct (add_edge_endpoint g a b b) as (l3 & Hl3 & _ & Hb); [by right|].
        exists (b, l3). split; [done|]. split; [done|]. by apply Hb.
      * destruct (add_edge_endpoint g a b a) as (l3 & Hl3 & Ha & _); [by left|].
        exists (a, l3). split; [done|]. split; [done|]. by apply Ha.
Qed.

(** Nodes that are new and distinct are appended, each without a
    neighbour. *)
Lemma add_nodes_from_fresh g (ns : list nat) :
  NoDup ns → (∀ x, x ∈ ns → x ∉ nodes g) →
  add_nodes_from g ns = g ++ ((λ n, (n, [])) <$> ns).
Proof.
  revert g. induction ns as [|n ns IH]; intros g Hnd Hfresh.
  - simpl. by rewrite app_nil_r.
  - apply NoDup_cons in Hnd as [Hn Hnd]. unfold add_nodes_from. simpl.
    fold (add_nodes_from (add_node g n) ns).
    unfold add_node at 1. rewrite bool_decide_eq_false_2 by (apply Hfresh; left).
    rewrite IH; [by rewrite <- app_assoc | done |].
    intros x Hx. unfold nodes. rewrite fmap_app, elem_of_app. simpl.
    intros [Hin| ->%list_elem_of_singleton]; [|done].
    apply (Hfresh x); [by right | done].
Qed.

Lemma nodes_isolated (ns : list nat) : nodes ((λ n, (n, [])) <$> ns) = ns.
Proof.
  unfold nodes. rewrite <- list_fmap_compose.
  replace (fst ∘ (λ n : nat, (n, @nil nat))) with (@id nat) by done.
  by rewrite list_fmap_id.
Qed.

Lemma isolated_simple (ns : list nat) :
  NoDup ns → simple ((λ n, (n, [])) <$> ns).
Proof.
  intros Hnd. split.
  - by rewrite nodes_isolated.
  - apply Forall_fmap, Forall_forall. intros n _. simpl.
    split; [constructor|]. split; [by intros ?%elem_of_nil | constructor].
Qed.

Lemma nodes_add_edges_from_in g (es : list (nat * nat)) :
  (∀ a b, (a, b) ∈ es → a ∈ nodes g ∧ b ∈ nodes g) →
  nodes (add_edges_from g es) = nodes g.
Proof.
  revert g. induction es as [|[a b] es IH]; intros g Hes; [done|].
  unfold add_edges_from. simpl. fold (add_edges_from (add_edge g (a, b)) es).
  destruct (Hes a b) as [Ha Hb]; [left|].
  assert (nodes (add_edge g (a, b)) = nodes g) as Heq.
  { rewrite nodes_add_edge. unfold add_node.
    rewrite (bool_decide_eq_true_2 (a ∈ nodes g)) by done.
    by rewrite bool_decide_eq_true_2 by done. }
  rewrite IH; [done|]. intros a' b' Hin. rewrite Heq. apply Hes. by right.
Qed.

Lemma simple_add_edges_from g (es : list (nat * nat)) :
  simple g → (∀ a b, (a, b) ∈ es → a ≠ b) → simple (add_edges_from g es).
Proof.
  revert g. induction es as [|[a b] es IH]; intros g Hs Hes; [done|].
  unfold add_edges_from. simpl. apply IH.
  - apply simple_add_edge; [done|]. apply Hes. left.
  - intros a' b' Hin. apply Hes. by right.
Qed.

(** Where an entry of the graph after [add_edges_from] comes from: the
    neighbours are those it had and the other endpoints of the new edges
    at the node. *)
Lemma add_edges_from_entry g (es : list (nat * nat)) u l2 :
  (u, l2) ∈ add_edges_from g es →
  ∃ l, ((u, l) ∈ g ∨ (l = [] ∧ u ∉ nodes g)) ∧ (NoDup l → NoDup l2) ∧
       ∀ x, x ∈ l2 ↔
            x ∈ l ∨ ∃ a b, (a, b) ∈ es ∧ ((u = a ∧ x = b) ∨ (u = b ∧ x = a)).
Proof.
  revert g. induction es as [|[a b] es IH]; intros g Hin.
  - exists l2. split; [by left|]. split; [done|]. intros x. split; [by left|].
    intros [?|(a & b & ?%elem_of_nil & _)]; done.
  - unfold add_edges_from in Hin. simpl in Hin.
    destruct (IH _ Hin) as (l1 & Hl1 & Hnd1 & Hx1).
    destruct Hl1 as [Hl1|[-> Hnot]].
    + destruct (add_edge_entry _ _ _ _ _ Hl1) as (l & Hl & Hnd & _ & Hx).
      exists l. split; [destruct Hl as [?|(-> & _ & ?)]; [by left | by right]|].
      split; [auto|]. intros x. rewrite Hx1, Hx. split.
      * intros [[?|Hab]|(a' & b' & Hin' & H')]; [by left| |].
        -- right. exists a, b. split; [left | done].
        -- right. exists a', b'. split; [by right | done].
      * intros [?|(a' & b' & [[= -> ->]|Hin']%elem_of_cons & H')];
          [left; by left | left; by right | right; eauto].
    + exists []. split.
      { right. split; [done|]. intros Hu. apply Hnot.
        apply elem_of_nodes_add_edge. by left. }
      split; [auto|]. intros x. rewrite Hx1. split.
      * intros [?%elem_of_nil|(a' & b' & Hin' & H')]; [done|].
        right. exists a', b'. split; [by right | done].
      * intros [?%elem_of_nil|(a' & b' & [[= -> ->]|Hin']%elem_of_cons & H')];
          [done| |right; eauto].
        exfalso. apply Hnot, elem_of_nodes_add_edge.
        destruct H' as [[-> _]|[-> _]]; auto.
Qed.

End AddEdge.

(** ** The edge view *)

Section Edges.
Implicit Types (g : graph) (a b u v : nat) (l : list nat).

Lemma edges_from_entry seen g a b :
  (a, b) ∈ edges_from seen g → ∃ l, (a, l) ∈ g ∧ b ∈ l.
Proof.
  revert seen. induction g as [|[u l] g IH]; intros seen; simpl.
  - by intros ?%elem_of_nil.
  - intros [Hin|Hin]%elem_of_app.
    + apply list_elem_of_fmap in Hin as (v & [= -> ->] & Hv).
      apply list_elem_of_filter in Hv as [_ Hv]. exists l. split; [left | done].
    + destruct (IH _ Hin) as (l' & Hl' & Hb). exists l'. split; [by right | done].
Qed.

Lemma edges_from_intro seen (pre post : graph) a l b :
  b ∈ l → b ∉ seen → b ∉ nodes pre →
  (a, b) ∈ edges_from seen (pre ++ (a, l) :: post).
Proof.
  revert seen. induction pre as [|[u lu] pre IH]; intros seen Hb Hseen Hpre; simpl.
  - apply elem_of_app. left. apply (list_elem_of_fmap_2 (pair a)).
    by apply list_elem_of_filter.
  - apply elem_of_app. right. apply IH; [done| |].
    + intros [->|Hin]%elem_of_cons; [apply Hpre; left | done].
    + intros Hin. apply Hpre. by right.
Qed.

(** In a simple graph [G.edges] lists every adjacency, in one of its two
    directions. *)
Lemma edges_complete g u l v :
  simple g → (u, l) ∈ g → v ∈ l → (u, v) ∈ edges g ∨ (v, u) ∈ edges g.
Proof.
  intros Hs Hul Hv. pose proof (proj1 Hs) as Hnd.
  destruct (simple_elim _ _ _ Hs Hul) as (_ & Hself & Hsym).
  destruct (Hsym v Hv) as (lv & Hvl & Hu).
  assert (u ≠ v) as Hne by (by intros ->).
  apply list_elem_of_split in Hul as (pre & post & Hg).
  assert (v ∈ nodes pre ∨ v ∉ nodes pre) as [Hpre|Hpre]
    by (destruct (decide (v ∈ nodes pre)); eauto).
  - right. apply node_has_entry in Hpre as [lv' Hpre].
    assert (lv' = lv) as ->.
    { eapply entry_functional; [exact Hnd| |exact Hvl].
      rewrite Hg. apply elem_of_app. by left. }
    apply list_elem_of_split in Hpre as (pre1 & pre2 & Hpre).
    unfold edges. rewrite Hg, Hpre, <- app_assoc. simpl.
    apply edges_from_intro; [done | by intros ?%elem_of_nil |].
    intros Hin. rewrite Hg, Hpre in Hnd. unfold nodes in Hnd.
    rewrite !fmap_app, !fmap_cons, <- !app_assoc in Hnd. simpl in Hnd.
    apply NoDup_app in Hnd as (_ & Hdisj & _).
    apply (Hdisj u Hin). right. apply elem_of_app. right. left.
  - left. unfold edges. rewrite Hg.
    apply edges_from_intro; [done | by intros ?%elem_of_nil | done].
Qed.

(** An edge of a simple graph joins two distinct nodes, the second of
    which is listed at the first. *)
Lemma edge_endpoints g a b :
  simple g → (a, b) ∈ edges g →
  a ∈ nodes g ∧ b ∈ nodes g ∧ a ≠ b ∧ ∃ l, (a, l) ∈ g ∧ b ∈ l.
Proof.
  intros Hs (l & Hal & Hb)%edges_from_entry.
  destruct (simple_elim _ _ _ Hs Hal) as (_ & Hself & _).
  split; [by eapply entry_is_node|]. split; [by eapply neighbor_is_node|].
  split; [by intros ->|]. eauto.
Qed.

End Edges.

(** ** Relabelling *)

Section Relabel.
Implicit Types (g : graph) (u v : nat) (l : list nat).

Lemma length_nodes g : length (nodes g) = length g.
Proof. unfold nodes. apply length_fmap. Qed.

Lemma enumerate_nodes_lookup g i n :
  NoDup (nodes g) → nodes g !! i = Some n → enumerate_nodes g !! n = Some i.
Proof.
  intros Hnd Hi. unfold enumerate_nodes. rewrite <- (length_nodes g).
  exact (foldl_enumerate_lookup (λ x, x) (nodes g) 0 ∅ i n Hnd Hi).
Qed.

Lemma to_int_node g i n :
  NoDup (nodes g) → nodes g !! i = Some n → to_int g n = i.
Proof. intros ? ?. unfold to_int. by erewrite enumerate_nodes_lookup. Qed.

Lemma to_int_inj g u v :
  NoDup (nodes g) → u ∈ nodes g → v ∈ nodes g → to_int g u = to_int g v → u = v.
Proof.
  intros Hnd [i Hi]%list_elem_of_lookup_1 [j Hj]%list_elem_of_lookup_1.
  rewrite (to_int_node _ _ _ Hnd Hi), (to_int_node _ _ _ Hnd Hj).
  intros ->. congruence.
Qed.

End Relabel.

(** The copy that [relabel_nodes] builds of a simple graph, for a mapping
    that sends distinct nodes to distinct labels. *)

Section RelabelSimple.
Variables (g : graph) (m : gmap nat nat).
Hypothesis Hs : simple g.

Local Abbreviation f := (λ n : nat, default n (m !! n)).

Hypothesis Hinj : ∀ x y, x ∈ nodes g → y ∈ nodes g → f x = f y → x = y.

Lemma relabel_start :
  add_nodes_from [] (f <$> nodes g) = (λ n, (n, [])) <$> (f <$> nodes g).
Proof using Hs Hinj.
  rewrite add_nodes_from_fresh; [done| |by intros x _ ?%elem_of_nil].
  apply NoDup_fmap_2_strong; [|apply Hs]. intros x y Hx Hy. by apply Hinj.
Qed.

(** The nodes keep their order. *)
Lemma nodes_relabel_nodes : nodes (relabel_nodes g m) = f <$> nodes g.
Proof using Hs Hinj.
  unfold relabel_nodes. cbv zeta. rewrite nodes_add_edges_from_in.
  - by rewrite relabel_start, nodes_isolated.
  - intros a b ([a0 b0] & [= -> ->] & Hab)%list_elem_of_fmap. simpl.
    destruct (edge_endpoints g a0 b0 Hs Hab) as (Ha & Hb & _).
    rewrite relabel_start, nodes_isolated.
    split; apply list_elem_of_fmap; eauto.
Qed.

Lemma simple_relabel_nodes : simple (relabel_nodes g m).
Proof using Hs Hinj.
  unfold relabel_nodes. cbv zeta. apply simple_add_edges_from.
  - rewrite relabel_start. apply isolated_simple.
    apply NoDup_fmap_2_strong; [|apply Hs]. intros x y Hx Hy. by apply Hinj.
  - intros a b ([a0 b0] & [= -> ->] & Hab)%list_elem_of_fmap. simpl.
    destruct (edge_endpoints g a0 b0 Hs Hab) as (Ha & Hb & Hne & _).
    intros Heq. by apply Hne, Hinj.
Qed.

(** Every node keeps its neighbours, under their new labels; the order in
    which they are listed is that of the edges. *)
Lemma relabel_nodes_adjacency u l :
  (u, l) ∈ g → ∃ l', (f u, l') ∈ relabel_nodes g m ∧ l' ≡ₚ f <$> l.
Proof using Hs Hinj.
  intros Hul. pose proof (proj1 Hs) as Hnd.
  destruct (simple_elim _ _ _ Hs Hul) as (Hndl & _ & Hsym).
  assert (f u ∈ nodes (relabel_nodes g m)) as [l' Hl']%node_has_entry.
  { rewrite nodes_relabel_nodes. apply (list_elem_of_fmap_2 f).
    by eapply entry_is_node. }
  exists l'. split; [done|].
  unfold relabel_nodes in Hl'. cbv zeta in Hl'.
  destruct (add_edges_from_entry _ _ _ _ Hl') as (l0 & Hl0 & Hnd0 & Hx).
  assert (l0 = []) as ->.
  { destruct Hl0 as [Hl0|[-> _]]; [|done]. rewrite relabel_start in Hl0.
    by apply list_elem_of_fmap in Hl0 as (n & [= _ ->] & _). }
  apply NoDup_Permutation.
  - apply Hnd0. constructor.
  - apply NoDup_fmap_2_strong; [|done].
    intros x y Hx' Hy'. apply Hinj; by eapply neighbor_is_node.
  - intros x. rewrite Hx, list_elem_of_fmap. split.
    + intros [?%elem_of_nil|(a & b & Hab & Hcase)]; [done|].
      apply list_elem_of_fmap in Hab as ([a0 b0] & [= -> ->] & Hab). simpl in *.
      destruct (edge_endpoints g a0 b0 Hs Hab) as (Ha0 & Hb0 & _ & la & Hla & Hb0la).
      destruct Hcase as [[Hfu ->]|[Hfu ->]].
      * apply Hinj in Hfu; [|by eapply entry_is_node|done]. subst a0.
        exists b0. split; [done|]. by rewrite (entry_functional g u l la).
      * apply Hinj in Hfu; [|by eapply entry_is_node|done]. subst b0.
        exists a0. split; [done|].
        destruct (simple_elim _ _ _ Hs Hla) as (_ & _ & Hsyma).
        destruct (Hsyma u Hb0la) as (l2 & Hul2 & Ha).
        by rewrite (entry_functional g u l l2).
    + intros (v & -> & Hv). right.
      destruct (edges_complete g u l v Hs Hul Hv) as [He|He].
      * exists (f u), (f v). split; [|by left].
        apply list_elem_of_fmap. by exists (u, v).
      * exists (f v), (f u). split; [|by right].
        apply list_elem_of_fmap. by exists (v, u).
Qed.

Lemma relabel_nodes_entry u' l' :
  (u', l') ∈ relabel_nodes g m →
  ∃ u l, u' = f u ∧ (u, l) ∈ g ∧ l' ≡ₚ f <$> l.
Proof using Hs Hinj.
  intros Hin. pose proof (entry_is_node _ _ _ Hin) as Hu'.
  rewrite nodes_relabel_nodes in Hu'.
  apply list_elem_of_fmap in Hu' as (u & -> & [l Hul]%node_has_entry).
  destruct (relabel_nodes_adjacency u l Hul) as (l2 & Hl2 & Hperm).
  exists u, l. split; [done|]. split; [done|].
  by rewrite (entry_functional _ _ _ _ (proj1 simple_relabel_nodes) Hin Hl2).
Qed.

Lemma degree_relabel_nodes u l l' :
  (u, l) ∈ g → (f u, l') ∈ relabel_nodes g m → l' ≡ₚ f <$> l →
  degree_of (f u, l') = degree_of (u, l).
Proof using Hs Hinj.
  intros Hul Hl' Hperm.
  pose proof (degree_of_simple _ _ _ simple_relabel_nodes Hl') as H1.
  pose proof (degree_of_simple _ _ _ Hs Hul) as H2.
  apply Permutation_length in Hperm. rewrite length_fmap in Hperm.
  rewrite H2, <- Hperm. exact H1.
Qed.

(** Relabelling keeps every degree. *)
Lemma max_degree_relabel_nodes : max_degree (relabel_nodes g m) = max_degree g.
Proof using Hs Hinj.
  apply max_degree_same.
  - intros [u' l'] Hin.
    destruct (relabel_nodes_entry u' l' Hin) as (u & l & -> & Hul & Hperm).
    exists (u, l). split; [done|]. by apply degree_relabel_nodes.
  - intros [u l] Hul.
    destruct (relabel_nodes_adjacency u l Hul) as (l' & Hl' & Hperm).
    exists (f u, l'). split; [done|]. symmetry. by apply degree_relabel_nodes.
Qed.

Lemma length_relabel_nodes : length (relabel_nodes g m) = length g.
Proof using Hs Hinj.
  by rewrite <- !length_nodes, nodes_relabel_nodes, length_fmap.
Qed.

End RelabelSimple.

(** *** The relabelling by position of line 105 *)

Section RelabelByPosition.
Implicit Types (g : graph) (u v : nat) (l : list nat).

Lemma enumerate_inj g :
  simple g →
  ∀ x y, x ∈ nodes g → y ∈ nodes g →
    default x (enumerate_nodes g !! x) = default y (enumerate_nodes g !! y) → x = y.
Proof. intros Hs x y Hx Hy. by apply to_int_inj; [apply Hs|..]. Qed.

Lemma nodes_relabel g :
  simple g → nodes (relabel_nodes g (enumerate_nodes g)) = to_int g <$> nodes g.
Proof. intros Hs. by apply nodes_relabel_nodes, enumerate_inj. Qed.

(** The relabelled copy has the nodes [0 .. n-1], in this order. *)
Lemma nodes_relabel_seq g :
  simple g → nodes (relabel_nodes g (enumerate_nodes g)) = seq 0 (length g).
Proof.
  intros Hs. pose proof (proj1 Hs) as Hnd.
  rewrite nodes_relabel by done. apply list_eq. intros i.
  rewrite list_lookup_fmap. destruct (nodes g !! i) as [n|] eqn:Hi; simpl.
  - rewrite (to_int_node _ _ _ Hnd Hi). symmetry. apply lookup_seq. split; [done|].
    rewrite <- length_nodes. by eapply lookup_lt_Some.
  - symmetry. apply lookup_seq_ge. rewrite <- length_nodes.
    by apply lookup_ge_None.
Qed.

(** Relabelling by position keeps the graph simple. *)
Lemma simple_relabel g : simple g → simple (relabel_nodes g (enumerate_nodes g)).
Proof. intros Hs. by apply simple_relabel_nodes, enumerate_inj. Qed.

(** Relabelling the nodes by their position keeps every degree. *)
Lemma max_degree_relabel g :
  simple g → max_degree (relabel_nodes g (enumerate_nodes g)) = max_degree g.
Proof. intros Hs. by apply max_degree_relabel_nodes, enumerate_inj. Qed.

Lemma length_relabel g :
  simple g → length (relabel_nodes g (enumerate_nodes g)) = length g.
Proof. intros Hs. by apply length_relabel_nodes, enumerate_inj. Qed.


End RelabelByPosition.

(** ** The driver loop on a simple graph with fewer neighbours than colours *)

Section Driver.
Variables (g : graph) (k : Z).
Hypothesis Hsimple : simple g.
Hypothesis Hdeg : max_degree g < k.

Local Abbreviation F0 := (initial_F (nodes g) k).
Local Abbreviation scan_inv := (scan_inv g k).
Local Abbreviation inv_F := (inv_F g k).
Local Abbreviation inv_N := (inv_N g k).
Local Abbreviation inv_H := (inv_H g k).
Local Abbreviation inv_nz := (inv_nz g k).

Lemma palette_pos : 0 < k.
Proof using Hdeg. pose proof (max_degree_nonneg g). lia. Qed.

Lemma initial_color u : u ∈ nodes g → ∃ c, F0 !! u = Some c ∧ 0 ≤ c < k.
Proof using Hsimple Hdeg.
  intros [i Hi]%list_elem_of_lookup_1. exists (Z.of_nat i `mod` k). split.
  - apply initial_F_lookup; [apply Hsimple | done].
  - apply Z.mod_pos_bound, palette_pos.
Qed.

Lemma entry_unique u l l' : (u, l) ∈ g → (u, l') ∈ g → l = l'.
Proof using Hsimple.
  intros H1 H2. destruct Hsimple as [Hnd _].
  apply (adj_of_node _ _ _ Hnd) in H1. apply (adj_of_node _ _ _ Hnd) in H2.
  congruence.
Qed.

Lemma scan_inv_initial s C : scan_inv (tables_at_driver g k s C).
Proof using Type.
  split; simpl.
  - done.
  - intros n c Hn Hc. rewrite initial_N_lookup; eauto.
  - intros c1 c2 H1 H2. rewrite initial_H_lookup; eauto.
  - intros w c m Hm Hnz. apply initial_N_zero in Hm. done.
Qed.

Lemma scan_inv_set_H t key x :
  scan_inv t → scan_inv (set_H <[key := x]> t).
Proof using Type.
  intros [HF HN HH Hnz]. split; simpl; try done.
  intros c1 c2 H1 H2. apply lookup_insert_is_Some.
  destruct (decide (key = (c1, c2))); [by left | right; eauto].
Qed.

Lemma scan_inv_set_N t w l v c x :
  scan_inv t → (w, l) ∈ g → v ∈ l → F0 !! v = Some c →
  scan_inv (set_N <[(w, c) := x]> t).
Proof using Type.
  intros [HF HN HH Hnz] Hw Hv Hc. split; simpl; try done.
  - intros n c' Hn Hc'. apply lookup_insert_is_Some.
    destruct (decide ((w, c) = (n, c'))); [by left | right; eauto].
  - intros w' c' m Hm Hm0.
    destruct (decide ((w, c) = (w', c'))) as [[= <- <-]|Hne]; [eauto|].
    rewrite lookup_insert_ne in Hm by done. eauto.
Qed.

(** One visit of an edge keeps the invariant and does not raise. *)
Lemma scan_edge_inv t u l v :
  scan_inv t → (u, l) ∈ g → v ∈ l →
  ∃ t', scan_edge u v t = (Ok tt, t') ∧ scan_inv t'.
Proof using Hsimple Hdeg.
  intros Hinv Hul Hv.
  destruct (simple_elim _ _ _ Hsimple Hul) as (_ & _ & Hsym).
  destruct (Hsym v Hv) as (l' & Hvl' & Hu).
  destruct (initial_color v) as (fv & Hfv & Hfvr); [by eapply entry_is_node|].
  destruct (initial_color u) as (fu & Hfu & Hfur); [by eapply entry_is_node|].
  destruct (inv_N t Hinv u fv) as [x Hx]; [by eapply entry_is_node|done|].
  assert (scan_inv (set_N <[(u, fv) := x + 1]> t)) as Hinv1
    by (by eapply scan_inv_set_N).
  set (t1 := set_N <[(u, fv) := x + 1]> t) in *.
  destruct (inv_N t1 Hinv1 v fu) as [y Hy]; [by eapply entry_is_node|done|].
  assert (scan_inv (set_N <[(v, fu) := y + 1]> t1)) as Hinv2
    by (by eapply scan_inv_set_N).
  set (t2 := set_N <[(v, fu) := y + 1]> t1) in *.
  unfold scan_edge.
  rewrite (bind_Ok _ _ t fv t); [|apply F_get_run; by rewrite (inv_F t Hinv)].
  rewrite (bind_Ok _ _ t tt t1); [|by apply N_add_run].
  rewrite (bind_Ok _ _ t1 fu t1); [|apply F_get_run; by rewrite (inv_F t1 Hinv1)].
  rewrite (bind_Ok _ _ t1 tt t2); [|by apply N_add_run].
  case_bool_decide as Hne; [|eauto].
  destruct (inv_H t2 Hinv2 fv fu) as [h1 Hh1]; [done..|].
  assert (scan_inv (set_H <[(fv, fu) := h1 + -1]> t2)) as Hinv3
    by (by apply scan_inv_set_H).
  set (t3 := set_H <[(fv, fu) := h1 + -1]> t2) in *.
  destruct (inv_H t3 Hinv3 fu fv) as [h2 Hh2]; [done..|].
  rewrite (bind_Ok _ _ t2 tt t3); [|by apply H_add_run].
  rewrite (H_add_run _ _ _ _ Hh2). eexists. split; [done|].
  by apply scan_inv_set_H.
Qed.

Lemma scan_all_inv t u l l1 :
  scan_inv t → (u, l) ∈ g → (∀ v, v ∈ l1 → v ∈ l) →
  ∃ t', for_each l1 (scan_edge u) t = (Ok tt, t') ∧ scan_inv t'.
Proof using Hsimple Hdeg.
  intros Hinv Hul. revert t Hinv.
  induction l1 as [|v l1 IH]; intros t Hinv Hsub; simpl; [by eexists|].
  destruct (scan_edge_inv t u l v) as (t1 & Hrun & Hinv1);
    [done | done | apply Hsub; left |].
  rewrite (bind_Ok _ _ _ _ _ Hrun).
  apply IH; [done|]. intros w Hw. apply Hsub. by right.
Qed.

(** A node gets past the loop body only without a recolouring: the call
    of [change_color] raises. *)
Lemma process_node_inv t u t' :
  scan_inv t → u ∈ nodes g →
  process_node module_globals g (range k) u t = (Ok tt, t') → scan_inv t'.
Proof using Hsimple Hdeg.
  intros Hinv [l Hul]%node_has_entry Hrun.
  unfold process_node in Hrun.
  rewrite (bind_Ok _ _ t l t) in Hrun;
    [|unfold lift; by rewrite (neighbors_of_node g u l (proj1 Hsimple) Hul)].
  destruct (scan_all_inv t u l l Hinv Hul) as (t1 & Hscan & Hinv1); [done|].
  rewrite (bind_Ok _ _ _ _ _ Hscan) in Hrun.
  apply bind_Ok_inv in Hrun as (fu & s1 & ->%F_get_state & Hrun).
  apply bind_Ok_inv in Hrun as (n & s2 & ->%N_get_state & Hrun).
  case_bool_decide.
  - exfalso.
    apply bind_Ok_inv in Hrun as (cands & s3 & _ & Hrun).
    apply bind_Ok_inv in Hrun as (Y & s4 & _ & Hrun).
    apply bind_Ok_inv in Hrun as (X & s5 & _ & Hrun).
    apply bind_Ok_inv in Hrun as (? & s6 & Hcc & _).
    destruct (change_color_unbound_G u X Y s5) as (s' & Heq & _).
    rewrite Heq in Hcc. discriminate.
  - unfold ret in Hrun. by simplify_eq.
Qed.

Lemma driver_prefix_inv pre t t' :
  scan_inv t → (∀ u, u ∈ pre → u ∈ nodes g) →
  for_each pre (process_node module_globals g (range k)) t = (Ok tt, t') →
  scan_inv t'.
Proof using Hsimple Hdeg.
  revert t. induction pre as [|u pre IH]; intros t Hinv Hsub Hrun; simpl in Hrun.
  - unfold ret in Hrun. by simplify_eq.
  - apply bind_Ok_inv in Hrun as ([] & t1 & Hu & Hrun).
    apply (IH t1); [|intros w Hw; apply Hsub; by right|done].
    eapply process_node_inv; [done | apply Hsub; left | done].
Qed.

Lemma free_colors_run u cs t :
  (∀ c, c ∈ cs → is_Some (tN t !! (u, c))) →
  free_colors u cs t = (Ok (filter (λ c, tN t !! (u, c) = Some 0) cs), t).
Proof using Type.
  unfold free_colors. induction cs as [|c cs IH]; intros Hkeys; simpl; [done|].
  destruct (Hkeys c) as [n Hn]; [left|].
  rewrite (bind_Ok _ _ t (bool_decide (n = 0)) t);
    [|by rewrite (bind_Ok _ _ t n t) by (by apply N_get_run)].
  rewrite (bind_Ok _ _ _ _ _ (IH (λ c' Hc', Hkeys c' (list_elem_of_further _ _ _ Hc')))).
  unfold ret. rewrite filter_cons. rewrite Hn.
  case_bool_decide as Hz.
  - subst n. by rewrite decide_True.
  - rewrite decide_False; [done|]. congruence.
Qed.

(** Pigeonhole: the colours a node counts neighbours in are fewer than
    the palette. *)
Lemma free_color_exists t u l :
  scan_inv t → (u, l) ∈ g →
  filter (λ c, tN t !! (u, c) = Some 0) (range k) ≠ [].
Proof using Hsimple Hdeg.
  intros Hinv Hul Hnil.
  assert (range k ⊆+ (λ v, default 0 (F0 !! v)) <$> l) as Hsub.
  { apply NoDup_submseteq; [apply NoDup_range|].
    intros c Hc. pose proof Hc as Hr%elem_of_range.
    destruct (inv_N t Hinv u c) as [m Hm]; [by eapply entry_is_node|done|].
    assert (m ≠ 0) as Hm0.
    { intros ->. by eapply (filter_nil_not_elem_of _ _ c Hnil). }
    destruct (inv_nz t Hinv u c m Hm Hm0) as (l' & v & Hul' & Hv & Hc').
    rewrite (entry_unique u l l' Hul Hul').
    apply list_elem_of_fmap. exists v. by rewrite Hc'. }
  apply submseteq_length in Hsub. rewrite length_fmap in Hsub.
  pose proof (length_range k) as Hlen.
  pose proof (max_degree_length g u l Hul).
  pose proof palette_pos. lia.
Qed.

End Driver.

(** ** What the driver loop does, node by node *)

Section DriverOutcome.
Variables (g : graph) (k : Z).
Hypothesis Hsimple : simple g.
Hypothesis Hdeg : max_degree g < k.

Local Abbreviation F0 := (initial_F (nodes g) k).
Local Abbreviation nonneg :=
  (λ t : tables, ∀ key m, tN t !! key = Some m → 0 ≤ m).

Lemma nonneg_initial s C : nonneg (tables_at_driver g k s C).
Proof using Type. intros key m Hm. apply initial_N_zero in Hm. simpl in Hm. lia. Qed.

(** One visit of an edge, in full: it does not raise, keeps the invariant
    and the signs, and leaves a positive counter for the colour of [v]. *)
Lemma scan_edge_counts t u l v :
  scan_inv g k t → nonneg t → (u, l) ∈ g → v ∈ l →
  ∃ t', scan_edge u v t = (Ok tt, t') ∧ scan_inv g k t' ∧ nonneg t' ∧
        (∀ key m, tN t !! key = Some m → ∃ m', tN t' !! key = Some m' ∧ m ≤ m') ∧
        ∃ fv m, F0 !! v = Some fv ∧ tN t' !! (u, fv) = Some m ∧ 1 ≤ m.
Proof using Hsimple Hdeg.
  intros Hinv Hnn Hul Hv.
  destruct (simple_elim _ _ _ Hsimple Hul) as (_ & Hself & Hsym).
  destruct (Hsym v Hv) as (l' & Hvl' & Hu).
  assert (u ≠ v) as Huv by (by intros ->).
  destruct (initial_color g k Hsimple Hdeg v) as (fv & Hfv & Hfvr);
    [by eapply entry_is_node|].
  destruct (initial_color g k Hsimple Hdeg u) as (fu & Hfu & Hfur);
    [by eapply entry_is_node|].
  destruct (inv_N g k t Hinv u fv) as [x Hx]; [by eapply entry_is_node|done|].
  destruct (inv_N g k t Hinv v fu) as [y Hy]; [by eapply entry_is_node|done|].
  pose proof (Hnn _ _ Hx) as Hx0. pose proof (Hnn _ _ Hy) as Hy0.
  set (t1 := set_N <[(u, fv) := x + 1]> t).
  set (t2 := set_N <[(v, fu) := y + 1]> t1).
  assert (scan_inv g k t1) as Hinv1 by (by eapply scan_inv_set_N).
  assert (scan_inv g k t2) as Hinv2 by (by eapply scan_inv_set_N).
  assert (tN t1 !! (v, fu) = Some y) as Hy1
    by (simpl; rewrite lookup_insert_ne by congruence; done).
  assert (nonneg t2 ∧
          (∀ key m, tN t !! key = Some m → ∃ m', tN t2 !! key = Some m' ∧ m ≤ m') ∧
          ∃ m, tN t2 !! (u, fv) = Some m ∧ 1 ≤ m) as (Hnn2 & Hmono & Hpos).
  { simpl. split; [|split].
    - intros key m. rewrite !lookup_insert.
      repeat case_decide; intros; simplify_eq; eauto with lia.
    - intros key m Hm. rewrite !lookup_insert.
      repeat case_decide; simplify_eq; eauto with lia.
    - rewrite !lookup_insert. repeat case_decide; simplify_eq; eauto with lia. }
  assert (∃ t', scan_edge u v t = (Ok tt, t') ∧ scan_inv g k t' ∧ tN t' = tN t2)
    as (t' & Hrun & Hinv' & HN).
  { unfold scan_edge.
    rewrite (bind_Ok _ _ t fv t); [|apply F_get_run; by rewrite (inv_F g k t Hinv)].
    rewrite (bind_Ok _ _ t tt t1); [|by apply N_add_run].
    rewrite (bind_Ok _ _ t1 fu t1);
      [|apply F_get_run; by rewrite (inv_F g k t1 Hinv1)].
    rewrite (bind_Ok _ _ t1 tt t2); [|by apply N_add_run].
    case_bool_decide as Hne; [|by exists t2].
    destruct (inv_H g k t2 Hinv2 fv fu) as [h1 Hh1]; [done..|].
    set (t3 := set_H <[(fv, fu) := h1 + -1]> t2).
    assert (scan_inv g k t3) as Hinv3 by (by apply scan_inv_set_H).
    destruct (inv_H g k t3 Hinv3 fu fv) as [h2 Hh2]; [done..|].
    rewrite (bind_Ok _ _ t2 tt t3); [|by apply H_add_run].
    rewrite (H_add_run _ _ _ _ Hh2). eexists. split; [done|].
    split; [by apply scan_inv_set_H | done]. }
  exists t'. split; [done|]. split; [done|]. rewrite HN.
  split; [done|]. split; [done|]. destruct Hpos as (m & Hm & Hm1). eauto.
Qed.

Lemma scan_all_counts t u l l1 :
  scan_inv g k t → nonneg t → (u, l) ∈ g → (∀ v, v ∈ l1 → v ∈ l) →
  ∃ t', for_each l1 (scan_edge u) t = (Ok tt, t') ∧ scan_inv g k t' ∧ nonneg t' ∧
        (∀ key m, tN t !! key = Some m → ∃ m', tN t' !! key = Some m' ∧ m ≤ m') ∧
        ∀ v, v ∈ l1 → ∃ fv m, F0 !! v = Some fv ∧ tN t' !! (u, fv) = Some m ∧ 1 ≤ m.
Proof using Hsimple Hdeg.
  intros Hinv Hnn Hul. revert t Hinv Hnn.
  induction l1 as [|v l1 IH]; intros t Hinv Hnn Hsub.
  - exists t. split; [done|]. split; [done|]. split; [done|].
    split; [eauto with lia|]. by intros v ?%elem_of_nil.
  - destruct (scan_edge_counts t u l v Hinv Hnn Hul) as
      (t1 & Hrun & Hinv1 & Hnn1 & Hmono1 & fv & m & Hfv & Hm & Hm1);
      [apply Hsub; left|].
    destruct (IH t1 Hinv1 Hnn1) as (t' & Hrun' & Hinv' & Hnn' & Hmono' & Hpos');
      [intros w Hw; apply Hsub; by right|].
    exists t'. cbn [for_each]. rewrite (bind_Ok _ _ _ _ _ Hrun).
    split; [done|]. split; [done|]. split; [done|]. split.
    + intros key m0 Hm0. destruct (Hmono1 _ _ Hm0) as (m1 & Hm1' & ?).
      destruct (Hmono' _ _ Hm1') as (m2 & ? & ?). exists m2. split; [done | lia].
    + intros w [->|Hw]%elem_of_cons; [|by apply Hpos'].
      destruct (Hmono' _ _ Hm) as (m2 & ? & ?). exists fv, m2.
      split; [done|]. split; [done | lia].
Qed.

(** What the body of the loop does at a node that the loop reaches, for
    any binding of the global names: the scan of the edges of [u] goes
    through; a counter [N[(u, c)]] is then zero exactly when no neighbour
    of [u] has the colour [c]; and when the counter of the colour of [u]
    is not zero, the list of line 167 is not empty, its head [Y] is the
    least colour with a zero counter, and the rest of the body is the call
    of [change_color] with the colour of [u] and [Y], followed by
    Procedure P. *)
Lemma process_node_run (gl : gmap string graph) t u :
  scan_inv g k t → nonneg t → u ∈ nodes g →
  ∃ l t1 fu n,
    neighbors g u = Ok l ∧ for_each l (scan_edge u) t = (Ok tt, t1) ∧
    scan_inv g k t1 ∧ nonneg t1 ∧
    F0 !! u = Some fu ∧ 0 ≤ fu < k ∧ tN t1 !! (u, fu) = Some n ∧
    (∀ c, 0 ≤ c < k → (tN t1 !! (u, c) = Some 0 ↔ ¬ neighbor_color g F0 u c)) ∧
    (n = 0 → process_node gl g (range k) u t = (Ok tt, t1)) ∧
    (n ≠ 0 →
       ∃ Y rest,
         free_colors u (range k) t1 = (Ok (Y :: rest), t1) ∧
         0 ≤ Y < k ∧ tN t1 !! (u, Y) = Some 0 ∧
         (∀ c, 0 ≤ c < Y → ∃ m, tN t1 !! (u, c) = Some m ∧ m ≠ 0) ∧
         process_node gl g (range k) u t =
           (change_color gl u fu Y ;; procedure_P (range k) fu Y ;; ret tt) t1).
Proof using Hsimple Hdeg.
  intros Hinv Hnn Hu. destruct (node_has_entry _ _ Hu) as [l Hul].
  destruct (scan_all_counts t u l l Hinv Hnn Hul) as
    (t1 & Hscan & Hinv1 & Hnn1 & _ & Hpos); [done|].
  destruct (initial_color g k Hsimple Hdeg u Hu) as (fu & Hfu & Hfur).
  destruct (inv_N g k t1 Hinv1 u fu Hu Hfur) as [n Hn].
  pose proof (neighbors_of_node g u l (proj1 Hsimple) Hul) as Hnb.
  exists l, t1, fu, n.
  split; [done|]. split; [done|]. split; [done|]. split; [done|].
  split; [done|]. split; [done|]. split; [done|].
  assert (∀ gl',
    process_node gl' g (range k) u t =
      (if bool_decide (n ≠ 0) then
         cands <- free_colors u (range k) ;;
         Y <- first cands ;;
         X <- F_get u ;;
         change_color gl' u X Y ;;
         procedure_P (range k) X Y ;;
         ret tt
       else ret tt) t1) as Hbody.
  { intros gl'. unfold process_node.
    rewrite (bind_Ok _ _ t l t) by (unfold lift; by rewrite Hnb).
    rewrite (bind_Ok _ _ _ _ _ Hscan).
    rewrite (bind_Ok _ _ t1 fu t1)
      by (apply F_get_run; by rewrite (inv_F g k t1 Hinv1)).
    by rewrite (bind_Ok _ _ t1 n t1) by (by apply N_get_run). }
  split; [|split].
  - intros c Hc. destruct (inv_N g k t1 Hinv1 u c Hu Hc) as [m Hm]. split.
    + intros Hzero (l' & v & Hul' & Hv & Hfv).
      rewrite (entry_unique g Hsimple u l' l Hul' Hul) in Hv.
      destruct (Hpos v Hv) as (fv & m' & Hfv' & Hm' & Hm1).
      assert (fv = c) as -> by congruence. rewrite Hzero in Hm'.
      simplify_eq. lia.
    + intros Hno. destruct (decide (m = 0)) as [->|Hm0]; [done|].
      destruct (inv_nz g k t1 Hinv1 u c m Hm Hm0) as (l' & v & Hul' & Hv & Hc').
      destruct Hno. by exists l', v.
  - intros ->. rewrite Hbody. by rewrite bool_decide_eq_false_2 by tauto.
  - intros Hn0.
    assert (∀ c, c ∈ range k → is_Some (tN t1 !! (u, c))) as Hkeys.
    { intros c Hc%elem_of_range. by apply (inv_N g k t1 Hinv1). }
    pose proof (free_colors_run u (range k) t1 Hkeys) as Hfree.
    pose proof (free_color_exists g k Hsimple Hdeg t1 u l Hinv1 Hul) as Hne.
    destruct (filter _ (range k)) as [|Y rest] eqn:Hf; [done|].
    exists Y, rest. split; [done|].
    unfold range in Hf. apply filter_seq_head in Hf as (HY & Hr & Hleast).
    pose proof (palette_pos g k Hdeg).
    split; [lia|]. split; [done|]. split.
    { intros c Hc. destruct (inv_N g k t1 Hinv1 u c Hu) as [m Hm]; [lia|].
      exists m. split; [done|]. intros ->. apply (Hleast c); [lia | done]. }
    rewrite Hbody. rewrite bool_decide_eq_true_2 by done.
    rewrite (bind_Ok _ _ _ _ _ Hfree). cbn [first].
    rewrite (bind_Ok _ _ t1 Y t1) by done.
    by rewrite (bind_Ok _ _ t1 fu t1)
      by (apply F_get_run; by rewrite (inv_F g k t1 Hinv1)).
Qed.

(** With the names the module binds: a node without a neighbour of its own
    colour goes through; at a node with one, [change_color] is called with
    the least colour that no neighbour has, sets [F[u]] to it and raises
    [NameError]. *)
Lemma process_node_outcome t u :
  scan_inv g k t → nonneg t → u ∈ nodes g →
  (¬ clashes g F0 u ∧
   ∃ t1, process_node module_globals g (range k) u t = (Ok tt, t1) ∧
         scan_inv g k t1 ∧ nonneg t1) ∨
  (clashes g F0 u ∧
   ∃ Y t', least_free g F0 k u Y ∧
     process_node module_globals g (range k) u t = (Raise (NameError "G"), t') ∧
     tF t' = <[u := Y]> F0).
Proof using Hsimple Hdeg.
  intros Hinv Hnn Hu.
  destruct (process_node_run module_globals t u Hinv Hnn Hu) as
    (l & t1 & fu & n & Hnb & Hscan & Hinv1 & Hnn1 & Hfu & Hfur & Hn & Hzero &
     Hgo & Hstop).
  assert (clashes g F0 u ↔ neighbor_color g F0 u fu) as Hclash.
  { unfold clashes, neighbor_color. by rewrite Hfu. }
  destruct (decide (n = 0)) as [->|Hn0].
  - left. split; [rewrite Hclash; by apply Hzero|]. exists t1. auto.
  - right. split.
    { apply Hclash.
      destruct (inv_nz g k t1 Hinv1 u fu n Hn Hn0) as (l' & v & ? & ? & ?).
      by exists l', v. }
    destruct (Hstop Hn0) as (Y & rest & _ & HY & HNY & Hleast & Hrun).
    destruct (change_color_unbound_G u fu Y t1) as (t' & Hcc & HF' & _).
    destruct (inv_H g k t1 Hinv1 fu Y) as [h1 Hh1]; [done..|].
    destruct (inv_H g k t1 Hinv1 Y fu) as [h2 Hh2]; [done..|].
    rewrite Hh1, Hh2 in Hcc.
    exists Y, t'. split; [|split].
    + split; [done|]. split; [by apply Hzero|].
      intros c Hc. destruct (Hleast c Hc) as (m & Hm & Hm0).
      destruct (inv_nz g k t1 Hinv1 u c m Hm Hm0) as (l' & v & ? & ? & ?).
      by exists l', v.
    + rewrite Hrun. by rewrite (bind_Raise _ _ _ _ _ Hcc).
    + by rewrite HF', (inv_F g k t1 Hinv1).
Qed.

(** The loop over a list of nodes: it goes through when none of them has a
    neighbour of its own colour, and stops at the first that has one. *)
Lemma driver_outcome_from t (us : list nat) :
  scan_inv g k t → nonneg t → (∀ u, u ∈ us → u ∈ nodes g) →
  ((∀ u, u ∈ us → ¬ clashes g F0 u) ∧
   ∃ t', for_each us (process_node module_globals g (range k)) t = (Ok tt, t') ∧
         tF t' = F0) ∨
  (∃ pre u post Y t',
     us = pre ++ u :: post ∧ (∀ w, w ∈ pre → ¬ clashes g F0 w) ∧
     clashes g F0 u ∧ least_free g F0 k u Y ∧
     for_each us (process_node module_globals g (range k)) t
       = (Raise (NameError "G"), t') ∧
     tF t' = <[u := Y]> F0).
Proof using Hsimple Hdeg.
  revert t. induction us as [|u us IH]; intros t Hinv Hnn Hsub.
  - left. split; [by intros u ?%elem_of_nil|]. exists t.
    split; [done | apply (inv_F g k t Hinv)].
  - cbn [for_each].
    destruct (process_node_outcome t u Hinv Hnn) as
      [(Hok & t1 & Hrun & Hinv1 & Hnn1)|(Hclash & Y & t' & HY & Hrun & HF)];
      [apply Hsub; left | |].
    + rewrite (bind_Ok _ _ _ _ _ Hrun).
      destruct (IH t1 Hinv1 Hnn1) as
        [[Hnone Hr]|(pre & w & post & Y & t' & -> & Hpre & Hw & HY & Hr & HF)];
        [intros w Hw; apply Hsub; by right| |].
      * left. split; [|done].
        intros w [->|Hw]%elem_of_cons; [done | by apply Hnone].
      * right. exists (u :: pre), w, post, Y, t'. split; [done|].
        split; [|done]. intros x [->|Hx]%elem_of_cons; [done | by apply Hpre].
    + right. exists [], u, us, Y, t'. split; [done|].
      split; [by intros ? ?%elem_of_nil|]. split; [done|]. split; [done|].
      split; [|done]. by rewrite (bind_Raise _ _ _ _ _ Hrun).
Qed.

(** The state in which the loop reaches a node. *)
Lemma driver_prefix_state pre t t' :
  scan_inv g k t → nonneg t → (∀ u, u ∈ pre → u ∈ nodes g) →
  for_each pre (process_node module_globals g (range k)) t = (Ok tt, t') →
  scan_inv g k t' ∧ nonneg t'.
Proof using Hsimple Hdeg.
  revert t. induction pre as [|u pre IH]; intros t Hinv Hnn Hsub Hrun.
  - cbn in Hrun. unfold ret in Hrun. by simplify_eq.
  - cbn [for_each] in Hrun.
    apply bind_Ok_inv in Hrun as ([] & t1 & Hu & Hrun).
    destruct (process_node_outcome t u Hinv Hnn) as
      [(_ & t1' & Hrun1 & Hinv1 & Hnn1)|(_ & Y & t1' & _ & Hrun1 & _)];
      [apply Hsub; left | |rewrite Hrun1 in Hu; discriminate].
    rewrite Hrun1 in Hu. injection Hu as <-.
    apply (IH t1'); [done | done | intros w Hw; apply Hsub; by right | done].
Qed.

(** The selection at a node that the loop reaches.  After the prefix
    [pre] of the node order went through, the scan of the edges of [u]
    does not raise.  When [u] then counts no neighbour of its own colour,
    the body is over.  When it counts one, the comprehension of line 167
    is not empty, its head [Y], which is what [[...][0]] yields, is the
    least colour in which [u] counts no neighbour, and the body goes on
    with [change_color(u, F[u], Y, ...)] and Procedure P, whatever the
    global names are bound to; with the names of the module this call
    sets [F[u]] to [Y] and raises [NameError]. *)
Lemma selection_at_node (gl : gmap string graph) s C pre u post t :
  nodes g = pre ++ u :: post →
  for_each pre (process_node module_globals g (range k))
           (tables_at_driver g k s C) = (Ok tt, t) →
  ∃ l t' fu n,
    neighbors g u = Ok l ∧ for_each l (scan_edge u) t = (Ok tt, t') ∧
    tF t' !! u = Some fu ∧ tN t' !! (u, fu) = Some n ∧
    (n = 0 → process_node gl g (range k) u t = (Ok tt, t')) ∧
    (n ≠ 0 →
       ∃ Y rest, free_colors u (range k) t' = (Ok (Y :: rest), t') ∧
         (cands <- free_colors u (range k) ;; first cands) t' = (Ok Y, t') ∧
         0 ≤ Y < k ∧ tN t' !! (u, Y) = Some 0 ∧
         (∀ c, 0 ≤ c < Y → ∃ m, tN t' !! (u, c) = Some m ∧ m ≠ 0) ∧
         process_node gl g (range k) u t =
           (change_color gl u fu Y ;; procedure_P (range k) fu Y ;; ret tt) t' ∧
         ∃ t'', process_node module_globals g (range k) u t
                  = (Raise (NameError "G"), t'') ∧
                tF t'' !! u = Some Y).
Proof using Hsimple Hdeg.
  intros Hnodes Hrun.
  assert (u ∈ nodes g) as Hu
    by (rewrite Hnodes; apply elem_of_app; right; left).
  destruct (driver_prefix_state pre (tables_at_driver g k s C) t) as [Hinv Hnn];
    [apply scan_inv_initial | apply nonneg_initial | |done|].
  { intros w Hw. rewrite Hnodes. apply elem_of_app. by left. }
  destruct (process_node_run gl t u Hinv Hnn Hu) as
    (l & t1 & fu & n & Hnb & Hscan & Hinv1 & Hnn1 & Hfu & Hfur & Hn & _ &
     Hgo & Hstop).
  destruct (process_node_run module_globals t u Hinv Hnn Hu) as
    (l' & t1' & fu' & n' & Hnb' & Hscan' & _ & _ & Hfu' & _ & Hn' & _ & _ & Hstop').
  assert (l' = l) as -> by congruence.
  assert (t1' = t1) as -> by congruence.
  assert (fu' = fu) as -> by congruence.
  assert (n' = n) as -> by congruence.
  exists l, t1, fu, n. split; [done|]. split; [done|].
  split; [by rewrite (inv_F g k t1 Hinv1)|]. split; [done|]. split; [done|].
  intros Hn0. destruct (Hstop Hn0) as (Y & rest & Hfree & HY & HNY & Hleast & Hbody).
  destruct (Hstop' Hn0) as (Y' & rest' & Hfree' & _ & _ & _ & Hbody').
  assert (Y' = Y) as -> by congruence.
  exists Y, rest. split; [done|].
  split; [by rewrite (bind_Ok _ _ _ _ _ Hfree)|].
  split; [done|]. split; [done|]. split; [done|]. split; [done|].
  destruct (change_color_unbound_G u fu Y t1) as (t'' & Hcc & HF'' & _).
  destruct (inv_H g k t1 Hinv1 fu Y) as [h1 Hh1]; [done..|].
  destruct (inv_H g k t1 Hinv1 Y fu) as [h2 Hh2]; [done..|].
  rewrite Hh1, Hh2 in Hcc. exists t''. split.
  - rewrite Hbody'. by rewrite (bind_Raise _ _ _ _ _ Hcc).
  - by rewrite HF'', lookup_insert_eq.
Qed.

End DriverOutcome.

(** ** Padding *)

Section Padding.
Implicit Types (g : graph) (a b u v n p i : nat) (l : list nat).

Lemma shift_by_lookup n p i : (i < p)%nat → shift_by n p !! i = Some (i + n)%nat.
Proof.
  intros Hi. unfold shift_by. rewrite (foldl_insert_key (λ i, (i + n)%nat)).
  rewrite decide_True; [done|]. apply elem_of_seq. lia.
Qed.

Lemma nodes_complete_graph p : nodes (complete_graph p) = seq 0 p.
Proof.
  unfold nodes, complete_graph. rewrite <- list_fmap_compose.
  replace (fst ∘ (λ i : nat, (i, filter (λ j, j ≠ i) (seq 0 p))))
    with (@id nat) by done.
  by rewrite list_fmap_id.
Qed.

Lemma complete_graph_entry p i l :
  (i, l) ∈ complete_graph p ↔ (i < p)%nat ∧ l = filter (λ j, j ≠ i) (seq 0 p).
Proof.
  unfold complete_graph. rewrite list_elem_of_fmap. split.
  - intros (i' & [= -> ->] & Hi%elem_of_seq). split; [lia | done].
  - intros [Hi ->]. exists i. split; [done|]. apply elem_of_seq. lia.
Qed.

Lemma simple_complete_graph p : simple (complete_graph p).
Proof.
  split; [rewrite nodes_complete_graph; apply NoDup_seq|].
  apply Forall_forall. intros [i l] [Hi ->]%complete_graph_entry. simpl.
  split; [apply NoDup_filter, NoDup_seq|].
  split; [by intros [? _]%list_elem_of_filter|].
  apply Forall_forall. intros v [Hne Hv%elem_of_seq]%list_elem_of_filter.
  apply Exists_exists. exists (v, filter (λ j, j ≠ v) (seq 0 p)).
  split; [apply complete_graph_entry; split; [lia | done]|].
  split; [done|]. simpl. apply list_elem_of_filter.
  split; [congruence | apply elem_of_seq; lia].
Qed.

Lemma shift_inj n p :
  ∀ x y, x ∈ nodes (complete_graph p) → y ∈ nodes (complete_graph p) →
    default x (shift_by n p !! x) = default y (shift_by n p !! y) → x = y.
Proof.
  intros x y. rewrite nodes_complete_graph.
  intros Hx%elem_of_seq Hy%elem_of_seq.
  rewrite !shift_by_lookup by lia. simpl. lia.
Qed.

(** The phantom clique of line 128: the complete graph on [p] nodes, its
    nodes moved to [n .. n+p-1]. *)
Local Abbreviation clique :=
  (λ n p, relabel_nodes (complete_graph p) (shift_by n p)).

Lemma phantom_simple n p : simple (clique n p).
Proof. apply simple_relabel_nodes; [apply simple_complete_graph | apply shift_inj]. Qed.

Lemma phantom_nodes n p : nodes (clique n p) = (λ i, (i + n)%nat) <$> seq 0 p.
Proof.
  cbv beta.
  rewrite nodes_relabel_nodes by (apply simple_complete_graph || apply shift_inj).
  rewrite nodes_complete_graph. apply list_fmap_ext.
  intros j x [-> Hx]%lookup_seq. by rewrite shift_by_lookup by lia.
Qed.

(** The edges of the phantom clique join distinct nodes of [n .. n+p-1]. *)
Lemma phantom_edge_bounds n p a b :
  (a, b) ∈ edges (relabel_nodes (complete_graph p) (shift_by n p)) →
  (n ≤ a < n + p)%nat ∧ (n ≤ b < n + p)%nat ∧ a ≠ b.
Proof.
  intros Hab.
  destruct (edge_endpoints _ a b (phantom_simple n p) Hab) as (Ha & Hb & Hne & _).
  rewrite (phantom_nodes n p) in Ha, Hb.
  apply list_elem_of_fmap in Ha as (i & -> & Hi%elem_of_seq).
  apply list_elem_of_fmap in Hb as (j & -> & Hj%elem_of_seq).
  lia.
Qed.


(** What [add_edges_from] keeps true when the new edges stay among the
    phantoms: the graph is simple, the entries of the real nodes are those
    of [g1], and a phantom has only phantoms for neighbours. *)
Lemma add_phantom_edges g1 n p (es : list (nat * nat)) g :
  (∀ u, u ∈ nodes g1 → (u < n)%nat) →
  (∀ a b, (a, b) ∈ es → (n ≤ a < n + p)%nat ∧ (n ≤ b < n + p)%nat ∧ a ≠ b) →
  simple g →
  (∀ u l, (u, l) ∈ g →
     (u, l) ∈ g1 ∨ ((n ≤ u < n + p)%nat ∧ ∀ v, v ∈ l → (n ≤ v < n + p)%nat)) →
  simple (add_edges_from g es) ∧
  ∀ u l, (u, l) ∈ add_edges_from g es →
    (u, l) ∈ g1 ∨ ((n ≤ u < n + p)%nat ∧ ∀ v, v ∈ l → (n ≤ v < n + p)%nat).
Proof.
  intros Hreal. revert g.
  induction es as [|[a b] es IH]; intros g Hes Hs HJ; [done|].
  destruct (Hes a b) as (Ha & Hb & Hab); [left|].
  unfold add_edges_from. simpl. apply IH.
  - intros a' b' Hin. apply Hes. by right.
  - by apply simple_add_edge.
  - intros u l2 Hul2.
    destruct (add_edge_entry _ _ _ _ _ Hul2) as (l & Hl & _ & Hsame & Hx).
    destruct (decide (u = a ∨ u = b)) as [Hu|Hu].
    + right. split; [destruct Hu; subst; lia|].
      assert (∀ v, v ∈ l → (n ≤ v < n + p)%nat) as Hl'.
      { destruct Hl as [Hl|(-> & _)]; [|by intros v ?%elem_of_nil].
        destruct (HJ _ _ Hl) as [Hold|[_ Hnew]]; [|done].
        apply entry_is_node, Hreal in Hold. destruct Hu; subst; lia. }
      intros v [Hv|[[_ ->]|[_ ->]]]%Hx; [by apply Hl' | lia | lia].
    + rewrite Hsame by naive_solver.
      destruct Hl as [Hl|(_ & Hu' & _)]; [by apply HJ | naive_solver].
Qed.

Lemma max_degree_lt g (k : Z) :
  0 < k → (∀ e, e ∈ g → degree_of e < k) → max_degree g < k.
Proof.
  intros Hk Hall. unfold max_degree.
  destruct (degree_of <$> g) as [|d ds] eqn:Hd; [done|].
  pose proof (foldl_max_elem d ds) as Hin. rewrite <- Hd in Hin.
  apply list_elem_of_fmap in Hin as (e & -> & He). by apply Hall.
Qed.

(** What [pad] does for a palette that is not empty: nothing when the
    node count is a multiple of the palette size; otherwise it asks for the
    complete graph on the missing [p] nodes, which networkx refuses when [p]
    is beyond [maxsize], and adds its edges. *)
Lemma pad_run G (k : Z) σ g :
  σ !! G = Some g → 0 < k →
  let n_ := Z.of_nat (length g) in
  let p := k - n_ `mod` k in
  pad G k σ =
    if bool_decide (n_ `mod` k = 0) then (Ok (n_ `div` k), σ)
    else if bool_decide (maxsize < p) then (Raise OverflowError, σ)
    else (Ok (n_ `div` k + 1),
          <[G := add_edges_from g
                   (edges (relabel_nodes (complete_graph (Z.to_nat p))
                                         (shift_by (length g) (Z.to_nat p))))]> σ).
Proof.
  intros HG Hk n_ p.
  pose proof (Z.div_mod n_ k ltac:(lia)) as Hdm.
  pose proof (Z.mod_pos_bound n_ k Hk) as Hmod.
  unfold pad, bind, deref, lift, floordiv, nx_complete_graph, update, modify, ret.
  simpl. rewrite HG. simpl. fold n_.
  replace (k - 1 + 1) with k by lia. fold p.
  rewrite (bool_decide_eq_false_2 (k = 0)) by lia.
  destruct (decide (n_ `mod` k = 0)) as [H0|H0].
  - rewrite (bool_decide_eq_true_2 (n_ `mod` k = 0)) by done.
    rewrite bool_decide_eq_false_2; [done|]. lia.
  - rewrite (bool_decide_eq_false_2 (n_ `mod` k = 0)) by done.
    rewrite (bool_decide_eq_true_2 (n_ ≠ n_ `div` k * k)) by lia.
    case_bool_decide; [done|].
    rewrite (bool_decide_eq_false_2 (p < 0)) by (unfold p; lia).
    by rewrite HG.
Qed.

Lemma working_graph_eq g0 (k : Z) :
  0 < k →
  let g1 := relabel_nodes g0 (enumerate_nodes g0) in
  let n_ := Z.of_nat (length g1) in
  let p := Z.to_nat (k - n_ `mod` k) in
  working_graph g0 k =
    if bool_decide (n_ `mod` k ≠ 0 ∧ k - n_ `mod` k ≤ maxsize)
    then add_edges_from g1 (edges (relabel_nodes (complete_graph p)
                                     (shift_by (length g1) p)))
    else g1.
Proof.
  intros Hk g1 n_ p. unfold working_graph.
  rewrite (pad_run 0%nat k _ g1) by (done || apply lookup_singleton_eq).
  fold n_. cbv zeta.
  destruct (decide (n_ `mod` k = 0)) as [H0|H0].
  - rewrite (bool_decide_eq_true_2 (n_ `mod` k = 0)) by done.
    rewrite bool_decide_eq_false_2 by tauto. simpl.
    by rewrite lookup_singleton_eq.
  - rewrite (bool_decide_eq_false_2 (n_ `mod` k = 0)) by done.
    case_bool_decide as Hbig.
    + rewrite bool_decide_eq_false_2 by lia. simpl.
      by rewrite lookup_singleton_eq.
    + rewrite bool_decide_eq_true_2 by lia. simpl.
      by rewrite lookup_insert_eq.
Qed.

(** The working graph of a simple graph with fewer neighbours than colours
    is again simple and has again fewer neighbours than colours. *)
Lemma working_graph_simple g0 (k : Z) :
  simple g0 → max_degree g0 < k →
  simple (working_graph g0 k) ∧ max_degree (working_graph g0 k) < k.
Proof.
  intros Hs Hdeg. pose proof (max_degree_nonneg g0) as Hk0.
  pose proof (simple_relabel g0 Hs) as Hs1.
  pose proof (max_degree_relabel g0 Hs) as Hd1.
  rewrite working_graph_eq by lia. cbv zeta.
  set (g1 := relabel_nodes g0 (enumerate_nodes g0)) in *.
  case_bool_decide as Hpad; [|split; [done | lia]].
  set (n := length g1). set (p := Z.to_nat (k - Z.of_nat n `mod` k)).
  assert (Z.of_nat p ≤ k) as Hp.
  { pose proof (Z.mod_pos_bound (Z.of_nat n) k). lia. }
  destruct (add_phantom_edges g1 n p
              (edges (relabel_nodes (complete_graph p) (shift_by n p))) g1)
    as [Hs2 HJ].
  - intros u Hu. unfold g1 in Hu. rewrite nodes_relabel_seq in Hu by done.
    apply elem_of_seq in Hu. unfold n, g1. rewrite length_relabel by done. lia.
  - intros a b. apply phantom_edge_bounds.
  - done.
  - intros u l Hul. by left.
  - split; [done|]. apply max_degree_lt; [lia|].
    intros [u l] Hul. rewrite (degree_of_simple _ _ _ Hs2 Hul).
    destruct (HJ _ _ Hul) as [Hold|[Hu Hl]].
    + pose proof (max_degree_length _ _ _ Hold). lia.
    + destruct (simple_elim _ _ _ Hs2 Hul) as (Hnd & Hself & _).
      assert (u :: l ⊆+ seq n p) as Hsub.
      { apply NoDup_submseteq; [by constructor|].
        intros v [->|Hv]%elem_of_cons; apply elem_of_seq; [lia|].
        specialize (Hl v Hv). lia. }
      apply submseteq_length in Hsub. rewrite length_seq in Hsub.
      simpl in Hsub. lia.
Qed.

(** The cases of [pad], by the remainder of the node count. *)
Lemma working_graph_cases g0 (k : Z) :
  simple g0 → 0 < k →
  working_graph g0 k =
    if bool_decide (Z.of_nat (length g0) `mod` k ≠ 0 ∧
                    k - Z.of_nat (length g0) `mod` k ≤ maxsize)
    then add_edges_from (relabel_nodes g0 (enumerate_nodes g0))
           (edges (relabel_nodes
                     (complete_graph (Z.to_nat (k - Z.of_nat (length g0) `mod` k)))
                     (shift_by (length g0)
                               (Z.to_nat (k - Z.of_nat (length g0) `mod` k)))))
    else relabel_nodes g0 (enumerate_nodes g0).
Proof.
  intros Hs Hk. rewrite working_graph_eq by done. cbv zeta.
  by rewrite length_relabel by done.
Qed.

End Padding.

(** ** The call as a whole *)

Section Call.
Variable globals : gmap string graph.
Implicit Types (σ : gmap nat graph) (g : graph).

(** What [pad] leaves in the store is the working graph, whether it
    returns or raises. *)
Lemma pad_working_graph G (k : Z) σ g0 :
  0 < k → σ !! G = Some (relabel_nodes g0 (enumerate_nodes g0)) →
  ∃ r σ', pad G k σ = (r, σ') ∧ σ' !! G = Some (working_graph g0 k) ∧
          ∀ G', G' ≠ G → σ' !! G' = σ !! G'.
Proof.
  intros Hk HG. unfold working_graph.
  rewrite (pad_run G k σ _ HG Hk).
  rewrite (pad_run 0%nat k _ _ (lookup_singleton_eq _ _) Hk).
  cbv zeta. repeat case_bool_decide; simpl; eexists _, _;
    (split; [done|]);
    rewrite ?lookup_insert_eq, ?lookup_singleton_eq; (split; [done|]);
    intros G' HG'; by rewrite ?lookup_insert_ne by done.
Qed.

(** The padding raises exactly when more than [maxsize] phantoms are
    called for. *)
Lemma pad_outcome G (k : Z) σ g :
  0 < k → σ !! G = Some g →
  let n_ := Z.of_nat (length g) in
  (pad G k σ).1 =
    if bool_decide (n_ `mod` k ≠ 0 ∧ maxsize < k - n_ `mod` k)
    then Raise OverflowError
    else Ok (if bool_decide (n_ `mod` k = 0) then n_ `div` k else n_ `div` k + 1).
Proof.
  intros Hk HG n_. rewrite (pad_run G k σ g HG Hk). fold n_. cbv zeta.
  destruct (decide (n_ `mod` k = 0)) as [H0|H0].
  - rewrite !(bool_decide_eq_true_2 (n_ `mod` k = 0)) by done.
    by rewrite bool_decide_eq_false_2 by tauto.
  - rewrite !(bool_decide_eq_false_2 (n_ `mod` k = 0)) by done.
    case_bool_decide.
    + by rewrite bool_decide_eq_true_2 by done.
    + by rewrite bool_decide_eq_false_2 by tauto.
Qed.

Lemma length_add_edge g e : (length g ≤ length (add_edge g e))%nat.
Proof.
  unfold add_edge. rewrite !length_fmap. unfold add_node.
  repeat case_bool_decide; rewrite ?length_app; simpl; lia.
Qed.

Lemma length_add_edges_from g es : (length g ≤ length (add_edges_from g es))%nat.
Proof.
  revert g. induction es as [|e es IH]; intros g; [done|].
  unfold add_edges_from. simpl. etrans; [apply (length_add_edge g e) | apply IH].
Qed.

Lemma working_graph_nonempty g0 (k : Z) :
  simple g0 → 0 < k → g0 ≠ [] → working_graph g0 k ≠ [].
Proof.
  intros Hs Hk Hne. rewrite working_graph_eq by done. cbv zeta.
  assert (length (relabel_nodes g0 (enumerate_nodes g0)) ≠ 0%nat) as Hlen.
  { rewrite length_relabel by done. by destruct g0. }
  case_bool_decide.
  - intros Heq.
    pose proof (length_add_edges_from (relabel_nodes g0 (enumerate_nodes g0))
      (edges (relabel_nodes
         (complete_graph (Z.to_nat (k -
            Z.of_nat (length (relabel_nodes g0 (enumerate_nodes g0))) `mod` k)))
         (shift_by (length (relabel_nodes g0 (enumerate_nodes g0)))
            (Z.to_nat (k -
               Z.of_nat (length (relabel_nodes g0 (enumerate_nodes g0))) `mod` k))))))
      as Hle.
    rewrite Heq in Hle. simpl in Hle. lia.
  - intros Heq. by rewrite Heq in Hlen.
Qed.

(** Past the degree check, the graph the call works on is [working_graph],
    and the call ends as [outcome_past_check] says. *)
Lemma equitable_color_past_check σ G g0 (k : Z) :
  σ !! G = Some g0 → simple g0 → max_degree g0 < k →
  let out := equitable_color globals G k σ in
  out.2 !! fresh (dom σ) = Some (working_graph g0 k) ∧
  (∀ G', G' ≠ fresh (dom σ) → out.2 !! G' = σ !! G') ∧
  out.1 = outcome_past_check g0 k.
Proof.
  intros HG Hs Hdeg out. subst out.
  pose proof (max_degree_nonneg g0) as Hk0.
  unfold equitable_color, bind, deref, alloc, raise, ret. simpl.
  rewrite HG. simpl. rewrite lookup_insert_eq. simpl.
  rewrite (max_degree_relabel _ Hs).
  rewrite bool_decide_eq_false_2 by lia.
  set (σ1 := <[fresh (dom σ) := relabel_nodes g0 (enumerate_nodes g0)]> σ).
  destruct (pad_working_graph (fresh (dom σ)) k σ1 g0)
    as (r & σ' & Hpad & Hw & Hframe); [lia | apply lookup_insert_eq|].
  pose proof (pad_outcome (fresh (dom σ)) k σ1 _ ltac:(lia) (lookup_insert_eq _ _ _))
    as Hout.
  rewrite Hpad in Hout. simpl in Hout. rewrite length_relabel in Hout by done.
  rewrite Hpad. unfold outcome_past_check.
  assert (∀ G', G' ≠ fresh (dom σ) → σ' !! G' = σ !! G') as Hframe'.
  { intros G' HG'. rewrite Hframe by done. unfold σ1.
    by rewrite lookup_insert_ne by done. }
  assert (working_graph g0 k = [] ↔ g0 = []) as Hnil.
  { split.
    - intros Hnil. destruct g0 as [|e g0]; [done|].
      by destruct (working_graph_nonempty (e :: g0) k Hs ltac:(lia)).
    - intros ->. rewrite working_graph_eq by lia. cbv zeta.
      rewrite bool_decide_eq_false_2; [done|].
      rewrite length_relabel by done. simpl. rewrite Z.mod_0_l by lia. tauto. }
  destruct r as [s|e]; simpl.
  - rewrite Hw. simpl.
    rewrite (bool_decide_eq_false_2 (_ ∧ _))
      by (intros ?; by rewrite bool_decide_eq_true_2 in Hout).
    unfold lift, list_range.
    destruct (decide (maxsize < k)) as [Hbig|Hbig].
    { rewrite !(bool_decide_eq_true_2 (maxsize < k)) by done. done. }
    rewrite !(bool_decide_eq_false_2 (maxsize < k)) by done.
    rewrite session_outcome.
    destruct (working_graph g0 k) as [|e w] eqn:Hwg; simpl.
    + by rewrite (proj1 Hnil eq_refl).
    + destruct g0 as [|e0 g0]; [discriminate (proj2 Hnil eq_refl)|]. done.
  - split; [done|]. split; [done|].
    destruct (decide (Z.of_nat (length g0) `mod` k ≠ 0 ∧
                      maxsize < k - Z.of_nat (length g0) `mod` k)) as [Hover|Hover].
    + rewrite (bool_decide_eq_true_2 _ Hover) in Hout.
      injection Hout as ->. by rewrite (bool_decide_eq_true_2 _ Hover).
    + by rewrite bool_decide_eq_false_2 in Hout.
Qed.

(** On every simple graph with a node, a large enough palette and no
    overflow the call raises [TypeError]. *)
Lemma equitable_color_type_error σ G g0 (k : Z) :
  σ !! G = Some g0 → simple g0 → max_degree g0 < k → k ≤ maxsize → g0 ≠ [] →
  (equitable_color globals G k σ).1 = Raise TypeError.
Proof.
  intros HG Hs Hdeg Hmax Hne.
  destruct (equitable_color_past_check σ G g0 k HG Hs Hdeg) as (_ & _ & ->).
  pose proof (max_degree_nonneg g0) as Hk0.
  pose proof (Z.mod_pos_bound (Z.of_nat (length g0)) k ltac:(lia)).
  unfold outcome_past_check.
  rewrite bool_decide_eq_false_2 by lia.
  rewrite bool_decide_eq_false_2 by lia. by destruct g0.
Qed.

End Call.

(** ** The search of Procedure P in general *)

Section Search.
Variables (colors : list Z) (V_minus : Z) (t : tables).
Hypothesis Hkeys : ∀ c, c ∈ colors → is_Some (tH t !! (V_minus, c)).

(** The layer every iteration computes: the colours the start colour has a
    witness for. *)
Local Abbreviation layer :=
  (filter (λ c, 0 < default 0 (tH t !! (V_minus, c))) colors).
(** The queue after the first iteration. *)
Local Abbreviation first_queue :=
  (V_minus :: filter (λ x, x ∉ ({[V_minus]} : gset Z)) layer).

Lemma witnessed_from_run_on cs :
  (∀ c, c ∈ cs → is_Some (tH t !! (V_minus, c))) →
  witnessed_from V_minus cs t =
    (Ok (filter (λ c, 0 < default 0 (tH t !! (V_minus, c))) cs), t).
Proof using Type.
  unfold witnessed_from. induction cs as [|c cs IH]; intros Hk; simpl; [done|].
  destruct (Hk c) as [h Hh]; [left|].
  rewrite (bind_Ok _ _ t (bool_decide (0 < h)) t);
    [|unfold H_get, py_lookup, bind, ret; by rewrite Hh].
  rewrite (bind_Ok _ _ _ _ _ (IH (λ c' Hc', Hk c' (list_elem_of_further _ _ _ Hc')))).
  unfold ret. rewrite filter_cons, Hh. simpl.
  case_bool_decide; [by rewrite decide_True | by rewrite decide_False].
Qed.

Lemma witnessed_from_run : witnessed_from V_minus colors t = (Ok layer, t).
Proof using Hkeys. by apply witnessed_from_run_on. Qed.

Lemma filter_none {A} (P : A → Prop) `{!∀ x, Decision (P x)} (l : list A) :
  (∀ x, x ∈ l → ¬ P x) → filter P l = [].
Proof using Type.
  induction l as [|x l IH]; intros Hall; [done|].
  rewrite filter_cons, decide_False by (apply Hall; left).
  apply IH. intros y Hy. apply Hall. by right.
Qed.

(** Once the visited set holds the layer and the whole queue, the loop
    only walks the queue to its end. *)
Lemma search_drains fuel st :
  (∀ c, c ∈ layer → c ∈ A_cal st) →
  (∀ c, c ∈ reachable st → c ∈ A_cal st) →
  (length (reachable st) - idx st < fuel)%nat →
  ∃ st', search_loop fuel colors V_minus st t = (Ok st', t) ∧ finished st' ∧
         ∀ c, c ∈ A_cal st' ↔ c ∈ A_cal st.
Proof using Hkeys.
  revert st. induction fuel as [|fuel IH]; intros st Hlayer Hqueue Hfuel; [lia|].
  simpl. destruct (reachable st !! idx st) as [pop|] eqn:Hpop.
  - rewrite (bind_Ok _ _ _ _ _ witnessed_from_run).
    assert (pop ∈ A_cal st) as Hin
      by (apply Hqueue; by eapply list_elem_of_lookup_2).
    rewrite (filter_none (λ x, x ∉ A_cal st ∪ {[pop]}) layer), app_nil_r;
      [|intros c Hc Hn; apply Hn, elem_of_union; left; by apply Hlayer].
    apply lookup_lt_Some in Hpop.
    edestruct (IH (Search (A_cal st ∪ {[pop]})
                          (record_layer pop layer (T_cal st))
                          (R_cal st ++ [pop]) (reachable st) (Datatypes.S (idx st))))
      as (st' & Hrun & Hfin & HA); simpl.
    + intros c Hc. apply elem_of_union. left. by apply Hlayer.
    + intros c Hc. apply elem_of_union. left. by apply Hqueue.
    + lia.
    + exists st'. split; [done|]. split; [done|]. intros c. rewrite HA.
      simpl. rewrite elem_of_union, elem_of_singleton. naive_solver.
  - exists st. by split.
Qed.

(** While the queue still holds colours met for the first time, each
    iteration visits the next one and appends at most one more layer. *)
Lemma search_visits (d : nat) : ∀ fuel st rest,
  reachable st = first_queue ++ rest →
  (∀ c, c ∈ rest → c ∈ layer) →
  (idx st + d = length first_queue)%nat →
  (∀ c, c ∈ A_cal st ↔ c ∈ take (idx st) first_queue) →
  (1 ≤ idx st)%nat →
  (d * Datatypes.S (length layer) + length rest < fuel)%nat →
  ∃ st', search_loop fuel colors V_minus st t = (Ok st', t) ∧ finished st' ∧
         ∀ c, c ∈ A_cal st' ↔ c ∈ first_queue.
Proof using Hkeys.
  induction d as [|d IH]; intros fuel st rest Hq Hrest Hidx HA H1 Hfuel.
  - rewrite Nat.add_0_r in Hidx.
    rewrite Hidx, firstn_all in HA.
    assert (∀ c, c ∈ layer → c ∈ first_queue) as Hsub.
    { intros c Hc. destruct (decide (c = V_minus)) as [->|Hne]; [left|].
      right. apply list_elem_of_filter. split; [|done].
      by intros ?%elem_of_singleton. }
    destruct (search_drains fuel st) as (st' & Hrun & Hfin & HA').
    + intros c Hc. by apply HA, Hsub.
    + intros c. rewrite Hq. intros [Hc|Hc]%elem_of_app; apply HA; [done|].
      by apply Hsub, Hrest.
    + rewrite Hq, length_app. lia.
    + exists st'. split; [done|]. split; [done|]. intros c. by rewrite HA', HA.
  - destruct fuel as [|fuel]; [lia|]. simpl.
    assert (is_Some (first_queue !! idx st)) as [pop Hpop]
      by (apply lookup_lt_is_Some; lia).
    rewrite Hq, (lookup_app_l_Some _ _ _ _ Hpop).
    rewrite (bind_Ok _ _ _ _ _ witnessed_from_run).
    rewrite <- app_assoc.
    eapply (IH fuel (Search _ _ _ _ _)); cbn [idx reachable A_cal];
      [done| | | |lia|].
    + intros c [Hc|Hc]%elem_of_app; [by apply Hrest|].
      by apply list_elem_of_filter in Hc as [_ Hc].
    + lia.
    + intros c. rewrite (take_S_r _ _ _ Hpop), elem_of_app, list_elem_of_singleton.
      rewrite elem_of_union, elem_of_singleton, HA. done.
    + rewrite length_app.
      pose proof (length_filter (λ x, x ∉ A_cal st ∪ {[pop]}) layer). lia.
Qed.

(** The loop of lines 183-195 ends within [search_fuel] iterations, and
    [A_cal] is then the start colour together with the colours the start
    colour itself has a witness for. *)
Lemma search_loop_result :
  ∃ st, search_loop (search_fuel colors) colors V_minus (search_start V_minus) t
          = (Ok st, t) ∧
        finished st ∧
        ∀ c, c ∈ A_cal st ↔ c = V_minus ∨ (c ∈ colors ∧ 0 < default 0 (tH t !! (V_minus, c))).
Proof using Hkeys.
  unfold search_fuel. simpl.
  rewrite (bind_Ok _ _ _ _ _ witnessed_from_run).
  pose proof (length_filter (λ c, 0 < default 0 (tH t !! (V_minus, c))) colors) as Hl1.
  pose proof (length_filter (λ x, x ∉ ({[V_minus]} : gset Z)) layer) as Hl2.
  edestruct (search_visits (length first_queue - 1) (Datatypes.S (length colors) * Datatypes.S (length colors))
               (Search (∅ ∪ {[V_minus]}) (record_layer V_minus layer ∅) ([] ++ [V_minus])
                       ([V_minus] ++ filter (λ x, x ∉ (∅ ∪ {[V_minus]} : gset Z)) layer) 1) [])
    as (st' & Hrun & Hfin & HA); simpl.
  - rewrite app_nil_r. do 2 f_equal. by rewrite union_empty_l_L.
  - by intros c ?%elem_of_nil.
  - lia.
  - intros c. rewrite union_empty_l_L, elem_of_singleton.
    rewrite list_elem_of_singleton. done.
  - lia.
  - simpl. nia.
  - exists st'. split; [exact Hrun|]. split; [done|]. intros c. rewrite HA.
    rewrite elem_of_cons, list_elem_of_filter, list_elem_of_filter, elem_of_singleton.
    destruct (decide (c = V_minus)); naive_solver.
Qed.

End Search.

(** ** How many nodes the padding adds *)

Section PaddingCount.
Implicit Types (g : graph) (a b u v n p i : nat) (l : list nat).





End PaddingCount.

(** * The claims *)

(** ** C1: what the call returns *)

(** C1.  No call of [equitable_color] returns a colouring, whatever the
    graph and the palette.  On the docstring's own example, the 4-cycle
    with three colours (maximum degree 2), the call raises [TypeError]:
    line 143 unpacks a key of [F], an integer, into [node, color]. *)
Theorem equitable_color_returns_no_coloring :
  (∀ (globals : gmap string graph) (σ : gmap nat graph) (G : nat) (k : Z)
     (d : gmap nat Z),
     (equitable_color globals G k σ).1 ≠ Ok (PyDict d)) ∧
  simple cycle4 ∧ max_degree cycle4 = 2 ∧
  (equitable_color module_globals 0%nat 3 {[ 0%nat := cycle4 ]}).1 = Raise TypeError.
Proof.
  split; [intros; apply equitable_color_no_dict|].
  split; [apply (bool_decide_unpack _); vm_compute; exact I|].
  split; vm_compute; reflexivity.
Qed.

(** ** C2: the degree check *)

(** C2.  On a simple graph the call raises the degree-too-high error exactly
    when [num_colors <= maxDegree]; the message spells out the maximum
    degree and the palette size; and when it is raised the store differs
    from the caller's only by the relabelled copy, still unpadded: every
    object the caller can see is as it was. *)
Theorem degree_too_high_iff (globals : gmap string graph)
    (σ : gmap nat graph) (G : nat) (g : graph) (k : Z) :
  σ !! G = Some g → simple g →
  let out := equitable_color globals G k σ in
  ((∃ msg, out.1 = Raise (NetworkXAlgorithmError msg)) ↔ k ≤ max_degree g) ∧
  (k ≤ max_degree g →
     out.1 = Raise (NetworkXAlgorithmError
               ("Graph has maximum degree " ++ str_of_int (max_degree g) ++
                ", needs " ++ str_of_int (max_degree g + 1) ++
                " (> " ++ str_of_int k ++ ") colors for guaranteed coloring.")) ∧
     out.2 = <[fresh (dom σ) := relabel_nodes g (enumerate_nodes g)]> σ ∧
     (∀ G' g', σ !! G' = Some g' → out.2 !! G' = Some g')).
Proof.
  intros HG Hs out. destruct (decide (k ≤ max_degree g)) as [Hk|Hk].
  - subst out. unfold equitable_color, bind, deref, alloc, raise, lift, ret. simpl.
    rewrite HG. simpl. rewrite lookup_insert_eq. simpl.
    rewrite (max_degree_relabel _ Hs).
    rewrite bool_decide_eq_true_2 by done. simpl.
    split; [split; eauto|]. intros _. split; [done|]. split; [done|].
    intros G' g' HG'. rewrite lookup_insert_ne; [done|].
    intros <-. apply (is_fresh (dom σ)). apply elem_of_dom. by rewrite HG'.
  - destruct (equitable_color_past_check globals σ G g k HG Hs ltac:(lia))
      as (_ & _ & Hout).
    split; [|done]. split; [|done]. intros [msg Hmsg]. exfalso.
    unfold out in Hmsg. rewrite Hout in Hmsg. unfold outcome_past_check in Hmsg.
    repeat case_bool_decide; try done. by destruct g.
Qed.

Lemma degree_too_high_iff_witness :
  let σ : gmap nat graph := {[ 0%nat := cycle4 ]} in
  let out := equitable_color module_globals 0%nat 2 σ in
  σ !! 0%nat = Some cycle4 ∧ simple cycle4 ∧
  ((∃ msg, out.1 = Raise (NetworkXAlgorithmError msg)) ↔ 2 ≤ max_degree cycle4) ∧
  (2 ≤ max_degree cycle4 →
     out.1 = Raise (NetworkXAlgorithmError
               "Graph has maximum degree 2, needs 3 (> 2) colors for guaranteed coloring.") ∧
     out.2 = <[fresh (dom σ) := relabel_nodes cycle4 (enumerate_nodes cycle4)]> σ ∧
     (∀ G' g', σ !! G' = Some g' → out.2 !! G' = Some g')).
Proof.
  assert (simple cycle4) as Hs by (apply (bool_decide_unpack _); vm_compute; exact I).
  split; [reflexivity|]. split; [exact Hs|].
  apply (degree_too_high_iff module_globals {[ 0%nat := cycle4 ]} 0%nat cycle4 2);
    [reflexivity | exact Hs].
Defined.

(** ** C3: [is_equitable] on classes of one size *)

(** C3.  On the single edge 0-1 coloured 0 and 1 the colouring is proper and
    both classes have size 1, so there is one distinct class size:
    [is_equitable] does not answer [True], the unpacking [a, b = ...] raises
    [ValueError]. *)
Theorem is_equitable_equal_classes_raises :
  let col : gmap nat Z := <[0%nat := 0]> (<[1%nat := 1]> ∅) in
  is_coloring path2 col = Ok true ∧
  elements (all_set_sizes col) = [1] ∧
  is_equitable path2 col = Raise ValueError.
Proof. vm_compute. done. Qed.

(** ** C4: padding by a single phantom *)

(** C4.  One node and two colours: [p = 2 - 1 mod 2 = 1], the complete graph
    on one node has no edge, so [add_edges_from] adds nothing: the working
    graph keeps its single node, which is not a multiple of 2, while the
    class size [s] is already 1. *)
Theorem pad_single_phantom_adds_nothing :
  let σ : gmap nat graph := {[ 0%nat := [(0%nat, [])] ]} in
  edges (relabel_nodes (complete_graph 1) (shift_by 1 1)) = [] ∧
  pad 0%nat 2 σ = (Ok 1, σ) ∧
  working_graph [(0%nat, [])] 2 = [(0%nat, [])] ∧
  Z.of_nat (length (working_graph [(0%nat, [])] 2)) `mod` 2 ≠ 0.
Proof. vm_compute. split; [done|]. split; [done|]. split; [done|]. discriminate. Qed.

(** With two phantoms or more the padding does what it is meant to: three
    nodes and five colours give two phantoms, joined to each other only. *)
Example pad_two_phantoms :
  working_graph path3 5 = path3 ++ [(3%nat, [4%nat]); (4%nat, [3%nat])].
Proof. vm_compute. done. Qed.

(** ** C5 and C6: the tables after the scan of the edges *)

(** C5.  The single edge 0-1 with two colours, from the tables that lines
    140-150 build (and the classes lines 143-144 are meant to build).  No
    node has a neighbour of its own colour, so the loop of lines 153-204
    runs to its end without a recolouring; it has then met the edge from
    both of its endpoints and counted it at both each time: [N[(0, 1)]] is
    2, and node 0 has one neighbour of colour 1. *)
Theorem scan_counts_each_edge_twice :
  let t0 := tables_at_driver path2 2 1 {[ 0 := [0%nat]; 1 := [1%nat] ]} in
  let out := driver module_globals path2 (range 2) t0 in
  out.1 = Ok tt ∧ tF out.2 = tF t0 ∧
  tN out.2 !! (0%nat, 1) = Some 2 ∧
  colored_neighbors path2 (tF out.2) 0%nat 1 = 1.
Proof. vm_compute. done. Qed.

(** C6.  Same run: [H[(0, 1)]] starts at the class size 1 and is decremented
    at each of the two visits of the edge, ending at -1; the number of
    nodes of class 0 with no neighbour counted in class 1 is 0. *)
Theorem scan_drives_H_below_witness_count :
  let t0 := tables_at_driver path2 2 1 {[ 0 := [0%nat]; 1 := [1%nat] ]} in
  let out := driver module_globals path2 (range 2) t0 in
  out.1 = Ok tt ∧ tC out.2 = tC t0 ∧
  tH out.2 !! (0, 1) = Some (-1) ∧
  witnesses out.2 0 1 = 0.
Proof. vm_compute. done. Qed.

(** ** C7: [change_color] *)

(** C7.  Whatever the arguments, [change_color] as the module defines it
    does not complete: after [F[u] = Y] and the two updates of [H] it reads
    the name [G], which the module does not bind, and raises [NameError]
    (or [KeyError] before that, when [H] lacks one of the two keys).  [N] is
    not touched and [u] is neither removed from [C[X]] nor appended to
    [C[Y]]. *)
Theorem change_color_raises (u : nat) (X Y : Z) (t : tables) :
  ∃ t', change_color module_globals u X Y t =
          (Raise (match tH t !! (X, Y), tH t !! (Y, X) with
                  | Some _, Some _ => NameError "G"
                  | _, _ => KeyError
                  end), t') ∧
        tF t' = <[u := Y]> (tF t) ∧ tN t' = tN t ∧ tC t' = tC t.
Proof. apply change_color_unbound_G. Qed.

(** With a graph bound to the global name [G] the body runs to its end:
    the single edge 0-1 with exact tables for three colours, node 0 moved
    from colour 0 to colour 2. *)
Example change_color_with_global :
  let out := change_color {[ "G"%string := path2 ]} 0%nat 0 2 edge_tables in
  out.1 = Ok tt ∧ tF out.2 !! 0%nat = Some 2 ∧
  tC out.2 !! 0 = Some [] ∧ tC out.2 !! 2 = Some [0%nat] ∧
  tN out.2 !! (1%nat, 0) = Some 0 ∧ tN out.2 !! (1%nat, 2) = Some 1 ∧
  tH out.2 !! (0, 2) = Some 0 ∧ tH out.2 !! (2, 0) = Some 1 ∧
  tH out.2 !! (1, 0) = Some 1 ∧ tH out.2 !! (1, 2) = Some 0.
Proof. vm_compute. done. Qed.

(** ** C8: the search of Procedure P *)

(** C8.  Three colours with [H[(0,1)] > 0] and [H[(1,2)] > 0] only.  Colour 2
    is reachable from colour 0 through colour 1, but every iteration
    expands the start colour again: [A_cal] ends as {0, 1}, colour 1 is
    recorded as its own predecessor, and the rough case is taken for
    [V_plus = 2]. *)
Theorem search_expands_only_the_start_color :
  let out := procedure_P (range 3) 0 2 (Tables ∅ chain_H ∅ ∅) in
  reaches chain_H 0 2 ∧
  match out.1 with
  | Ok (st, taken) =>
      taken = RoughCase ∧ finished st ∧
      A_cal st = {[ 0; 1 ]} ∧ T_cal st !! 1 = Some [0; 1] ∧ R_cal st = [0; 1]
  | Raise _ => False
  end.
Proof.
  split.
  - apply (rtc_l _ 0 1 2); [by exists 1|].
    apply (rtc_l _ 1 2 2); [by exists 1|]. done.
  - vm_compute. done.
Qed.

(** ** C9: the selection of the new colour *)

(** C9.  For a simple graph and a palette larger than its maximum degree,
    on the graph the call works on: at every node [u] that the driver loop
    reaches, the scan of the edges of [u] goes through.  If [u] then counts
    no neighbour of its own colour, the body of the loop is over for [u].
    If it counts one, the list of line 167 is not empty, so that [[...][0]]
    does not raise [IndexError] and yields its head [Y], the least colour
    with [N[(u, Y)] == 0]; the body goes on with
    [change_color(u, F[u], Y, ...)] and Procedure P for the same two
    colours, whatever the global names are bound to; and as the module
    binds them, this call sets [F[u]] to [Y] and raises [NameError]. *)
Theorem driver_selects_least_free_color (globals : gmap string graph)
    (g0 : graph) (k s : Z) (C : gmap Z (list nat)) (pre post : list nat)
    (u : nat) (t : tables) :
  simple g0 → max_degree g0 < k →
  nodes (working_graph g0 k) = pre ++ u :: post →
  for_each pre (process_node module_globals (working_graph g0 k) (range k))
           (tables_at_driver (working_graph g0 k) k s C) = (Ok tt, t) →
  ∃ l t' fu n,
    neighbors (working_graph g0 k) u = Ok l ∧
    for_each l (scan_edge u) t = (Ok tt, t') ∧
    tF t' !! u = Some fu ∧ tN t' !! (u, fu) = Some n ∧
    (n = 0 →
       process_node globals (working_graph g0 k) (range k) u t = (Ok tt, t')) ∧
    (n ≠ 0 →
       ∃ Y rest, free_colors u (range k) t' = (Ok (Y :: rest), t') ∧
         (cands <- free_colors u (range k) ;; first cands) t' = (Ok Y, t') ∧
         0 ≤ Y < k ∧ tN t' !! (u, Y) = Some 0 ∧
         (∀ c, 0 ≤ c < Y → ∃ m, tN t' !! (u, c) = Some m ∧ m ≠ 0) ∧
         process_node globals (working_graph g0 k) (range k) u t =
           (change_color globals u fu Y ;; procedure_P (range k) fu Y ;; ret tt) t' ∧
         ∃ t'', process_node module_globals (working_graph g0 k) (range k) u t
                  = (Raise (NameError "G"), t'') ∧
                tF t'' !! u = Some Y).
Proof.
  intros Hs Hd. destruct (working_graph_simple g0 k Hs Hd) as [Hsw Hdw].
  by apply selection_at_node.
Qed.

Lemma driver_selects_least_free_color_witness :
  let g := working_graph far_pair 3 in
  let t0 := tables_at_driver g 3 2 ∅ in
  simple far_pair ∧ max_degree far_pair < 3 ∧
  nodes g = [] ++ 0%nat :: [1%nat; 2%nat; 3%nat; 4%nat; 5%nat] ∧
  ∃ l t' fu n,
    neighbors g 0%nat = Ok l ∧
    for_each l (scan_edge 0%nat) t0 = (Ok tt, t') ∧
    tF t' !! 0%nat = Some fu ∧ tN t' !! (0%nat, fu) = Some n ∧
    (n = 0 → process_node module_globals g (range 3) 0%nat t0 = (Ok tt, t')) ∧
    (n ≠ 0 →
       ∃ Y rest, free_colors 0%nat (range 3) t' = (Ok (Y :: rest), t') ∧
         (cands <- free_colors 0%nat (range 3) ;; first cands) t' = (Ok Y, t') ∧
         0 ≤ Y < 3 ∧ tN t' !! (0%nat, Y) = Some 0 ∧
         (∀ c, 0 ≤ c < Y → ∃ m, tN t' !! (0%nat, c) = Some m ∧ m ≠ 0) ∧
         process_node module_globals g (range 3) 0%nat t0 =
           (change_color module_globals 0%nat fu Y ;;
            procedure_P (range 3) fu Y ;; ret tt) t' ∧
         ∃ t'', process_node module_globals g (range 3) 0%nat t0
                  = (Raise (NameError "G"), t'') ∧
                tF t'' !! 0%nat = Some Y).
Proof.
  assert (simple far_pair) as Hs by (apply (bool_decide_unpack _); vm_compute; exact I).
  assert (max_degree far_pair < 3) as Hd by (vm_compute; reflexivity).
  split; [exact Hs|]. split; [exact Hd|]. split; [vm_compute; reflexivity|].
  apply (driver_selects_least_free_color module_globals far_pair 3 2 ∅ []
           [1%nat; 2%nat; 3%nat; 4%nat; 5%nat] 0%nat);
    [exact Hs | exact Hd | vm_compute; reflexivity | reflexivity].
Defined.

(** At that node the premise holds: node 0 counts one neighbour of its own
    colour 0, colour 1 is taken, and the body of the loop ends in the
    [NameError] with [F[0]] set to 1. *)
Example far_pair_conflict :
  let g := working_graph far_pair 3 in
  let t0 := tables_at_driver g 3 2 ∅ in
  let out := for_each [3%nat] (scan_edge 0%nat) t0 in
  g = [(0%nat, [3%nat]); (1%nat, []); (2%nat, []); (3%nat, [0%nat]);
       (4%nat, [5%nat]); (5%nat, [4%nat])] ∧
  tN out.2 !! (0%nat, 0) = Some 1 ∧
  (free_colors 0%nat (range 3) out.2).1 = Ok [1; 2] ∧
  (process_node module_globals g (range 3) 0%nat t0).1 = Raise (NameError "G") ∧
  tF (process_node module_globals g (range 3) 0%nat t0).2 !! 0%nat = Some 1.
Proof. vm_compute. done. Qed.

(** ** C10: [is_equitable] and the unused colours *)

(** C10.  Two disjoint edges, colours 0 and 1 used twice each, a third
    palette colour unused: the used classes have equal sizes, yet
    [is_equitable] raises [ValueError] instead of accepting.  With used
    class sizes 2 and 1 (a path on three nodes) it accepts. *)
Theorem is_equitable_unused_color_raises :
  let col : gmap nat Z :=
    <[0%nat := 0]> (<[1%nat := 1]> (<[2%nat := 0]> (<[3%nat := 1]> ∅))) in
  let col3 : gmap nat Z := <[0%nat := 0]> (<[1%nat := 1]> (<[2%nat := 0]> ∅)) in
  is_coloring two_edges col = Ok true ∧
  elements (all_set_sizes col) = [2] ∧
  is_equitable two_edges col = Raise ValueError ∧
  is_equitable path3 col3 = Ok true.
Proof. vm_compute. done. Qed.

(** * Further properties of the code *)

(** ** [is_coloring] *)

Section IsColoring.
Implicit Types (g : graph) (col : gmap nat Z) (es : list (nat * nat)).

Lemma is_coloring_loop_total es col :
  (∀ s d, (s, d) ∈ es → is_Some (col !! s) ∧ is_Some (col !! d)) →
  is_coloring_loop es col =
    Ok (bool_decide (Forall (λ e : nat * nat, col !! e.1 ≠ col !! e.2) es)).
Proof.
  induction es as [|[s d] es IH]; intros Hcol.
  - cbn [is_coloring_loop]. by rewrite bool_decide_eq_true_2 by constructor.
  - destruct (Hcol s d) as [[cs Hs] [cd Hd]]; [left|].
    cbn [is_coloring_loop]. unfold py_lookup. rewrite Hs, Hd.
    cbn [result_bind].
    destruct (decide (cs = cd)) as [->|Heq].
    + rewrite (bool_decide_eq_true_2 (cd = cd)) by done.
      rewrite bool_decide_eq_false_2; [done|].
      intros Hall. apply Forall_cons in Hall as [Hne _]. simpl in Hne. congruence.
    + rewrite (bool_decide_eq_false_2 (cs = cd)) by done.
      rewrite IH by (intros s' d' Hin; apply Hcol; by right).
      f_equal. apply bool_decide_ext. rewrite Forall_cons. simpl.
      split; [|tauto]. intros ?. split; [congruence | done].
Qed.

Lemma is_coloring_loop_raise es col e :
  is_coloring_loop es col = Raise e →
  e = KeyError ∧ ∃ s d, (s, d) ∈ es ∧ (col !! s = None ∨ col !! d = None).
Proof.
  induction es as [|[s d] es IH]; simpl; [done|].
  unfold py_lookup.
  destruct (col !! s) as [cs|] eqn:Hs; simpl.
  2:{ intros [= <-]. split; [done|]. exists s, d. split; [left | by left]. }
  destruct (col !! d) as [cd|] eqn:Hd; simpl.
  2:{ intros [= <-]. split; [done|]. exists s, d. split; [left | by right]. }
  case_bool_decide; [done|]. intros Hr.
  destruct (IH Hr) as (-> & s' & d' & Hin & Hnone).
  split; [done|]. exists s', d'. split; [by right | done].
Qed.

Lemma is_coloring_loop_false es col :
  is_coloring_loop es col = Ok false →
  ∃ s d c, (s, d) ∈ es ∧ col !! s = Some c ∧ col !! d = Some c.
Proof.
  induction es as [|[s d] es IH]; simpl; [done|].
  unfold py_lookup.
  destruct (col !! s) as [cs|] eqn:Hs; simpl; [|done].
  destruct (col !! d) as [cd|] eqn:Hd; simpl; [|done].
  case_bool_decide as Heq.
  - intros _. subst cd. exists s, d, cs. split; [left | done].
  - intros Hr. destruct (IH Hr) as (s' & d' & c & Hin & H1 & H2).
    exists s', d', c. split; [by right | done].
Qed.


End IsColoring.

(** X1.  When the colouring gives a colour to both endpoints of every edge,
    [is_coloring] does not raise, and it answers [True] exactly when no
    edge has both endpoints of one colour. *)
Theorem is_coloring_colored_edges (g : graph) (col : gmap nat Z) :
  (∀ s d, (s, d) ∈ edges g → is_Some (col !! s) ∧ is_Some (col !! d)) →
  ∃ b, is_coloring g col = Ok b ∧
       (b = true ↔ ∀ s d, (s, d) ∈ edges g → col !! s ≠ col !! d).
Proof.
  intros Hcol. eexists. split; [by apply is_coloring_loop_total|].
  rewrite bool_decide_eq_true, Forall_forall. split.
  - intros Hall s d Hin. apply (Hall (s, d) Hin).
  - intros Hall [s d] Hin. by apply Hall.
Qed.

Lemma is_coloring_colored_edges_witness :
  let col : gmap nat Z := <[0%nat := 0]> (<[1%nat := 1]> (<[2%nat := 0]> ∅)) in
  ∃ b, is_coloring path3 col = Ok b ∧
       (b = true ↔ ∀ s d, (s, d) ∈ edges path3 → col !! s ≠ col !! d).
Proof.
  apply (is_coloring_colored_edges path3).
  intros s d Hin. vm_compute in Hin.
  apply elem_of_cons in Hin as [[= -> ->]|Hin]; [by vm_compute; eauto|].
  apply elem_of_cons in Hin as [[= -> ->]|Hin]; [by vm_compute; eauto|].
  by apply elem_of_nil in Hin.
Defined.

(** X2.  The only exception [is_coloring] raises is [KeyError], and it
    raises it only when some edge has an endpoint that the colouring does
    not colour; an answer [False] comes with an edge whose two endpoints
    have the same colour. *)
Theorem is_coloring_failures (g : graph) (col : gmap nat Z) :
  match is_coloring g col with
  | Raise e =>
      e = KeyError ∧ ∃ s d, (s, d) ∈ edges g ∧ (col !! s = None ∨ col !! d = None)
  | Ok false =>
      ∃ s d c, (s, d) ∈ edges g ∧ col !! s = Some c ∧ col !! d = Some c
  | Ok true => True
  end.
Proof.
  unfold is_coloring.
  destruct (is_coloring_loop (edges g) col) as [[|]|e] eqn:Hrun; [done| |].
  - by apply is_coloring_loop_false.
  - by apply is_coloring_loop_raise.
Qed.

(** On a simple graph the properness test over [G.edges] is a test over
    all adjacencies. *)
Lemma is_coloring_adjacent (g : graph) (col : gmap nat Z) :
  simple g →
  (is_coloring g col = Ok true ↔
   ∀ u l v, (u, l) ∈ g → v ∈ l →
     ∃ cu cv, col !! u = Some cu ∧ col !! v = Some cv ∧ cu ≠ cv).
Proof.
  intros Hs. rewrite is_coloring_true. split.
  - intros Hall u l v Hul Hv.
    destruct (edges_complete g u l v Hs Hul Hv) as [Hin|Hin].
    + by apply Hall.
    + destruct (Hall _ _ Hin) as (cv & cu & ? & ? & ?). by exists cu, cv.
  - intros Hall s d (l & Hl & Hd)%edges_from_entry. by eapply Hall.
Qed.

(** X3.  On a simple graph [is_coloring] answers [True] exactly when every
    node with a neighbour is coloured and no two adjacent nodes share a
    colour: meeting each edge once, from one endpoint, loses nothing. *)
Theorem is_coloring_simple_graph (g : graph) (col : gmap nat Z) :
  simple g →
  (is_coloring g col = Ok true ↔
   ∀ u l v, (u, l) ∈ g → v ∈ l →
     ∃ cu cv, col !! u = Some cu ∧ col !! v = Some cv ∧ cu ≠ cv).
Proof. apply is_coloring_adjacent. Qed.

Lemma is_coloring_simple_graph_witness :
  simple cycle4 ∧
  (is_coloring cycle4 (<[0%nat := 0]> (<[1%nat := 1]> (<[2%nat := 0]> (<[3%nat := 1]> ∅))))
     = Ok true ↔
   ∀ u l v, (u, l) ∈ cycle4 → v ∈ l →
     ∃ cu cv,
       (<[0%nat := 0]> (<[1%nat := 1]> (<[2%nat := 0]> (<[3%nat := 1]> ∅)))
          : gmap nat Z) !! u = Some cu ∧
       (<[0%nat := 0]> (<[1%nat := 1]> (<[2%nat := 0]> (<[3%nat := 1]> ∅)))
          : gmap nat Z) !! v = Some cv ∧ cu ≠ cv).
Proof.
  assert (simple cycle4) as Hs by (apply (bool_decide_unpack _); vm_compute; exact I).
  split; [exact Hs|]. apply (is_coloring_simple_graph cycle4 _ Hs).
Defined.

(** ** [is_equitable] *)

Section IsEquitable.
Implicit Types (g : graph) (col : gmap nat Z) (c : Z).

Lemma foldl_count_color (l : list Z) (m : gmap Z Z) c :
  foldl count_color m l !! c =
    if decide (filter (λ x, x = c) l = [])
    then m !! c
    else Some (default 0 (m !! c) + Z.of_nat (length (filter (λ x, x = c) l))).
Proof.
  revert m. induction l as [|x l IH]; intros m; [done|].
  cbn [foldl]. rewrite IH, filter_cons. unfold count_color.
  destruct (decide (x = c)) as [->|Hne].
  - rewrite lookup_insert_eq.
    destruct (decide (c :: filter (λ x, x = c) l = [])) as [?|_]; [done|].
    destruct (decide (filter (λ x, x = c) l = [])) as [->|Hl];
      simpl; f_equal; lia.
  - by rewrite lookup_insert_ne by done.
Qed.

Lemma class_size_zero col c :
  class_size col c = 0 ↔ filter (λ x, x = c) (snd <$> map_to_list col) = [].
Proof.
  unfold class_size.
  destruct (filter _ _) as [|x l]; simpl; split; (done || lia).
Qed.

Lemma color_set_size_lookup col c :
  color_set_size col !! c =
    if decide (class_size col c = 0) then None else Some (class_size col c).
Proof.
  unfold color_set_size. rewrite foldl_count_color, lookup_empty. simpl.
  destruct (decide (filter _ _ = [])) as [Hl|Hl].
  - by rewrite decide_True by (by apply class_size_zero).
  - by rewrite decide_False by (by rewrite class_size_zero).
Qed.

Lemma class_size_unused col c :
  class_size col c = 0 ↔ ∀ n, col !! n ≠ Some c.
Proof.
  rewrite class_size_zero. split.
  - intros Hnil n Hn.
    eapply (filter_nil_not_elem_of _ _ c Hnil); [done|].
    apply list_elem_of_fmap. exists (n, c). split; [done|].
    by apply elem_of_map_to_list.
  - intros Hall. apply filter_none. intros x Hx Hxc. subst x.
    apply list_elem_of_fmap in Hx as ([n c'] & Heq & Hp). simpl in Heq. subst c'.
    apply elem_of_map_to_list in Hp. by apply (Hall n).
Qed.

Lemma elem_of_all_set_sizes col (k : Z) :
  k ∈ all_set_sizes col ↔ k ≠ 0 ∧ ∃ c, class_size col c = k.
Proof.
  unfold all_set_sizes. rewrite elem_of_list_to_set, list_elem_of_fmap. split.
  - intros ([c k'] & -> & Hin). apply elem_of_map_to_list in Hin.
    rewrite color_set_size_lookup in Hin. case_decide; [done|].
    simplify_eq/=. eauto.
  - intros (Hk & c & <-). exists (c, class_size col c). split; [done|].
    apply elem_of_map_to_list. rewrite color_set_size_lookup.
    by rewrite decide_False.
Qed.

Lemma elements_two (X : gset Z) (a b : Z) :
  a ≠ b → (∀ k, k ∈ X ↔ k = a ∨ k = b) →
  elements X = [a; b] ∨ elements X = [b; a].
Proof.
  intros Hab HX.
  assert (elements X ≡ₚ [a; b]) as Hperm.
  { apply NoDup_Permutation; [apply NoDup_elements| |].
    - repeat constructor; set_solver.
    - intros k. rewrite elem_of_elements, HX. set_solver. }
  pose proof (Permutation_length Hperm) as Hlen.
  destruct (elements X) as [|x [|y [|z l]]]; simpl in Hlen; try lia.
  assert (x ∈ [a; b]) as Hx by (rewrite <- Hperm; left).
  assert (y ∈ [a; b]) as Hy by (rewrite <- Hperm; right; left).
  assert (NoDup [x; y]) as Hnd by (rewrite Hperm; repeat constructor; set_solver).
  apply NoDup_cons in Hnd as [Hxy _].
  set_solver.
Qed.

End IsEquitable.

(** X4.  The counting loop of [is_equitable] gives every colour that some
    node has the number of nodes that have it, and gives no entry to a
    colour that no node has: there is no class of size 0. *)
Theorem color_set_size_counts (col : gmap nat Z) (c : Z) :
  (class_size col c = 0 ↔ ∀ n, col !! n ≠ Some c) ∧
  color_set_size col !! c =
    if decide (class_size col c = 0) then None else Some (class_size col c).
Proof. split; [apply class_size_unused | apply color_set_size_lookup]. Qed.

(** X5.  [is_equitable] answers [True] exactly when [is_coloring] does and
    the classes of the colours in use have exactly two sizes, [a] and
    [a + 1]. *)
Theorem is_equitable_true_iff (g : graph) (col : gmap nat Z) :
  is_equitable g col = Ok true ↔
  is_coloring g col = Ok true ∧
  ∃ a, (∃ c, class_size col c = a) ∧ a ≠ 0 ∧ (∃ c, class_size col c = a + 1) ∧
       ∀ c, class_size col c = 0 ∨ class_size col c = a ∨ class_size col c = a + 1.
Proof.
  split.
  - intros Hrun.
    destruct (is_coloring g col) as [[|]|e] eqn:Hc;
      [|by rewrite (is_equitable_improper _ _ Hc) in Hrun
       |by unfold is_equitable in Hrun; rewrite Hc in Hrun].
    split; [done|]. rewrite (is_equitable_proper _ _ Hc) in Hrun.
    pose proof (NoDup_elements (all_set_sizes col)) as Hnd.
    assert (∀ k, k ∈ elements (all_set_sizes col) ↔
                 k ≠ 0 ∧ ∃ c, class_size col c = k) as Hel
      by (intros k; by rewrite elem_of_elements, elem_of_all_set_sizes).
    destruct (elements (all_set_sizes col)) as [|x [|y [|z l]]]; try done.
    injection Hrun as Hxy. apply bool_decide_eq_true in Hxy.
    apply NoDup_cons in Hnd as [Hne _]. rewrite list_elem_of_singleton in Hne.
    assert (class_size col = class_size col) as _ by done.
    destruct (Hel x) as [[Hx0 [cx Hcx]] _]; [left|].
    destruct (Hel y) as [[Hy0 [cy Hcy]] _]; [right; left|].
    assert (∀ c, class_size col c = 0 ∨ class_size col c = x ∨ class_size col c = y)
      as Hall.
    { intros c. destruct (decide (class_size col c = 0)) as [?|Hc0]; [by left|].
      right. destruct (Hel (class_size col c)) as [_ Hin].
      specialize (Hin (conj Hc0 (ex_intro _ c eq_refl))).
      set_solver. }
    destruct (decide (x < y)) as [Hlt|Hge].
    + exists x. assert (y = x + 1) as -> by lia. eauto 10.
    + exists y. assert (x = y + 1) as -> by lia.
      split; [eauto|]. split; [done|]. split; [eauto|].
      intros c. specialize (Hall c). tauto.
  - intros (Hc & a & [ca Ha] & Ha0 & [cb Hb] & Hall).
    rewrite (is_equitable_proper _ _ Hc).
    assert (0 ≤ a) as Hpos by (rewrite <- Ha; unfold class_size; lia).
    destruct (elements_two (all_set_sizes col) a (a + 1)) as [->| ->]; [lia| | |].
    + intros k. rewrite elem_of_all_set_sizes. split.
      * intros (Hk & c & <-). specialize (Hall c). tauto.
      * intros [->| ->]; (split; [lia | eauto]).
    + f_equal. apply bool_decide_eq_true. lia.
    + f_equal. apply bool_decide_eq_true. lia.
Qed.

(** The two ways in which [is_equitable] fails of its own. *)
Lemma is_equitable_failures_cases (g : graph) (col : gmap nat Z) :
  (is_equitable g col = Raise ValueError ↔
   is_coloring g col = Ok true ∧
   ∀ c1 c2, class_size col c1 ≠ 0 → class_size col c2 ≠ 0 →
            class_size col c1 = class_size col c2) ∧
  (is_equitable g col = Ok false ↔
   is_coloring g col = Ok false ∨
   (is_coloring g col = Ok true ∧
    ∃ c1 c2, class_size col c1 ≠ 0 ∧ class_size col c2 ≠ 0 ∧
             1 < class_size col c2 - class_size col c1)).
Proof.
  destruct (is_coloring g col) as [[|]|e] eqn:Hc.
  - rewrite (is_equitable_proper _ _ Hc).
    pose proof (NoDup_elements (all_set_sizes col)) as Hnd.
    assert (∀ k, k ∈ elements (all_set_sizes col) ↔
                 k ≠ 0 ∧ ∃ c, class_size col c = k) as Hel
      by (intros k; by rewrite elem_of_elements, elem_of_all_set_sizes).
    assert (∀ c, class_size col c ≠ 0 →
                 class_size col c ∈ elements (all_set_sizes col)) as Hused
      by (intros c Hc0; apply Hel; eauto).
    destruct (elements (all_set_sizes col)) as [|x [|y [|z l]]].
    + split; split; try done.
      * intros _. split; [done|]. intros c1 c2 H1 _.
        by apply Hused, elem_of_nil in H1.
      * intros [?|(_ & c1 & c2 & H1 & _)]; [done|].
        by apply Hused, elem_of_nil in H1.
    + split; split; try done.
      * intros _. split; [done|]. intros c1 c2 H1 H2.
        apply Hused, list_elem_of_singleton in H1.
        apply Hused, list_elem_of_singleton in H2. congruence.
      * intros [?|(_ & c1 & c2 & H1 & H2 & Hgap)]; [done|].
        apply Hused, list_elem_of_singleton in H1.
        apply Hused, list_elem_of_singleton in H2. lia.
    + apply NoDup_cons in Hnd as [Hne _]. rewrite list_elem_of_singleton in Hne.
      destruct (Hel x) as [[Hx0 [cx Hcx]] _]; [left|].
      destruct (Hel y) as [[Hy0 [cy Hcy]] _]; [right; left|].
      split; split; try done.
      * intros [_ Hall]. destruct Hne. rewrite <- Hcx, <- Hcy.
        apply Hall; congruence.
      * intros [= Hgap%bool_decide_eq_false]. right. split; [done|].
        destruct (decide (x < y)).
        -- exists cx, cy. rewrite Hcx, Hcy. split; [done|]. split; [done|]. lia.
        -- exists cy, cx. rewrite Hcx, Hcy. split; [done|]. split; [done|]. lia.
      * intros [?|(_ & c1 & c2 & H1 & H2 & Hgap)]; [done|]. f_equal.
        apply bool_decide_eq_false.
        apply Hused in H1. apply Hused in H2. set_solver by lia.
    + apply NoDup_cons in Hnd as [Hxy Hnd]. apply NoDup_cons in Hnd as [Hyz _].
      assert (x ≠ y ∧ x ≠ z ∧ y ≠ z) as (Hxy' & Hxz & Hyz') by set_solver.
      destruct (Hel x) as [[Hx0 [cx Hcx]] _]; [left|].
      destruct (Hel y) as [[Hy0 [cy Hcy]] _]; [right; left|].
      destruct (Hel z) as [[Hz0 [cz Hcz]] _]; [right; right; left|].
      split; split; try done.
      * intros [_ Hall]. destruct Hxy'. rewrite <- Hcx, <- Hcy.
        apply Hall; congruence.
      * intros _. right. split; [done|].
        assert (1 < y - x ∨ 1 < x - y ∨ 1 < z - x ∨ 1 < x - z ∨
                1 < z - y ∨ 1 < y - z) as Hgap by lia.
        destruct Hgap as [?|[?|[?|[?|[?|?]]]]];
          [exists cx, cy | exists cy, cx | exists cx, cz
          | exists cz, cx | exists cy, cz | exists cz, cy];
          rewrite ?Hcx, ?Hcy, ?Hcz; done.
  - rewrite (is_equitable_improper _ _ Hc). split; split; try done.
    + by intros [? _].
    + by left.
  - assert (is_equitable g col = Raise e) as ->
      by (unfold is_equitable; by rewrite Hc).
    destruct (is_coloring_loop_raise _ _ _ Hc) as [-> _].
    split; split; try done.
    + by intros [? _].
    + by intros [?|[? _]].
Qed.

(** An exception of [is_coloring] goes through [is_equitable] as it is,
    and [is_equitable] adds [ValueError] only. *)
Lemma is_equitable_propagates (g : graph) (col : gmap nat Z) :
  (∀ e, is_coloring g col = Raise e → is_equitable g col = Raise e) ∧
  (∀ e, is_equitable g col = Raise e →
        (e = KeyError ∧ is_coloring g col = Raise KeyError) ∨
        (e = ValueError ∧ is_coloring g col = Ok true)).
Proof.
  unfold is_equitable. destruct (is_coloring g col) as [[|]|e0] eqn:Hc; simpl.
  - split; [done|]. intros e. case_bool_decide; [done|].
    repeat case_match; try done; intros [= <-]; by right.
  - split; done.
  - split; [done|]. intros e [= <-]. left.
    by destruct (is_coloring_loop_raise _ _ _ Hc) as [-> _].
Qed.

(** X6.  [is_equitable] raises [ValueError] exactly when [is_coloring]
    answers [True] and all the colours in use have classes of one size
    (which covers the colouring of no node at all).  It answers [False]
    exactly when [is_coloring] does, or [is_coloring] answers [True] and
    two colours in use have class sizes more than one apart.  The
    [KeyError] of [is_coloring] is propagated: [is_equitable] raises
    [KeyError] exactly when [is_coloring] does, and it raises nothing but
    [ValueError] and [KeyError]. *)
Theorem is_equitable_failures_iff (g : graph) (col : gmap nat Z) :
  (is_equitable g col = Raise ValueError ↔
   is_coloring g col = Ok true ∧
   ∀ c1 c2, class_size col c1 ≠ 0 → class_size col c2 ≠ 0 →
            class_size col c1 = class_size col c2) ∧
  (is_equitable g col = Ok false ↔
   is_coloring g col = Ok false ∨
   (is_coloring g col = Ok true ∧
    ∃ c1 c2, class_size col c1 ≠ 0 ∧ class_size col c2 ≠ 0 ∧
             1 < class_size col c2 - class_size col c1)) ∧
  (is_equitable g col = Raise KeyError ↔ is_coloring g col = Raise KeyError) ∧
  (∀ e, is_equitable g col = Raise e → e = ValueError ∨ e = KeyError).
Proof.
  destruct (is_equitable_failures_cases g col) as [HV HF].
  destruct (is_equitable_propagates g col) as [Hprop Honly].
  split; [done|]. split; [done|]. split.
  - split; [|apply Hprop]. intros Hk.
    destruct (Honly _ Hk) as [[_ ?]|[[=] _]]. done.
  - intros e He. destruct (Honly _ He) as [[-> _]|[-> _]]; auto.
Qed.

(** ** The relabelling of lines 97-105 *)

Section Relabelling.
Implicit Types (g : graph) (σ : gmap nat graph).

Lemma foldl_index_lookup (ns : list nat) (a : nat) (m : gmap nat nat) (i : nat) :
  foldl (λ m p, <[p.1 := p.2]> m) m (zip (seq a (length ns)) ns) !! i =
    if decide (a ≤ i < a + length ns)%nat then ns !! (i - a)%nat else m !! i.
Proof.
  revert a m. induction ns as [|x ns IH]; intros a m.
  - simpl. by rewrite decide_False by lia.
  - cbn [length seq zip zip_with foldl]. rewrite IH. cbn [fst snd].
    destruct (decide (Datatypes.S a ≤ i < Datatypes.S a + length ns)%nat) as [Hi|Hi].
    + rewrite decide_True by (simpl; lia).
      replace (i - a)%nat with (Datatypes.S (i - Datatypes.S a)) by lia. done.
    + destruct (decide (i = a)) as [->|Hne].
      * rewrite lookup_insert_eq, decide_True by (simpl; lia).
        by rewrite Nat.sub_diag.
      * rewrite lookup_insert_ne by done. by rewrite decide_False by (simpl; lia).
Qed.

Lemma int_to_nodes_lookup g i : int_to_nodes g !! i = nodes g !! i.
Proof.
  unfold int_to_nodes. rewrite <- (length_nodes g), foldl_index_lookup.
  rewrite Nat.sub_0_r. case_decide as Hi; [done|].
  rewrite lookup_empty. symmetry. apply lookup_ge_None. lia.
Qed.

Lemma enumerate_nodes_Some g n i :
  NoDup (nodes g) → enumerate_nodes g !! n = Some i ↔ nodes g !! i = Some n.
Proof.
  intros Hnd. split; [|by apply enumerate_nodes_lookup].
  intros Hn. pose proof Hn as Hdom. unfold enumerate_nodes in Hdom.
  rewrite <- (length_nodes g) in Hdom.
  apply (foldl_enumerate_dom (λ x, x)) in Hdom as [Hin|Hin]; [|done].
  apply list_elem_of_lookup_1 in Hin as [j Hj].
  rewrite (enumerate_nodes_lookup _ _ _ Hnd Hj) in Hn. by simplify_eq.
Qed.

Lemma pad_frame G (k : Z) σ G' :
  G' ≠ G → (pad G k σ).2 !! G' = σ !! G'.
Proof.
  intros Hne. destruct (pad G k σ) as [[s|e] σ'] eqn:Hpad; simpl.
  - revert Hpad.
    unfold pad, bind, deref, update, modify, ret, lift, floordiv, nx_complete_graph.
    simpl. repeat case_bool_decide; intros [= <- <-]; try done.
    by rewrite lookup_insert_ne.
  - by apply pad_raises in Hpad as [-> _].
Qed.

Lemma equitable_color_store globals σ G (k : Z) :
  let g1 := relabel_nodes (default [] (σ !! G)) (enumerate_nodes (default [] (σ !! G))) in
  let σ1 := <[fresh (dom σ) := g1]> σ in
  (equitable_color globals G k σ).2 =
    if bool_decide (k ≤ max_degree g1) then σ1 else (pad (fresh (dom σ)) k σ1).2.
Proof.
  intros g1 σ1. unfold equitable_color, bind, deref, alloc, raise, lift, ret.
  simpl. rewrite lookup_insert_eq. simpl. fold g1. fold σ1.
  case_bool_decide; [done|].
  destruct (pad (fresh (dom σ)) k σ1) as [[s|e] σ2]; simpl; [|done].
  unfold list_range. case_bool_decide; simpl; [done|].
  by destruct (session _ _ _ _ _ _).1.
Qed.

End Relabelling.

(** X7.  The two dictionaries of lines 98-103 are inverse to each other:
    [nodes_to_int] sends a node to [idx] exactly when [int_to_nodes] sends
    [idx] to that node, and [int_to_nodes] has the keys [0 .. n-1]. *)
Theorem nodes_to_int_round_trip (g : graph) (n i : nat) :
  NoDup (nodes g) →
  (enumerate_nodes g !! n = Some i ↔ int_to_nodes g !! i = Some n) ∧
  (is_Some (int_to_nodes g !! i) ↔ (i < length g)%nat).
Proof.
  intros Hnd. rewrite int_to_nodes_lookup. split.
  - by apply enumerate_nodes_Some.
  - rewrite lookup_lt_is_Some. by rewrite length_nodes.
Qed.

Lemma nodes_to_int_round_trip_witness :
  NoDup (nodes far_pair) ∧
  (enumerate_nodes far_pair !! 40%nat = Some 3%nat ↔
   int_to_nodes far_pair !! 3%nat = Some 40%nat) ∧
  (is_Some (int_to_nodes far_pair !! 3%nat) ↔ (3 < length far_pair)%nat).
Proof.
  assert (NoDup (nodes far_pair)) as Hnd
    by (apply (bool_decide_unpack _); vm_compute; exact I).
  split; [exact Hnd|]. apply (nodes_to_int_round_trip far_pair 40 3 Hnd).
Defined.



(** The order does change: in the 4-cycle node 3 lists its neighbours as
    2, 0; the copy lists them as 0, 2, since the edge 0-3 comes before the
    edge 2-3 in [G.edges]. *)
Example relabelled_cycle4 :
  edges cycle4 = [(0, 1); (0, 3); (1, 2); (2, 3)]%nat ∧
  relabel_nodes cycle4 (enumerate_nodes cycle4) =
    [(0%nat, [1%nat; 3%nat]); (1%nat, [0%nat; 2%nat]);
     (2%nat, [1%nat; 3%nat]); (3%nat, [0%nat; 2%nat])].
Proof. vm_compute. done. Qed.

(** X9.  Whatever the outcome of the call, every graph object that existed
    before it is unchanged after it: the padding edges go to the relabelled
    copy, never to the caller's graph. *)
Theorem equitable_color_keeps_caller_graphs (globals : gmap string graph)
    (σ : gmap nat graph) (G : nat) (k : Z) (G' : nat) (g' : graph) :
  σ !! G' = Some g' → (equitable_color globals G k σ).2 !! G' = Some g'.
Proof.
  intros HG'. rewrite equitable_color_store. cbv zeta.
  assert (G' ≠ fresh (dom σ)) as Hne.
  { intros ->. apply (is_fresh (dom σ)). apply elem_of_dom. by rewrite HG'. }
  case_bool_decide.
  - by rewrite lookup_insert_ne.
  - rewrite pad_frame by done. by rewrite lookup_insert_ne.
Qed.

Lemma equitable_color_keeps_caller_graphs_witness :
  let σ : gmap nat graph := {[ 0%nat := cycle4; 7%nat := path3 ]} in
  σ !! 7%nat = Some path3 ∧ σ !! 0%nat = Some cycle4 ∧
  (equitable_color module_globals 0%nat 5 σ).2 !! 0%nat = Some cycle4.
Proof.
  split; [reflexivity|]. split; [reflexivity|].
  apply (equitable_color_keeps_caller_graphs module_globals
           {[ 0%nat := cycle4; 7%nat := path3 ]} 0%nat 5 0%nat cycle4).
  reflexivity.
Defined.



(** The three outcomes on small inputs: the single edge with two colours,
    the graph without nodes with two colours, and the graph without nodes
    with a palette beyond [maxsize]. *)
Example equitable_color_outcomes :
  (equitable_color module_globals 0%nat 2 {[ 0%nat := path2 ]}).1 = Raise TypeError ∧
  (equitable_color module_globals 0%nat 2 {[ 0%nat := [] ]}).1 = Ok PyNone ∧
  (equitable_color module_globals 0%nat (2 ^ 63) {[ 0%nat := [] ]}).1
    = Raise OverflowError.
Proof. vm_compute. done. Qed.
(** ** The padding of lines 121-130 *)

Section PaddedGraph.
Implicit Types (g : graph) (σ : gmap nat graph) (u v : nat) (l : list nat).

Lemma add_edges_keep_entry g (es : list (nat * nat)) u l :
  simple g → (∀ a b, (a, b) ∈ es → a ≠ b ∧ a ≠ u ∧ b ≠ u) →
  (u, l) ∈ g → (u, l) ∈ add_edges_from g es.
Proof.
  revert g. induction es as [|[a b] es IH]; intros g Hs Hes Hul; [done|].
  destruct (Hes a b) as (Hab & Ha & Hb); [left|].
  unfold add_edges_from. simpl. apply IH.
  - by apply simple_add_edge.
  - intros a' b' Hin. apply Hes. by right.
  - destruct (add_edge_keeps g a b u l Hul) as (l2 & Hl2 & _).
    destruct (add_edge_entry _ _ _ _ _ Hl2) as (l' & Hl' & _ & Hsame & _).
    rewrite Hsame in Hl2 by done.
    destruct Hl' as [Hl'|(_ & [?|?] & _)]; [|done..].
    by rewrite (entry_unique g Hs u l l' Hul Hl').
Qed.

(** The entries of the working graph: those of the relabelled copy, kept
    as they are, and phantoms with phantom neighbours. *)
Lemma working_graph_entries g0 (k : Z) :
  simple g0 → 0 < k →
  let g1 := relabel_nodes g0 (enumerate_nodes g0) in
  (∀ u l, (u, l) ∈ g1 → (u, l) ∈ working_graph g0 k) ∧
  (∀ u l, (u, l) ∈ working_graph g0 k →
     (u, l) ∈ g1 ∨ ((length g0 ≤ u)%nat ∧ ∀ v, v ∈ l → (length g0 ≤ v)%nat)).
Proof.
  intros Hs Hk g1. pose proof (simple_relabel g0 Hs) as Hs1.
  assert (∀ u, u ∈ nodes g1 → (u < length g0)%nat) as Hreal.
  { intros u Hu. unfold g1 in Hu. rewrite nodes_relabel_seq in Hu by done.
    apply elem_of_seq in Hu. lia. }
  rewrite (working_graph_cases g0 k Hs Hk). fold g1.
  case_bool_decide; [|by split; [|left]].
  set (p := Z.to_nat (k - Z.of_nat (length g0) `mod` k)).
  split.
  - intros u l Hul. apply add_edges_keep_entry; [done| |done].
    intros a b Hab%phantom_edge_bounds.
    pose proof (Hreal u (entry_is_node _ _ _ Hul)). lia.
  - intros u l Hul.
    destruct (add_phantom_edges g1 (length g0) p
                (edges (relabel_nodes (complete_graph p) (shift_by (length g0) p)))
                g1 Hreal) as [_ HJ]; [apply phantom_edge_bounds | done | by left |].
    destruct (HJ u l Hul) as [?|[Hu Hl]]; [by left|]. right.
    split; [lia|]. intros v Hv. specialize (Hl v Hv). lia.
Qed.

End PaddedGraph.



(** The single edge with a palette of [2 ^ 64] colours: the padding raises
    and the graph keeps its two nodes. *)
Example pad_overflow :
  let σ : gmap nat graph := {[ 0%nat := path2 ]} in
  pad 0%nat (2 ^ 64) σ = (Raise OverflowError, σ) ∧
  working_graph path2 (2 ^ 64) = path2.
Proof. vm_compute. done. Qed.

(** X12.  Padding the relabelled copy of a simple graph whose maximum
    degree is below the palette size keeps the graph simple and the maximum
    degree below the palette size, keeps every real node with exactly the
    neighbours it had, and gives a phantom node phantom neighbours only. *)
Theorem padding_keeps_real_graph (g0 : graph) (k : Z) :
  simple g0 → max_degree g0 < k →
  let g1 := relabel_nodes g0 (enumerate_nodes g0) in
  simple (working_graph g0 k) ∧ max_degree (working_graph g0 k) < k ∧
  (∀ u l, (u, l) ∈ g1 → (u, l) ∈ working_graph g0 k) ∧
  (∀ u l, (u, l) ∈ working_graph g0 k →
     (u, l) ∈ g1 ∨ ((length g0 ≤ u)%nat ∧ ∀ v, v ∈ l → (length g0 ≤ v)%nat)).
Proof.
  intros Hs Hdeg g1. pose proof (max_degree_nonneg g0).
  destruct (working_graph_simple g0 k Hs Hdeg) as [Hsw Hdw].
  destruct (working_graph_entries g0 k Hs) as [Hkeep Hnew]; [lia|].
  done.
Qed.

Lemma padding_keeps_real_graph_witness :
  let g1 := relabel_nodes far_pair (enumerate_nodes far_pair) in
  simple far_pair ∧ max_degree far_pair < 3 ∧
  simple (working_graph far_pair 3) ∧ max_degree (working_graph far_pair 3) < 3 ∧
  (∀ u l, (u, l) ∈ g1 → (u, l) ∈ working_graph far_pair 3) ∧
  (∀ u l, (u, l) ∈ working_graph far_pair 3 →
     (u, l) ∈ g1 ∨ ((length far_pair ≤ u)%nat ∧ ∀ v, v ∈ l → (length far_pair ≤ v)%nat)).
Proof.
  assert (simple far_pair) as Hs by (apply (bool_decide_unpack _); vm_compute; exact I).
  assert (max_degree far_pair < 3) as Hd by (vm_compute; reflexivity).
  split; [exact Hs|]. split; [exact Hd|].
  apply (padding_keeps_real_graph far_pair 3 Hs Hd).
Defined.

(** ** The initial assignment of line 140 *)

Section InitialPartition.
Variables (k c : Z).
Hypothesis Hk : 0 < k.
Hypothesis Hc : 0 ≤ c < k.

Local Abbreviation residue := (λ i : nat, Z.of_nat i `mod` k = c).

Lemma residue_distinct (i j : nat) :
  residue i → (i < j)%nat → (Z.of_nat j < Z.of_nat i + k) → ¬ residue j.
Proof using Hk.
  intros Hi Hlt Hnear Hj.
  pose proof (Z.div_mod (Z.of_nat i) k ltac:(lia)) as Hdi.
  pose proof (Z.div_mod (Z.of_nat j) k ltac:(lia)) as Hdj.
  rewrite Hi in Hdi. rewrite Hj in Hdj.
  set (qi := Z.of_nat i `div` k) in *. set (qj := Z.of_nat j `div` k) in *.
  assert (k * (qj - qi) = Z.of_nat j - Z.of_nat i) as Hdiff by lia.
  assert (0 < qj - qi) by nia. assert (qj - qi < 1) by nia. lia.
Qed.

Lemma residue_count_le (a m : nat) :
  Z.of_nat m ≤ k → (length (filter residue (seq a m)) ≤ 1)%nat.
Proof using Hk.
  revert a. induction m as [|m IH]; intros a Hm; [simpl; lia|].
  cbn [seq]. rewrite filter_cons. destruct (decide (residue a)) as [Ha|Ha].
  - rewrite (filter_none residue (seq (Datatypes.S a) m)); [simpl; lia|].
    intros j Hj%elem_of_seq. apply (residue_distinct a j Ha); lia.
  - apply IH. lia.
Qed.

Lemma residue_count_full (a : nat) :
  length (filter residue (seq a (Z.to_nat k))) = 1%nat.
Proof using Hk Hc.
  pose proof (residue_count_le a (Z.to_nat k) ltac:(lia)) as Hle.
  pose proof (Z.mod_pos_bound (c - Z.of_nat a) k Hk) as Hb.
  assert ((a + Z.to_nat ((c - Z.of_nat a) `mod` k))%nat
            ∈ filter residue (seq a (Z.to_nat k))) as Hin.
  { apply list_elem_of_filter. split; [|apply elem_of_seq; lia].
    rewrite Nat2Z.inj_add, Z2Nat.id by lia.
    rewrite Zplus_mod_idemp_r.
    replace (Z.of_nat a + (c - Z.of_nat a)) with c by lia.
    apply Z.mod_small. lia. }
  destruct (filter residue (seq a (Z.to_nat k))) as [|x l];
    [by apply elem_of_nil in Hin | simpl in *; lia].
Qed.

Lemma residue_count_blocks (q r a : nat) :
  length (filter residue (seq a (q * Z.to_nat k + r))) =
    (q + length (filter residue (seq (a + q * Z.to_nat k) r)))%nat.
Proof using Hk Hc.
  revert a. induction q as [|q IH]; intros a.
  - simpl. by rewrite Nat.add_0_r.
  - replace (Datatypes.S q * Z.to_nat k + r)%nat
      with (Z.to_nat k + (q * Z.to_nat k + r))%nat by lia.
    rewrite seq_app, filter_app, length_app, residue_count_full, IH.
    replace (a + Z.to_nat k + q * Z.to_nat k)%nat
      with (a + Datatypes.S q * Z.to_nat k)%nat by lia.
    lia.
Qed.

Lemma length_filter_fmap {A} (f : A → Z) (l : list A) :
  length (filter (λ x, x = c) (f <$> l)) = length (filter (λ i, f i = c) l).
Proof using Type.
  induction l as [|x l IH]; [done|].
  rewrite fmap_cons, !filter_cons.
  destruct (decide (f x = c)); simpl; by rewrite IH.
Qed.

Lemma map_to_list_initial_F (ns : list nat) :
  NoDup ns →
  map_to_list (initial_F ns k) ≡ₚ
    zip ns ((λ i : nat, Z.of_nat i `mod` k) <$> seq 0 (length ns)).
Proof using Type.
  intros Hnd. apply NoDup_Permutation.
  - apply NoDup_map_to_list.
  - apply (NoDup_fmap_1 fst).
    rewrite fst_zip by (by rewrite length_fmap, length_seq). done.
  - intros [n x]. rewrite elem_of_map_to_list, elem_of_lookup_zip_with. split.
    + intros Hn.
      assert (n ∈ ns) as [i Hi]%list_elem_of_lookup_1.
      { destruct (decide (n ∈ ns)) as [?|Hnin]; [done|].
        unfold initial_F in Hn.
        by rewrite (foldl_enumerate_notin (λ j, Z.of_nat j `mod` k)) in Hn. }
      rewrite (initial_F_lookup _ _ _ _ Hnd Hi) in Hn. simplify_eq.
      exists i, n, (Z.of_nat i `mod` k). split; [done|]. split; [done|].
      rewrite list_lookup_fmap, lookup_seq_lt by (by eapply lookup_lt_Some). done.
    + intros (i & n' & x' & [= -> ->] & Hi & Hx).
      rewrite list_lookup_fmap in Hx.
      destruct (seq 0 (length ns) !! i) as [j|] eqn:Hj; [|done].
      apply lookup_seq in Hj as [-> _]. simpl in Hx. simplify_eq.
      by apply initial_F_lookup.
Qed.

Lemma class_size_initial_F (ns : list nat) :
  NoDup ns →
  class_size (initial_F ns k) c =
    Z.of_nat (length (filter residue (seq 0 (length ns)))).
Proof using Type.
  intros Hnd. unfold class_size.
  rewrite (map_to_list_initial_F ns Hnd).
  rewrite snd_zip by (by rewrite length_fmap, length_seq).
  by rewrite length_filter_fmap.
Qed.

End InitialPartition.

(** X13.  The initial assignment gives the [i]-th node the colour
    [i mod k], and it is balanced whatever the number [n] of nodes: every
    colour of the palette gets [n div k] or [n div k + 1] nodes, and exactly
    [n div k] when [n] is a multiple of [k]. *)
Theorem initial_partition_balanced (ns : list nat) (k c : Z) :
  NoDup ns → 0 < k → 0 ≤ c < k →
  let n := Z.of_nat (length ns) in
  (∀ i node, ns !! i = Some node →
     initial_F ns k !! node = Some (Z.of_nat i `mod` k)) ∧
  n `div` k ≤ class_size (initial_F ns k) c ≤ n `div` k + 1 ∧
  (n `mod` k = 0 → class_size (initial_F ns k) c = n `div` k).
Proof.
  intros Hnd Hk Hc n. split; [intros i node Hi; by apply initial_F_lookup|].
  rewrite (class_size_initial_F k c ns Hnd).
  pose proof (Z.div_mod n k ltac:(lia)) as Hdm.
  pose proof (Z.mod_pos_bound n k Hk) as Hb.
  assert (0 ≤ n `div` k) as Hq by (apply Z.div_pos; lia).
  replace (length ns) with (Z.to_nat (n `div` k) * Z.to_nat k + Z.to_nat (n `mod` k))%nat
    by nia.
  rewrite (residue_count_blocks k c Hk Hc).
  pose proof (residue_count_le k c Hk (0 + Z.to_nat (n `div` k) * Z.to_nat k)
                (Z.to_nat (n `mod` k)) ltac:(lia)) as Hle.
  split; [lia|]. intros Hmod. rewrite Hmod. simpl. lia.
Qed.

Lemma initial_partition_balanced_witness :
  let ns := [0; 1; 2; 3; 4]%nat in
  let n := Z.of_nat (length ns) in
  NoDup ns ∧
  (∀ i node, ns !! i = Some node →
     initial_F ns 3 !! node = Some (Z.of_nat i `mod` 3)) ∧
  n `div` 3 ≤ class_size (initial_F ns 3) 2 ≤ n `div` 3 + 1 ∧
  (n `mod` 3 = 0 → class_size (initial_F ns 3) 2 = n `div` 3).
Proof.
  assert (NoDup [0; 1; 2; 3; 4]%nat) as Hnd
    by (apply (bool_decide_unpack _); vm_compute; exact I).
  split; [exact Hnd|].
  apply (initial_partition_balanced [0; 1; 2; 3; 4]%nat 3 2 Hnd); lia.
Defined.

(** ** The outcome of the driver loop *)

(** X14.  The loop of lines 153-204 on the working graph of a simple graph
    with a palette larger than its maximum degree, from the tables of lines
    140-150: it never raises [IndexError] or [KeyError].  It runs to its
    end, with [F] still the initial assignment, exactly when [is_coloring]
    accepts the initial assignment.  Otherwise it stops at the first node
    [u], in the order of [G.nodes], that has a neighbour of its own colour:
    the nodes before [u] have none, [F] is the initial assignment but for
    [F[u]], which is the least colour of the palette that no neighbour of
    [u] has, and the run ends in the [NameError] of [change_color]. *)
Theorem driver_outcome (g0 : graph) (k s : Z) (C : gmap Z (list nat)) :
  simple g0 → max_degree g0 < k →
  let g := working_graph g0 k in
  let F0 := initial_F (nodes g) k in
  let out := driver module_globals g (range k) (tables_at_driver g k s C) in
  (is_coloring g F0 = Ok true → out.1 = Ok tt ∧ tF out.2 = F0) ∧
  (is_coloring g F0 ≠ Ok true →
     out.1 = Raise (NameError "G") ∧
     ∃ pre u post Y,
       nodes g = pre ++ u :: post ∧
       (∀ w, w ∈ pre → ¬ clashes g F0 w) ∧ clashes g F0 u ∧
       least_free g F0 k u Y ∧ tF out.2 = <[u := Y]> F0).
Proof.
  intros Hs Hd g F0 out.
  destruct (working_graph_simple g0 k Hs Hd) as [Hsw Hdw]. fold g in Hsw, Hdw.
  destruct (driver_outcome_from g k Hsw Hdw (tables_at_driver g k s C) (nodes g))
    as [[Hnone (t' & Hr & HF)]
       |(pre & u & post & Y & t' & Hnodes & Hpre & Hu & HY & Hr & HF)];
    [apply scan_inv_initial | apply nonneg_initial | done | |].
  - assert (is_coloring g F0 = Ok true) as Hgood.
    { rewrite (is_coloring_adjacent g _ Hsw). intros u l v Hul Hv.
      destruct (initial_color g k Hsw Hdw u) as (cu & Hcu & _);
        [by eapply entry_is_node|].
      destruct (initial_color g k Hsw Hdw v) as (cv & Hcv & _);
        [by eapply neighbor_is_node|].
      exists cu, cv. split; [done|]. split; [done|]. intros ->.
      apply (Hnone u); [by eapply entry_is_node|].
      exists l, v. split; [done|]. split; [done|]. congruence. }
    split; [|done]. intros _. unfold out, driver. rewrite Hr. done.
  - assert (is_coloring g F0 ≠ Ok true) as Hbad.
    { rewrite (is_coloring_adjacent g _ Hsw). intros Hall.
      destruct Hu as (l & v & Hul & Hv & Hc).
      destruct (Hall u l v Hul Hv) as (cu & cv & Hcu & Hcv & Hne).
      unfold F0 in *. congruence. }
    split; [done|]. intros _. unfold out, driver. rewrite Hr. simpl.
    split; [done|]. by exists pre, u, post, Y.
Qed.

Lemma driver_outcome_witness :
  let g := working_graph far_pair 3 in
  let F0 := initial_F (nodes g) 3 in
  let out := driver module_globals g (range 3) (tables_at_driver g 3 2 ∅) in
  simple far_pair ∧ max_degree far_pair < 3 ∧
  (is_coloring g F0 = Ok true → out.1 = Ok tt ∧ tF out.2 = F0) ∧
  (is_coloring g F0 ≠ Ok true →
     out.1 = Raise (NameError "G") ∧
     ∃ pre u post Y,
       nodes g = pre ++ u :: post ∧
       (∀ w, w ∈ pre → ¬ clashes g F0 w) ∧ clashes g F0 u ∧
       least_free g F0 3 u Y ∧ tF out.2 = <[u := Y]> F0).
Proof.
  assert (simple far_pair) as Hs by (apply (bool_decide_unpack _); vm_compute; exact I).
  assert (max_degree far_pair < 3) as Hd by (vm_compute; reflexivity).
  split; [exact Hs|]. split; [exact Hd|].
  apply (driver_outcome far_pair 3 2 ∅ Hs Hd).
Defined.

(** On that graph the initial assignment gives the colour 0 to the nodes 0
    and 3, which are adjacent: the loop stops at node 0, the first node,
    and has given it the colour 1. *)
Example driver_stops_at_first_clash :
  let g := working_graph far_pair 3 in
  let out := driver module_globals g (range 3) (tables_at_driver g 3 2 ∅) in
  is_coloring g (initial_F (nodes g) 3) = Ok false ∧
  out.1 = Raise (NameError "G") ∧
  tF out.2 = <[0%nat := 1]> (initial_F (nodes g) 3).
Proof. vm_compute. done. Qed.

(** ** Procedure P as a whole *)

Section ProcedureP.
Variables (colors : list Z) (V_minus : Z) (t : tables).

Local Abbreviation layer :=
  (filter (λ c, 0 < default 0 (tH t !! (V_minus, c))) colors).

Lemma witnessed_from_missing (cs : list Z) c :
  c ∈ cs → tH t !! (V_minus, c) = None →
  witnessed_from V_minus cs t = (Raise KeyError, t).
Proof using Type.
  unfold witnessed_from. induction cs as [|x cs IH]; intros Hin Hc;
    [by apply elem_of_nil in Hin|].
  cbn [filter_m].
  destruct (tH t !! (V_minus, x)) as [h|] eqn:Hx.
  - apply elem_of_cons in Hin as [->|Hin]; [congruence|].
    rewrite (bind_Ok _ _ t (bool_decide (0 < h)) t);
      [|unfold bind, H_get, py_lookup, ret; by rewrite Hx].
    apply bind_Raise. by apply IH.
  - apply bind_Raise. unfold bind, H_get, py_lookup. by rewrite Hx.
Qed.

Lemma procedure_P_missing_key Y c :
  c ∈ colors → tH t !! (V_minus, c) = None →
  procedure_P colors V_minus Y t = (Raise KeyError, t).
Proof using Type.
  intros Hin Hc. unfold procedure_P, search_fuel. cbn [search_loop].
  cbn [search_start reachable idx]. change ([V_minus] !! 0%nat) with (Some V_minus).
  cbv iota. apply bind_Raise, bind_Raise. by apply (witnessed_from_missing colors c).
Qed.

Hypothesis Hkeys : ∀ c, c ∈ colors → is_Some (tH t !! (V_minus, c)).
Hypothesis Hnodup : NoDup colors.

Lemma record_layer_lookup (pop dst : Z) (ly : list Z) (T : gmap Z (list Z)) :
  NoDup ly →
  record_layer pop ly T !! dst =
    if decide (dst ∈ ly) then Some (default [] (T !! dst) ++ [pop]) else T !! dst.
Proof using Type.
  unfold record_layer. revert T. induction ly as [|x ly IH]; intros T Hnd.
  - by rewrite decide_False by (by intros ?%elem_of_nil).
  - apply NoDup_cons in Hnd as [Hx Hnd]. cbn [foldl]. rewrite (IH _ Hnd).
    destruct (decide (dst ∈ ly)) as [Hin|Hnin].
    + rewrite decide_True by (by right).
      by rewrite lookup_insert_ne by (by intros ->).
    + destruct (decide (x = dst)) as [->|Hne].
      * rewrite decide_True by left. by rewrite lookup_insert_eq.
      * rewrite decide_False by (by intros [?|?]%elem_of_cons).
        by rewrite lookup_insert_ne.
Qed.

Local Abbreviation search_logs := (search_logs colors V_minus t).

Lemma search_loop_logs fuel st st' t' :
  search_loop fuel colors V_minus st t = (Ok st', t') →
  search_logs st → search_logs st'.
Proof using Hkeys Hnodup.
  revert st. induction fuel as [|fuel IH]; intros st Hrun Hlogs.
  - cbn [search_loop] in Hrun. unfold ret in Hrun. by simplify_eq.
  - cbn [search_loop] in Hrun.
    destruct (reachable st !! idx st) as [pop|] eqn:Hpop;
      [|unfold ret in Hrun; by simplify_eq].
    rewrite (bind_Ok _ _ _ _ _ (witnessed_from_run colors V_minus t Hkeys)) in Hrun.
    apply IH in Hrun; [done|]. destruct Hlogs as (Hne & HR & HT).
    split; [|split]; cbn [reachable idx R_cal T_cal].
    + by destruct (reachable st).
    + rewrite (take_S_r _ _ pop) by (by apply lookup_app_l_Some).
      rewrite take_app_le by (apply lookup_lt_Some in Hpop; lia).
      by rewrite HR.
    + intros dst.
      rewrite record_layer_lookup by (by apply NoDup_filter).
      rewrite HT. destruct (decide (dst ∈ layer)) as [Hin|Hnin].
      * rewrite (decide_True (P := dst ∈ layer ∧ R_cal st ++ [pop] ≠ []))
          by (split; [done | by destruct (R_cal st)]).
        destruct (decide (dst ∈ layer ∧ R_cal st ≠ [])) as [[_ ?]|Hn]; [done|].
        assert (R_cal st = []) as ->; [|done].
        destruct (R_cal st); [done|]. destruct Hn. by split.
      * rewrite decide_False by tauto. by rewrite decide_False by tauto.
Qed.

Lemma search_logs_start : search_logs (search_start V_minus).
Proof using Type.
  split; [done|]. split; [done|]. intros dst. cbn [search_start T_cal R_cal].
  rewrite lookup_empty. by rewrite decide_False by tauto.
Qed.

End ProcedureP.

(** X15.  When [H] has an entry for every pair of the start colour with a
    colour of the palette, Procedure P ends (within the fuel of the model),
    leaves the tables as they are, and computes as [A_cal] the start colour
    together with the colours for which the start colour itself has a
    witness; the easy case is taken exactly when [V_plus] is one of those. *)
Theorem procedure_P_result (colors : list Z) (X Y : Z) (t : tables) :
  (∀ c, c ∈ colors → is_Some (tH t !! (X, c))) →
  ∃ st taken,
    procedure_P colors X Y t = (Ok (st, taken), t) ∧ finished st ∧
    (∀ c, c ∈ A_cal st ↔ c = X ∨ (c ∈ colors ∧ 0 < default 0 (tH t !! (X, c)))) ∧
    (taken = EasyCase ↔ Y = X ∨ (Y ∈ colors ∧ 0 < default 0 (tH t !! (X, Y)))).
Proof.
  intros Hkeys.
  destruct (search_loop_result colors X t Hkeys) as (st & Hrun & Hfin & HA).
  exists st, (if bool_decide (Y ∈ A_cal st) then EasyCase else RoughCase).
  unfold procedure_P. rewrite (bind_Ok _ _ _ _ _ Hrun).
  split; [done|]. split; [done|]. split; [done|].
  rewrite <- HA. case_bool_decide; split; (done || tauto).
Qed.

Lemma procedure_P_result_witness :
  (∀ c, c ∈ range 3 → is_Some (chain_H !! (0, c))) ∧
  ∃ st taken,
    procedure_P (range 3) 0 2 (Tables ∅ chain_H ∅ ∅)
      = (Ok (st, taken), Tables ∅ chain_H ∅ ∅) ∧ finished st ∧
    (∀ c, c ∈ A_cal st ↔
          c = 0 ∨ (c ∈ range 3 ∧ 0 < default 0 (chain_H !! (0, c)))) ∧
    (taken = EasyCase ↔
     2 = 0 ∨ (2 ∈ range 3 ∧ 0 < default 0 (chain_H !! (0, 2)))).
Proof.
  assert (∀ c, c ∈ range 3 → is_Some (chain_H !! (0, c))) as Hkeys.
  { intros c Hc%elem_of_range. unfold chain_H.
    apply lookup_insert_is_Some'. right. apply lookup_insert_is_Some'. right.
    rewrite initial_H_lookup by lia. eauto. }
  split; [exact Hkeys|].
  apply (procedure_P_result (range 3) 0 2 (Tables ∅ chain_H ∅ ∅) Hkeys).
Defined.

(** X16.  When [H] lacks the entry of the start colour with some colour of
    the palette, Procedure P raises [KeyError] in its first iteration and
    leaves the tables as they are. *)
Theorem procedure_P_key_error (colors : list Z) (X Y c : Z) (t : tables) :
  c ∈ colors → tH t !! (X, c) = None →
  procedure_P colors X Y t = (Raise KeyError, t).
Proof. apply procedure_P_missing_key. Qed.

Lemma procedure_P_key_error_witness :
  2 ∈ range 3 ∧ initial_H 2 1 !! (0, 2) = None ∧
  procedure_P (range 3) 0 1 (Tables ∅ (initial_H 2 1) ∅ ∅)
    = (Raise KeyError, Tables ∅ (initial_H 2 1) ∅ ∅).
Proof.
  assert (2 ∈ range 3) as Hin by (apply elem_of_range; lia).
  assert (initial_H 2 1 !! (0, 2) = None) as Hnone by (vm_compute; reflexivity).
  split; [exact Hin|]. split; [exact Hnone|].
  apply (procedure_P_key_error (range 3) 0 1 2 (Tables ∅ (initial_H 2 1) ∅ ∅) Hin Hnone).
Defined.

(** X17.  At the end of the search [R_cal] is the whole queue, in the
    order of dequeuing.  [T_cal] has an entry for exactly the colours of
    the palette that the start colour has a witness for, and each of these
    entries, a list of its own, has the elements of [R_cal] in the order of
    [R_cal]: every dequeued colour is logged as a predecessor of each of
    them. *)
Theorem procedure_P_logs (colors : list Z) (X Y : Z) (t : tables) :
  NoDup colors → (∀ c, c ∈ colors → is_Some (tH t !! (X, c))) →
  ∃ st taken,
    procedure_P colors X Y t = (Ok (st, taken), t) ∧
    R_cal st = reachable st ∧ R_cal st ≠ [] ∧
    ∀ dst, T_cal st !! dst =
      if decide (dst ∈ colors ∧ 0 < default 0 (tH t !! (X, dst)))
      then Some (R_cal st) else None.
Proof.
  intros Hnd Hkeys.
  destruct (search_loop_result colors X t Hkeys) as (st & Hrun & Hfin & HA).
  exists st, (if bool_decide (Y ∈ A_cal st) then EasyCase else RoughCase).
  unfold procedure_P. rewrite (bind_Ok _ _ _ _ _ Hrun). split; [done|].
  destruct (search_loop_logs colors X t Hkeys Hnd _ _ _ _ Hrun
              (search_logs_start colors X t)) as (Hne & HR & HT).
  assert (R_cal st = reachable st) as HRq.
  { rewrite HR. apply take_ge. apply lookup_ge_None. exact Hfin. }
  split; [done|]. split; [by rewrite HRq|].
  intros dst. rewrite HT.
  destruct (decide (dst ∈ colors ∧ 0 < default 0 (tH t !! (X, dst)))) as [Hd|Hd].
  - rewrite decide_True; [done|]. split; [apply list_elem_of_filter; tauto|].
    by rewrite HRq.
  - rewrite decide_False; [done|]. intros [Hin%list_elem_of_filter _]. tauto.
Qed.

Lemma procedure_P_logs_witness :
  NoDup (range 3) ∧ (∀ c, c ∈ range 3 → is_Some (initial_H 3 1 !! (0, c))) ∧
  ∃ st taken,
    procedure_P (range 3) 0 2 (Tables ∅ (initial_H 3 1) ∅ ∅)
      = (Ok (st, taken), Tables ∅ (initial_H 3 1) ∅ ∅) ∧
    R_cal st = reachable st ∧ R_cal st ≠ [] ∧
    ∀ dst, T_cal st !! dst =
      if decide (dst ∈ range 3 ∧ 0 < default 0 (initial_H 3 1 !! (0, dst)))
      then Some (R_cal st) else None.
Proof.
  assert (∀ c, c ∈ range 3 → is_Some (initial_H 3 1 !! (0, c))) as Hkeys.
  { intros c Hc%elem_of_range. rewrite initial_H_lookup by lia. eauto. }
  split; [apply NoDup_range|]. split; [exact Hkeys|].
  apply (procedure_P_logs (range 3) 0 2 (Tables ∅ (initial_H 3 1) ∅ ∅)
           (NoDup_range 3) Hkeys).
Defined.

(** ** What [change_color] leaves alone *)

Section Frames.
Context {S : Type} (R : S → S → Prop).
Hypothesis Hrefl : ∀ s, R s s.
Hypothesis Htrans : ∀ s1 s2 s3, R s1 s2 → R s2 s3 → R s1 s3.

Lemma bind_rel {A B} (m : M S A) (f : A → M S B) :
  (∀ s r s', m s = (r, s') → R s s') →
  (∀ a s r s', f a s = (r, s') → R s s') →
  ∀ s r s', bind m f s = (r, s') → R s s'.
Proof using Htrans.
  intros Hm Hf s r s'. unfold bind.
  destruct (m s) as [[a|e] s1] eqn:Hms.
  - intros Hk. eapply Htrans; [by eapply Hm | by eapply Hf].
  - intros [= <- <-]. by eapply Hm.
Qed.

Lemma for_each_rel {A} (l : list A) (body : A → M S unit) :
  (∀ x s r s', x ∈ l → body x s = (r, s') → R s s') →
  ∀ s r s', for_each l body s = (r, s') → R s s'.
Proof using Hrefl Htrans.
  induction l as [|x l IH]; intros Hbody s r s'.
  - intros [= <- <-]. apply Hrefl.
  - cbn [for_each]. apply bind_rel.
    + intros s0 r0 s0'. apply Hbody. left.
    + intros _. apply IH. intros y s0 r0 s0' Hy. apply Hbody. by right.
Qed.

Lemma ret_rel {A} (a : A) s r s' : ret a s = (r, s') → R s s'.
Proof using Hrefl. intros [= <- <-]. apply Hrefl. Qed.

Lemma raise_rel {A} e s (r : result A) s' : raise e s = (r, s') → R s s'.
Proof using Hrefl. intros [= <- <-]. apply Hrefl. Qed.

End Frames.

Section ChangeColorFrame.
Variables (X Y : Z).

(** The entries of the tables that belong to a colour other than [X] and
    [Y] are the same in both states, and so is [F]. *)
Local Abbreviation others_kept := (λ t t' : tables,
  tF t' = tF t ∧
  (∀ a b, b ≠ X → b ≠ Y → tH t' !! (a, b) = tH t !! (a, b)) ∧
  (∀ w c, c ≠ X → c ≠ Y → tN t' !! (w, c) = tN t !! (w, c)) ∧
  (∀ c, c ≠ X → c ≠ Y → tC t' !! c = tC t !! c)).

Lemma others_kept_refl t : others_kept t t.
Proof using Type. done. Qed.

Lemma others_kept_trans t1 t2 t3 :
  others_kept t1 t2 → others_kept t2 t3 → others_kept t1 t3.
Proof using Type.
  intros (HF1 & HH1 & HN1 & HC1) (HF2 & HH2 & HN2 & HC2).
  split; [congruence|]. split; [|split].
  - intros a b ? ?. rewrite HH2, HH1; done.
  - intros w c ? ?. rewrite HN2, HN1; done.
  - intros c ? ?. rewrite HC2, HC1; done.
Qed.

Lemma F_get_kept v t r t' : F_get v t = (r, t') → others_kept t t'.
Proof using Type. intros ->%F_get_state. apply others_kept_refl. Qed.

Lemma N_get_kept key t r t' : N_get key t = (r, t') → others_kept t t'.
Proof using Type. intros ->%N_get_state. apply others_kept_refl. Qed.

Lemma N_add_kept v c d t r t' :
  c = X ∨ c = Y → N_add (v, c) d t = (r, t') → others_kept t t'.
Proof using Type.
  intros Hc. unfold N_add, N_get, bind, modify, py_lookup.
  destruct (tN t !! (v, c)) as [x|]; intros [= <- <-]; [|apply others_kept_refl].
  split; [done|]. split; [done|]. split; [|done].
  intros w c' ? ?. simpl. apply lookup_insert_ne. intros [= -> ->]. tauto.
Qed.

Lemma H_add_kept a c d t r t' :
  c = X ∨ c = Y → H_add (a, c) d t = (r, t') → others_kept t t'.
Proof using Type.
  intros Hc. unfold H_add, H_get, bind, modify, py_lookup.
  destruct (tH t !! (a, c)) as [x|]; intros [= <- <-]; [|apply others_kept_refl].
  split; [done|]. split; [|done].
  intros a' b ? ?. simpl. apply lookup_insert_ne. intros [= -> ->]. tauto.
Qed.

Lemma C_remove_kept u t r t' : C_remove X u t = (r, t') → others_kept t t'.
Proof using Type.
  unfold C_remove. destruct (list_remove u _); intros [= <- <-];
    (split; [done|]; split; [done|]; split; [done|]);
    intros c ? ?; simpl; by apply lookup_insert_ne.
Qed.

Lemma C_append_kept u t r t' : C_append Y u t = (r, t') → others_kept t t'.
Proof using Type.
  unfold C_append, modify. intros [= <- <-].
  split; [done|]. split; [done|]. split; [done|].
  intros c ? ?. simpl. by apply lookup_insert_ne.
Qed.

Lemma change_color_kept globals u t r t' :
  change_color globals u X Y t = (r, t') →
  tF t' = <[u := Y]> (tF t) ∧
  (∀ a b, b ≠ X → b ≠ Y → tH t' !! (a, b) = tH t !! (a, b)) ∧
  (∀ w c, c ≠ X → c ≠ Y → tN t' !! (w, c) = tN t !! (w, c)) ∧
  (∀ c, c ≠ X → c ≠ Y → tC t' !! c = tC t !! c).
Proof using Type.
  unfold change_color. unfold bind at 1. unfold F_set at 1, modify at 1.
  intros Hrest.
  assert (others_kept (set_F <[u := Y]> t) t') as Hk; [|exact Hk].
  revert Hrest. generalize (set_F <[u := Y]> t). intros t1. revert t1 r t'.
  pose proof others_kept_refl as Hr. pose proof others_kept_trans as Ht.
  apply (bind_rel _ Ht); [intros ? ? ?; apply H_add_kept; auto|]. intros _.
  apply (bind_rel _ Ht); [intros ? ? ?; apply H_add_kept; auto|]. intros _.
  apply (bind_rel _ Ht).
  { intros s r s'. unfold lookup_global.
    destruct (globals !! _); [apply (ret_rel _ Hr) | apply (raise_rel _ Hr)]. }
  intros G.
  apply (bind_rel _ Ht); [unfold lift; intros s r s' [= <- <-]; apply Hr|].
  intros nbrs. apply (bind_rel _ Ht).
  { apply (for_each_rel _ Hr Ht). intros v s r s' _. revert s r s'.
    apply (bind_rel _ Ht); [intros ? ? ?; apply N_add_kept; auto|]. intros _.
    apply (bind_rel _ Ht); [intros ? ? ?; apply N_add_kept; auto|]. intros _.
    apply (bind_rel _ Ht); [intros ? ? ?; apply N_get_kept|]. intros nx.
    apply (bind_rel _ Ht).
    { case_bool_decide; [|apply (ret_rel _ Hr)].
      apply (bind_rel _ Ht); [intros ? ? ?; apply F_get_kept|]. intros fv.
      intros ? ? ?. apply H_add_kept; auto. }
    intros _. apply (bind_rel _ Ht); [intros ? ? ?; apply N_get_kept|]. intros ny.
    case_bool_decide; [|apply (ret_rel _ Hr)].
    apply (bind_rel _ Ht); [intros ? ? ?; apply F_get_kept|]. intros fv.
    intros ? ? ?. apply H_add_kept; auto. }
  intros _. apply (bind_rel _ Ht); [intros ? ? ?; apply C_remove_kept|].
  intros _. intros ? ? ?. apply C_append_kept.
Qed.

End ChangeColorFrame.


(** X18. Whatever the tables, the namespace and the outcome (normal end or
    exception) of [change_color(u, X, Y, ...)], the tables it leaves behind
    have [F] equal to the old [F] with [u] set to [Y] and nothing else
    changed, and every entry of [H], [N] and [C] that belongs to a colour
    other than [X] and [Y] is as before the call (present with the same
    value, or absent). *)
Theorem change_color_frame (globals : gmap string graph) (u : nat) (X Y : Z)
    (t : tables) :
  let t' := (change_color globals u X Y t).2 in
  tF t' = <[u := Y]> (tF t) ∧
  (∀ a b, b ≠ X → b ≠ Y → tH t' !! (a, b) = tH t !! (a, b)) ∧
  (∀ w c, c ≠ X → c ≠ Y → tN t' !! (w, c) = tN t !! (w, c)) ∧
  (∀ c, c ≠ X → c ≠ Y → tC t' !! c = tC t !! c).
Proof.
  intros t'. subst t'.
  destruct (change_color globals u X Y t) as [r t'] eqn:Hrun.
  exact (change_color_kept X Y globals u t r t' Hrun).
Qed.

(** ** What a call of [change_color] that returns has done *)

Section ChangeColorRun.
Variables (globals : gmap string graph) (u : nat) (X Y : Z).

Local Abbreviation NC_kept := (λ t t' : tables, tN t' = tN t ∧ tC t' = tC t).

(** The number of times [w] occurs in a list of neighbours. *)
Local Abbreviation occ := (λ (w : nat) (l : list nat),
  Z.of_nat (length (filter (λ v, v = w) l))).

(** The body of the loop over the neighbours of [u]. *)
Local Abbreviation neighbour_body := (λ v : nat,
  N_add (v, X) (-1) ;;
  N_add (v, Y) 1 ;;
  nx <- N_get (v, X) ;;
  (if bool_decide (nx = 0) then fv <- F_get v ;; H_add (fv, X) 1 else ret tt) ;;
  ny <- N_get (v, Y) ;;
  (if bool_decide (ny = 1) then fv <- F_get v ;; H_add (fv, Y) (-1) else ret tt)).

Lemma NC_kept_refl t : NC_kept t t.
Proof using Type. done. Qed.

Lemma NC_kept_trans t1 t2 t3 : NC_kept t1 t2 → NC_kept t2 t3 → NC_kept t1 t3.
Proof using Type. intros [? ?] [? ?]. split; congruence. Qed.

Lemma H_add_others key d t r t' :
  H_add key d t = (r, t') → tN t' = tN t ∧ tF t' = tF t ∧ tC t' = tC t.
Proof using Type.
  unfold H_add, H_get, bind, modify, py_lookup.
  destruct (tH t !! key); by intros [= <- <-].
Qed.

Lemma N_add_Ok key d t t' :
  N_add key d t = (Ok tt, t') →
  ∃ x, tN t !! key = Some x ∧ tN t' = <[key := x + d]> (tN t) ∧ tC t' = tC t.
Proof using Type.
  unfold N_add, N_get, bind, modify, py_lookup.
  destruct (tN t !! key) as [x|]; [|done]. intros [= <-]. by exists x.
Qed.

Lemma witness_updates_kept v t r t' :
  (nx <- N_get (v, X) ;;
   (if bool_decide (nx = 0) then fv <- F_get v ;; H_add (fv, X) 1 else ret tt) ;;
   ny <- N_get (v, Y) ;;
   (if bool_decide (ny = 1) then fv <- F_get v ;; H_add (fv, Y) (-1) else ret tt))
    t = (r, t') →
  NC_kept t t'.
Proof using Type.
  pose proof NC_kept_refl as Hr. pose proof NC_kept_trans as Ht.
  assert (∀ key d s r0 s', H_add key d s = (r0, s') → NC_kept s s') as HH.
  { intros key d s r0 s' Hrun. apply H_add_others in Hrun. tauto. }
  assert (∀ w s r0 s', F_get w s = (r0, s') → NC_kept s s') as HF.
  { intros w s r0 s' ->%F_get_state. apply Hr. }
  assert (∀ key s r0 s', N_get key s = (r0, s') → NC_kept s s') as HN.
  { intros key s r0 s' ->%N_get_state. apply Hr. }
  revert t r t'.
  apply (bind_rel _ Ht); [apply HN|]. intros nx.
  apply (bind_rel _ Ht).
  { case_bool_decide; [|apply (ret_rel _ Hr)].
    apply (bind_rel _ Ht); [apply HF|]. intros fv. apply HH. }
  intros _. apply (bind_rel _ Ht); [apply HN|]. intros ny.
  case_bool_decide; [|apply (ret_rel _ Hr)].
  apply (bind_rel _ Ht); [apply HF|]. intros fv. apply HH.
Qed.

Lemma occ_cons w v l :
  occ w (v :: l) = (if decide (v = w) then 1 else 0) + occ w l.
Proof using Type.
  cbv beta. rewrite filter_cons. destruct (decide (v = w)); cbn [length]; lia.
Qed.

Lemma neighbour_body_Ok v t t' :
  X ≠ Y → neighbour_body v t = (Ok tt, t') →
  tC t' = tC t ∧
  ∀ w, tN t' !! (w, X) =
         (λ x, x - (if decide (v = w) then 1 else 0)) <$> tN t !! (w, X) ∧
       tN t' !! (w, Y) =
         (λ y, y + (if decide (v = w) then 1 else 0)) <$> tN t !! (w, Y).
Proof using Type.
  intros HXY Hrun.
  apply bind_Ok_inv in Hrun as ([] & t1 & H1 & Hrun).
  apply bind_Ok_inv in Hrun as ([] & t2 & H2 & Hrun).
  apply N_add_Ok in H1 as (x & Hx & HN1 & HC1).
  apply N_add_Ok in H2 as (y & Hy & HN2 & HC2).
  apply witness_updates_kept in Hrun as [HN3 HC3].
  split; [congruence|]. intros w. rewrite HN3, HN2, HN1.
  rewrite HN1 in Hy.
  rewrite lookup_insert_ne in Hy by (intros [= ?]; congruence).
  destruct (decide (v = w)) as [->|Hvw].
  - rewrite (lookup_insert_ne _ (w, Y) (w, X)) by (intros [= ?]; congruence).
    rewrite !lookup_insert_eq, Hx, Hy. cbn. split; f_equal; lia.
  - rewrite !lookup_insert_ne by congruence.
    split.
    + destruct (tN t !! (w, X)); cbn [fmap option_fmap option_map];
        [f_equal; lia | done].
    + destruct (tN t !! (w, Y)); cbn [fmap option_fmap option_map];
        [f_equal; lia | done].
Qed.

Lemma neighbour_loop_Ok l t t' :
  X ≠ Y → for_each l neighbour_body t = (Ok tt, t') →
  tC t' = tC t ∧
  ∀ w, tN t' !! (w, X) = (λ x, x - occ w l) <$> tN t !! (w, X) ∧
       tN t' !! (w, Y) = (λ y, y + occ w l) <$> tN t !! (w, Y).
Proof using Type.
  intros HXY. revert t. induction l as [|v l IH]; intros t Hrun.
  - cbn in Hrun. unfold ret in Hrun. injection Hrun as <-.
    split; [done|]. intros w. cbv beta. rewrite filter_nil. cbn [length].
    split; [destruct (tN t !! (w, X)) | destruct (tN t !! (w, Y))];
      cbn [fmap option_fmap option_map]; try done; f_equal; lia.
  - cbn [for_each] in Hrun.
    apply bind_Ok_inv in Hrun as ([] & t1 & Hv & Hrun).
    apply neighbour_body_Ok in Hv as [HC1 HN1]; [|done].
    apply IH in Hrun as [HC2 HN2].
    split; [congruence|]. intros w.
    destruct (HN1 w) as [HX1 HY1]. destruct (HN2 w) as [HX2 HY2].
    rewrite HX2, HY2, HX1, HY1, (occ_cons w v l).
    split; [destruct (tN t !! (w, X)) | destruct (tN t !! (w, Y))];
      cbn [fmap option_fmap option_map]; try done; f_equal; lia.
Qed.

Lemma N_add_C key d t r t' : N_add key d t = (r, t') → tC t' = tC t.
Proof using Type.
  unfold N_add, N_get, bind, modify, py_lookup.
  destruct (tN t !! key); by intros [= <- <-].
Qed.

Lemma neighbour_loop_C l t r t' :
  for_each l neighbour_body t = (r, t') → tC t' = tC t.
Proof using Type.
  assert (∀ s1 s2 s3 : tables, tC s2 = tC s1 → tC s3 = tC s2 → tC s3 = tC s1)
    as Ht by (intros; congruence).
  revert t r t'.
  apply (for_each_rel (λ s s' : tables, tC s' = tC s) (λ _, eq_refl) Ht).
  intros v s r s' _. revert s r s'.
  apply (bind_rel (λ s s' : tables, tC s' = tC s) Ht); [apply N_add_C|].
  intros _.
  apply (bind_rel (λ s s' : tables, tC s' = tC s) Ht); [apply N_add_C|].
  intros _ s r s' Hrun. by apply witness_updates_kept in Hrun as [_ ?].
Qed.

Lemma change_color_Ok_inv t t' :
  change_color globals u X Y t = (Ok tt, t') →
  ∃ g nbrs t1 t2 l',
    globals !! "G"%string = Some g ∧ neighbors g u = Ok nbrs ∧
    tN t1 = tN t ∧
    for_each nbrs neighbour_body t1 = (Ok tt, t2) ∧
    list_remove u (default [] (tC t !! X)) = Some l' ∧
    tN t' = tN t2 ∧
    tC t' = <[Y := default [] (<[X := l']> (tC t) !! Y) ++ [u]]>
              (<[X := l']> (tC t)).
Proof using Type.
  unfold change_color. intros Hrun.
  apply bind_Ok_inv in Hrun as ([] & s1 & H1 & Hrun).
  apply bind_Ok_inv in Hrun as ([] & s2 & H2 & Hrun).
  apply bind_Ok_inv in Hrun as ([] & s3 & H3 & Hrun).
  apply bind_Ok_inv in Hrun as (g & s4 & H4 & Hrun).
  apply bind_Ok_inv in Hrun as (nbrs & s5 & H5 & Hrun).
  apply bind_Ok_inv in Hrun as ([] & s6 & H6 & Hrun).
  apply bind_Ok_inv in Hrun as ([] & s7 & H7 & Hrun).
  unfold F_set, modify in H1. simplify_eq.
  apply H_add_others in H2 as (HN2 & _ & HC2).
  apply H_add_others in H3 as (HN3 & _ & HC3).
  unfold lookup_global in H4.
  destruct (globals !! "G"%string) as [g'|] eqn:HG; [|done].
  unfold ret in H4. simplify_eq.
  unfold lift in H5. simplify_eq.
  pose proof (neighbour_loop_C _ _ _ _ H6) as HC6.
  assert (tC s6 = tC t) as HC by (cbn in *; congruence).
  unfold C_remove in H7.
  destruct (list_remove u (default [] (tC s6 !! X))) as [l'|] eqn:Hrem; [|done].
  simplify_eq.
  unfold C_append, modify in Hrun. simplify_eq.
  exists g, nbrs, s5, s6, l'. cbn in *. rewrite <- HC.
  repeat split; try done; congruence.
Qed.

End ChangeColorRun.

(** X19. A call [change_color(u, X, Y, ...)] returns normally only when [u]
    is listed in [C[X]] (an absent key reads as the empty list); the [C] it
    leaves is the old one with the first occurrence of [u] removed from
    [C[X]] and [u] appended to what [C[Y]] is then: no step before the last
    two statements touches [C]. *)
Theorem change_color_moves_node (globals : gmap string graph) (u : nat)
    (X Y : Z) (t t' : tables) :
  change_color globals u X Y t = (Ok tt, t') →
  ∃ l', list_remove u (default [] (tC t !! X)) = Some l' ∧
        tC t' = <[Y := default [] (<[X := l']> (tC t) !! Y) ++ [u]]>
                  (<[X := l']> (tC t)).
Proof.
  intros Hrun.
  apply change_color_Ok_inv in Hrun
    as (g & nbrs & t1 & t2 & l' & _ & _ & _ & _ & Hrem & _ & HC).
  by exists l'.
Qed.

Lemma change_color_moves_node_witness :
  ∃ t', change_color {[ "G"%string := path2 ]} 0%nat 0 2 edge_tables = (Ok tt, t') ∧
  ∃ l', list_remove 0%nat (default [] (tC edge_tables !! 0)) = Some l' ∧
        tC t' = <[2 := default [] (<[0 := l']> (tC edge_tables) !! 2) ++ [0%nat]]>
                  (<[0 := l']> (tC edge_tables)).
Proof.
  eexists. split; [vm_compute; reflexivity|].
  apply (change_color_moves_node {[ "G"%string := path2 ]} 0%nat 0 2 edge_tables).
  vm_compute. reflexivity.
Defined.

(** X20. A call [change_color(u, X, Y, ...)] with [X] and [Y] different
    returns normally only when the global name [G] is bound to a graph that
    has the node [u]; then, for every node [w], the entry [N[(w, X)]] has
    gone down and the entry [N[(w, Y)]] has gone up by the number of times
    [w] is listed among [G.neighbors(u)] (an absent entry stays absent). *)
Theorem change_color_neighbour_counts (globals : gmap string graph) (u : nat)
    (X Y : Z) (t t' : tables) :
  X ≠ Y →
  change_color globals u X Y t = (Ok tt, t') →
  ∃ g nbrs, globals !! "G"%string = Some g ∧ neighbors g u = Ok nbrs ∧
    ∀ w, tN t' !! (w, X) =
           (λ x, x - Z.of_nat (length (filter (λ v, v = w) nbrs))) <$> tN t !! (w, X) ∧
         tN t' !! (w, Y) =
           (λ y, y + Z.of_nat (length (filter (λ v, v = w) nbrs))) <$> tN t !! (w, Y).
Proof.
  intros HXY Hrun.
  apply change_color_Ok_inv in Hrun
    as (g & nbrs & t1 & t2 & l' & HG & Hnb & HN1 & Hloop & _ & HN & _).
  exists g, nbrs. split; [done|]. split; [done|].
  apply neighbour_loop_Ok in Hloop as [_ Hloop]; [|done].
  intros w. rewrite HN, <- HN1. apply Hloop.
Qed.

Lemma change_color_neighbour_counts_witness :
  ∃ t', (0 : Z) ≠ 2 ∧
  change_color {[ "G"%string := path2 ]} 0%nat 0 2 edge_tables = (Ok tt, t') ∧
  ∃ g nbrs, ({[ "G"%string := path2 ]} : gmap string graph) !! "G"%string = Some g ∧
    neighbors g 0%nat = Ok nbrs ∧
    ∀ w, tN t' !! (w, 0) =
           (λ x, x - Z.of_nat (length (filter (λ v, v = w) nbrs))) <$>
             tN edge_tables !! (w, 0) ∧
         tN t' !! (w, 2) =
           (λ y, y + Z.of_nat (length (filter (λ v, v = w) nbrs))) <$>
             tN edge_tables !! (w, 2).
Proof.
  eexists. split; [lia|]. split; [vm_compute; reflexivity|].
  apply (change_color_neighbour_counts {[ "G"%string := path2 ]} 0%nat 0 2
           edge_tables); [lia | vm_compute; reflexivity].
Defined.
